(** * pair_PHIN: the LAMMPS <-> graph-model marshaling layer

    A shallow embedding of [PairPHIN::init_style] and [PairPHIN::compute]
    (pair_phin.cpp) and of the edge construction of
    [ComputeNEQUIP::compute_vector], followed by the properties of the
    edge list, the periodic shifts, the tag/index maps, the error paths and
    the result scatter.

    Conventions of the embedding:
    - C++ [double] and [float] are IEEE 754 binary64 and binary32 values,
      carried by the standard library's [spec_float] and evaluated
      operation by operation with round-to-nearest-even;
    - C++ [int], [int64_t] and [tagint] values are integers of [Z]; the
      source's arithmetic on them (sums of neighbor counts, [itag - 1],
      buffer offsets) is taken not to overflow, signed overflow being
      undefined in the source;
    - the values of the model's output dictionary are [float] tensors;
      printing ([std::cout], [printf], [error->message]) is not modelled;
    - raw arrays, [std::vector] and tensor accessors are lists; an index
      outside the allocation is undefined behaviour in the source and is
      reported as the error [Undefined]; uninitialised storage holds [None];
    - [error->all] terminates the run: it is the error [ErrorAll];
    - libtorch ([inverse], [matmul], the model's [forward]) and the host's
      [ev_init] and [NEIGHMASK] are not part of the repository: they are
      fields of the record [externals], over which every statement is
      universally quantified. *)

From Stdlib Require Import ZArith Lia Floats.SpecFloat.
From stdpp Require Import base list strings gmap.

Local Open Scope Z_scope.

(** ** IEEE 754 numbers *)

Module IEEE.

(** C++ [double]: binary64, [prec = 53], [emax = 1024]. *)
Record double := F64 { bits64 : spec_float }.

(** C++ [float]: binary32, [prec = 24], [emax = 128]. *)
Record float := F32 { bits32 : spec_float }.

Definition dadd (a b : double) : double := F64 (SFadd 53 1024 (bits64 a) (bits64 b)).
Definition dsub (a b : double) : double := F64 (SFsub 53 1024 (bits64 a) (bits64 b)).
Definition dmul (a b : double) : double := F64 (SFmul 53 1024 (bits64 a) (bits64 b)).
Definition dltb (a b : double) : bool := SFltb (bits64 a) (bits64 b).

Definition fadd (a b : float) : float := F32 (SFadd 24 128 (bits32 a) (bits32 b)).
Definition fsub (a b : float) : float := F32 (SFsub 24 128 (bits32 a) (bits32 b)).
Definition fmul (a b : float) : float := F32 (SFmul 24 128 (bits32 a) (bits32 b)).
Definition fdiv (a b : float) : float := F32 (SFdiv 24 128 (bits32 a) (bits32 b)).

(** Re-rounding of a value to the format [(prec, emax)]. *)
Definition SFconvert (prec emax : Z) (v : spec_float) : spec_float :=
  match v with
  | S754_finite s m e => binary_round prec emax s m e
  | _ => v
  end.

(** Conversion [double -> float] (an assignment to a [float] lvalue). *)
Definition d2f (a : double) : float := F32 (SFconvert 24 128 (bits64 a)).

(** Promotion [float -> double]; every binary32 value is a binary64 value. *)
Definition f2d (a : float) : double := F64 (SFconvert 53 1024 (bits32 a)).

(** [std::round]: nearest integer, halfway cases away from zero; zeros,
    infinities and NaN are returned unchanged.  For [e < 0] the value is
    [m / 2^p] with [p = -e]; its rounding is the quotient plus the bit
    of weight one half. *)
Definition SFround (prec emax : Z) (v : spec_float) : spec_float :=
  match v with
  | S754_finite s m (Zneg p) =>
      let q := Z.shiftr (Zpos m) (Zpos p) in
      let n := if Z.testbit (Zpos m) (Zpos p - 1) then q + 1 else q in
      binary_normalize prec emax (cond_Zopp s n) 0 s
  | _ => v
  end.

Definition fround (a : float) : float := F32 (SFround 24 128 (bits32 a)).

(** A zero or a finite non-zero number of the format [(prec, emax)]
    (neither NaN nor an infinity). *)
Definition SFis_finite (prec emax : Z) (v : spec_float) : bool :=
  match v with
  | S754_zero _ => true
  | S754_finite _ m e => bounded prec emax m e
  | _ => false
  end.

(** The number has an integer value: [m * 2^e] with [e >= 0], or with
    [2^(-e)] dividing [m]. *)
Definition SFis_integer (v : spec_float) : bool :=
  match v with
  | S754_zero _ => true
  | S754_finite _ m (Zneg p) => Z.eqb (Z.land (Zpos m) (Z.ones (Zpos p))) 0
  | S754_finite _ _ _ => true
  | _ => false
  end.

Definition f_is_finite (a : float) : bool := SFis_finite 24 128 (bits32 a).
Definition f_is_integer (a : float) : bool := SFis_integer (bits32 a).

(** Literals: the integer [z], and [z * 2^e]. *)
Definition d_of_Z (z : Z) : double := F64 (binary_normalize 53 1024 z 0 false).
Definition d_lit (z e : Z) : double := F64 (binary_normalize 53 1024 z e false).
Definition f_of_Z (z : Z) : float := F32 (binary_normalize 24 128 z 0 false).
Definition f_lit (z e : Z) : float := F32 (binary_normalize 24 128 z e false).

Definition dzero : double := F64 (S754_zero false).
Definition fzero : float := F32 (S754_zero false).

End IEEE.
Export IEEE.

(** ** Outcomes of a host call *)

Inductive error :=
| ErrorAll (msg : string)         (* [error->all(FLERR, msg)]: fatal, the run stops *)
| AssertionFailed (cond : string) (* a failed [assert] *)
| TorchError (what : string)      (* a C++ exception thrown inside libtorch *)
| KeyMissing (key : string)       (* [dict.at(key)] on an absent key *)
| Undefined (what : string).      (* undefined behaviour of the source *)

Inductive outcome (A : Type) :=
| Ok (a : A)
| Err (e : error).
Arguments Ok {A} a.
Arguments Err {A} e.

#[global] Instance outcome_ret : MRet outcome := @Ok.
#[global] Instance outcome_bind : MBind outcome :=
  λ A B k m, match m with Ok a => k a | Err e => Err e end.

Definition is_Ok {A} (m : outcome A) : Prop := ∃ a, m = Ok a.

(** Monadic fold: the body of a loop run over the elements of [l]. *)
Fixpoint foldM {A S : Type} (body : A → S → outcome S) (l : list A) (s : S)
  : outcome S :=
  match l with
  | [] => Ok s
  | a :: l' => s' ← body a s; foldM body l' s'
  end.

(** [for (int k = 0; k < n; k++) body]. *)
Definition for_ {S : Type} (n : Z) (body : Z → S → outcome S) (s : S) : outcome S :=
  foldM body (seqZ 0 n) s.

(** ** Arrays *)

(** [l[i]] as an rvalue. *)
Definition zget {A} (what : string) (l : list A) (i : Z) : outcome A :=
  if bool_decide (0 ≤ i) then
    match l !! Z.to_nat i with
    | Some a => Ok a
    | None => Err (Undefined what)
    end
  else Err (Undefined what).

(** [l[i] = a]. *)
Definition zset {A} (what : string) (l : list A) (i : Z) (a : A) : outcome (list A) :=
  if bool_decide (0 ≤ i < Z.of_nat (length l)) then Ok (<[Z.to_nat i := a]> l)
  else Err (Undefined what).

(** Reading a cell of storage that may still be uninitialised. *)
Definition zget_init {A} (what : string) (l : list (option A)) (i : Z) : outcome A :=
  c ← zget what l i;
  match c with
  | Some a => Ok a
  | None => Err (Undefined what)
  end.

(** The total reading used in specifications: [l[i]], or [d] outside [l]. *)
Definition at_ {A} (d : A) (l : list A) (i : Z) : A :=
  match zget "" l i with
  | Ok a => a
  | Err _ => d
  end.

Record vec3 (A : Type) := V3 { c0 : A; c1 : A; c2 : A }.
Arguments V3 {A} c0 c1 c2.
Arguments c0 {A} v.
Arguments c1 {A} v.
Arguments c2 {A} v.

Definition vmap {A B} (g : A → B) (v : vec3 A) : vec3 B :=
  V3 (g (c0 v)) (g (c1 v)) (g (c2 v)).

(** A 3x3 [float] tensor, by rows. *)
Definition mat3 : Type := vec3 (vec3 float).

(** [m.transpose(0,1)]. *)
Definition transpose (m : mat3) : mat3 :=
  V3 (V3 (c0 (c0 m)) (c0 (c1 m)) (c0 (c2 m)))
     (V3 (c1 (c0 m)) (c1 (c1 m)) (c1 (c2 m)))
     (V3 (c2 (c0 m)) (c2 (c1 m)) (c2 (c2 m))).

(** A contiguous [float] tensor as returned by the model: its sizes and its
    elements in row-major order. *)
Record tensor := Tensor { sizes : list Z; data : list float }.

(** [t.accessor<float, n>()] checks the number of dimensions only. *)
Definition accessor (n : nat) (t : tensor) : outcome tensor :=
  if bool_decide (length (sizes t) = n) then Ok t
  else Err (TorchError "accessor: wrong number of dimensions").

(** [a[i][j]] through a two-dimensional accessor (no bounds check). *)
Definition acc2 (a : tensor) (i j : Z) : outcome float :=
  zget "accessor index" (data a) (i * at_ 0 (sizes a) 1 + j).

(** [a[i][j][k]] through a three-dimensional accessor (no bounds check). *)
Definition acc3 (a : tensor) (i j k : Z) : outcome float :=
  zget "accessor index" (data a)
       (i * (at_ 0 (sizes a) 1 * at_ 0 (sizes a) 2) + j * at_ 0 (sizes a) 2 + k).

(** [dict.at(key)] throws when the key is absent. *)
Definition dict_at (d : gmap string tensor) (key : string) : outcome tensor :=
  match d !! key with
  | Some t => Ok t
  | None => Err (KeyMissing key)
  end.

(** A call into libtorch: it returns, or it throws a C++ exception. *)
Definition thrown {A} (what : string) (r : option A) : outcome A :=
  match r with
  | Some a => Ok a
  | None => Err (TorchError what)
  end.

(** ** Host state *)

(** [atom->...]: per-atom arrays, local atoms first, ghost atoms after. *)
Record Atom := {
  atom_x : list (vec3 double);      (* positions, ghosts included *)
  atom_f : list (vec3 double);      (* forces *)
  atom_tag : list Z;                (* atom IDs *)
  atom_type : list Z;               (* atom types *)
  atom_nlocal : Z;
  atom_nmax : Z;
  atom_tag_enable : Z
}.

(** [list->...]: the neighbor list handed to the pair style. *)
Record NeighList := {
  list_inum : Z;
  list_gnum : Z;
  list_ilist : list Z;
  list_numneigh : list Z;
  list_firstneigh : list (list Z)
}.

(** [domain->...]: the simulation box. *)
Record Domain := {
  domain_boxlo : vec3 double;
  domain_boxhi : vec3 double;
  domain_xy : double;
  domain_xz : double;
  domain_yz : double
}.

Inductive neigh_request := REQ_FULL.

(** The members of the base class [Pair] that [compute] touches. *)
Record Pair := {
  eng_vdwl : double;
  virial : list double;
  eatom : list double;
  eflag_atom : Z;
  vflag_atom : Z
}.

(** The members of [PairPHIN] proper. *)
Record PairPHIN := {
  pair_base : Pair;
  cutoff : double;
  uncertainties : list (option double);
  nmax : Z;
  type_mapper : list Z
}.

Record lammps := {
  atom : Atom;
  neigh : NeighList;
  domain : Domain;
  force_newton_pair : Z;
  neighbor_requests : list neigh_request;
  timer_timeout : bool;             (* set by [timer->force_timeout()] *)
  pair : PairPHIN
}.

Definition set_pair (p : PairPHIN) (st : lammps) : lammps :=
  {| atom := atom st; neigh := neigh st; domain := domain st;
     force_newton_pair := force_newton_pair st;
     neighbor_requests := neighbor_requests st;
     timer_timeout := timer_timeout st; pair := p |}.

Definition set_atom_f (f : list (vec3 double)) (st : lammps) : lammps :=
  {| atom := {| atom_x := atom_x (atom st); atom_f := f;
                atom_tag := atom_tag (atom st); atom_type := atom_type (atom st);
                atom_nlocal := atom_nlocal (atom st); atom_nmax := atom_nmax (atom st);
                atom_tag_enable := atom_tag_enable (atom st) |};
     neigh := neigh st; domain := domain st;
     force_newton_pair := force_newton_pair st;
     neighbor_requests := neighbor_requests st;
     timer_timeout := timer_timeout st; pair := pair st |}.

Definition set_timer_timeout (b : bool) (st : lammps) : lammps :=
  {| atom := atom st; neigh := neigh st; domain := domain st;
     force_newton_pair := force_newton_pair st;
     neighbor_requests := neighbor_requests st;
     timer_timeout := b; pair := pair st |}.

Definition add_request (r : neigh_request) (st : lammps) : lammps :=
  {| atom := atom st; neigh := neigh st; domain := domain st;
     force_newton_pair := force_newton_pair st;
     neighbor_requests := r :: neighbor_requests st;
     timer_timeout := timer_timeout st; pair := pair st |}.

(** ** The model's input and the collaborators outside the repository *)

(** The named tensors of the request: ["pos"] [N,3], ["edge_index"] [2,E]
    (its two rows), ["edge_cell_shift"] [E,3], ["cell"] [3,3] and
    ["atom_types"] [N]. *)
Record graph_input := {
  in_pos : list (vec3 float);
  in_edge_index : list Z * list Z;
  in_edge_cell_shift : list (vec3 float);
  in_cell : mat3;
  in_atom_types : list Z
}.

Record externals := {
  (* the host's mask that strips the special-bond bits of a neighbor entry *)
  NEIGHMASK : Z;
  (* [Pair::ev_init(eflag, vflag)]: sets the energy/virial flags and clears
     the accumulators of the base class *)
  ev_init : Z → Z → lammps → Pair;
  (* [Tensor::inverse()] of a 3x3 tensor; [None] when it throws *)
  torch_inverse : mat3 → option mat3;
  (* [Tensor::matmul] of a 3x3 tensor and a 3-vector *)
  torch_matmul : mat3 → vec3 float → vec3 float;
  (* [model.forward(input).toGenericDict()]; [None] when it throws *)
  model_forward : graph_input → option (gmap string tensor)
}.

Definition with_forward (fwd : graph_input → option (gmap string tensor))
    (E : externals) : externals :=
  {| NEIGHMASK := NEIGHMASK E; ev_init := ev_init E;
     torch_inverse := torch_inverse E; torch_matmul := torch_matmul E;
     model_forward := fwd |}.

Definition set_uncertainties (u : list (option double)) (n : Z) (p : PairPHIN) : PairPHIN :=
  {| pair_base := pair_base p; cutoff := cutoff p; uncertainties := u; nmax := n;
     type_mapper := type_mapper p |}.

Definition set_base (b : Pair) (p : PairPHIN) : PairPHIN :=
  {| pair_base := b; cutoff := cutoff p; uncertainties := uncertainties p;
     nmax := nmax p; type_mapper := type_mapper p |}.

Definition set_eng_vdwl (e : double) (b : Pair) : Pair :=
  {| eng_vdwl := e; virial := virial b; eatom := eatom b;
     eflag_atom := eflag_atom b; vflag_atom := vflag_atom b |}.

Definition set_virial (v : list double) (b : Pair) : Pair :=
  {| eng_vdwl := eng_vdwl b; virial := v; eatom := eatom b;
     eflag_atom := eflag_atom b; vflag_atom := vflag_atom b |}.

Definition set_eatom (e : list double) (b : Pair) : Pair :=
  {| eng_vdwl := eng_vdwl b; virial := virial b; eatom := e;
     eflag_atom := eflag_atom b; vflag_atom := vflag_atom b |}.

(** ** [PairPHIN::init_style] *)

Definition init_style (st : lammps) : outcome lammps :=
  if bool_decide (atom_tag_enable (atom st) = 0) then
    Err (ErrorAll "Pair style PHIN requires atom IDs")
  else
    (* need a full neighbor list *)
    let st := add_request REQ_FULL st in
    if bool_decide (force_newton_pair st = 1) then
      Err (ErrorAll "Pair style PHIN requires newton pair off")
    else Ok st.

(** ** [PairPHIN::compute]: building the graph *)

(** The tag-ordered ("dense") buffers: [tag2i] is the [std::vector<int>],
    [tag2type] and [pos] are the accessors of [tag2type_tensor] and
    [pos_tensor]. *)
Record dense := {
  tag2i : list Z;
  tag2type : list Z;
  pos : list (vec3 float)
}.

(** The working buffers of the edge loop: the two variable-length arrays
    and the number of edges stored so far. *)
Record edge_buffers := {
  edge_counter : Z;
  edges : list (option Z);
  edge_cell_shifts : list (option float)
}.

(** Reallocation of [uncertainties] when the host's [nmax] has grown. *)
Definition grow_uncertainties (st : lammps) : lammps :=
  if bool_decide (nmax (pair st) < atom_nmax (atom st)) then
    set_pair (set_uncertainties (replicate (Z.to_nat (atom_nmax (atom st))) None)
                                (atom_nmax (atom st)) (pair st)) st
  else st.

(** [std::accumulate(a, a + n, 0)]. *)
Definition accumulate (a : list Z) (n : Z) : outcome Z :=
  if bool_decide (0 ≤ n ≤ Z.of_nat (length a)) then
    Ok (foldl Z.add 0 (take (Z.to_nat n) a))
  else Err (Undefined "accumulate").

(** Body of the first loop, for the atom [i = ilist[ii]]. *)
Definition store_tag (st : lammps) (i : Z) (d : dense) : outcome dense :=
  itag ← zget "tag" (atom_tag (atom st)) i;
  itype ← zget "type" (atom_type (atom st)) i;
  (* inverse mapping from tag to x/f atom index *)
  t2i ← zset "tag2i" (tag2i d) (itag - 1) i;
  mapped ← zget "type_mapper" (type_mapper (pair st)) itype;
  t2t ← zset "tag2type" (tag2type d) (itag - 1) mapped;
  xi ← zget "x" (atom_x (atom st)) i;
  p ← zset "pos" (pos d) (itag - 1) (vmap d2f xi);
  Ok {| tag2i := t2i; tag2type := t2t; pos := p |}.

(** Loop over real atoms to store tags, types and positions. *)
Definition store_tags (st : lammps) : outcome dense :=
  let inum := list_inum (neigh st) in
  let nlocal := atom_nlocal (atom st) in
  for_ inum
    (λ ii d, i ← zget "ilist" (list_ilist (neigh st)) ii; store_tag st i d)
    {| tag2i := replicate (Z.to_nat inum) 0;
       tag2type := replicate (Z.to_nat nlocal) 0;
       pos := replicate (Z.to_nat nlocal) (V3 fzero fzero fzero) |}.

(** Get cell: the six stores into the zero-filled [cell_tensor]. *)
Definition get_cell (dom : Domain) : mat3 :=
  V3 (V3 (d2f (dsub (c0 (domain_boxhi dom)) (c0 (domain_boxlo dom)))) fzero fzero)
     (V3 (d2f (domain_xy dom))
         (d2f (dsub (c1 (domain_boxhi dom)) (c1 (domain_boxlo dom)))) fzero)
     (V3 (d2f (domain_xz dom)) (d2f (domain_yz dom))
         (d2f (dsub (c2 (domain_boxhi dom)) (c2 (domain_boxlo dom))))).

(** [rsq = dx*dx + dy*dy + dz*dz] for [dx = x[i][0] - x[j][0]], ... *)
Definition rsq_of (xi xj : vec3 double) : double :=
  let dx := dsub (c0 xi) (c0 xj) in
  let dy := dsub (c1 xi) (c1 xj) in
  let dz := dsub (c2 xi) (c2 xj) in
  dadd (dadd (dmul dx dx) (dmul dy dy)) (dmul dz dz).

(** [periodic_shift[k] = x[j][k] - pos[jtag-1][k]], stored as [float]. *)
Definition periodic_shift_of (xj : vec3 double) (pj : vec3 float) : vec3 float :=
  V3 (d2f (dsub (c0 xj) (f2d (c0 pj))))
     (d2f (dsub (c1 xj) (f2d (c1 pj))))
     (d2f (dsub (c2 xj) (f2d (c2 pj)))).

(** Storing one edge at the current [edge_counter]. *)
Definition push_edge (itag jtag : Z) (cell_shift : vec3 float) (b : edge_buffers)
  : outcome edge_buffers :=
  let ec := edge_counter b in
  s ← zset "edge_cell_shifts" (edge_cell_shifts b) (ec * 3) (Some (fround (c0 cell_shift)));
  s ← zset "edge_cell_shifts" s (ec * 3 + 1) (Some (fround (c1 cell_shift)));
  s ← zset "edge_cell_shifts" s (ec * 3 + 2) (Some (fround (c2 cell_shift)));
  e ← zset "edges" (edges b) (ec * 2) (Some (itag - 1));
  e ← zset "edges" e (ec * 2 + 1) (Some (jtag - 1));
  Ok {| edge_counter := ec + 1; edges := e; edge_cell_shifts := s |}.

(** Body of the inner loop, for the neighbor entry [jlist[jj]]. *)
Definition visit_neighbor (E : externals) (st : lammps) (d : dense) (cell_inv : mat3)
    (i itag : Z) (jentry : Z) (b : edge_buffers) : outcome edge_buffers :=
  let j := Z.land jentry (NEIGHMASK E) in
  jtag ← zget "tag" (atom_tag (atom st)) j;
  jtype ← zget "type" (atom_type (atom st)) j;
  xj ← zget "x" (atom_x (atom st)) j;
  pj ← zget "pos" (pos d) (jtag - 1);
  let periodic_shift := periodic_shift_of xj pj in
  xi ← zget "x" (atom_x (atom st)) i;
  let rsq := rsq_of xi xj in
  if dltb rsq (dmul (cutoff (pair st)) (cutoff (pair st))) then
    push_edge itag jtag (torch_matmul E cell_inv periodic_shift) b
  else Ok b.

(** Body of the outer loop, for the atom [i = ilist[ii]]. *)
Definition visit_atom (E : externals) (st : lammps) (d : dense) (cell_inv : mat3)
    (i : Z) (b : edge_buffers) : outcome edge_buffers :=
  itag ← zget "tag" (atom_tag (atom st)) i;
  itype ← zget "type" (atom_type (atom st)) i;
  jnum ← zget "numneigh" (list_numneigh (neigh st)) i;
  jlist ← zget "firstneigh" (list_firstneigh (neigh st)) i;
  for_ jnum
    (λ jj b, jentry ← zget "jlist" jlist jj;
             visit_neighbor E st d cell_inv i itag jentry b) b.

(** Loop over atoms and neighbors, store edges and cell shifts. *)
Definition edge_loop (E : externals) (st : lammps) (d : dense) (cell_inv : mat3)
    (nedges : Z) : outcome edge_buffers :=
  for_ (atom_nlocal (atom st))
    (λ ii b, i ← zget "ilist" (list_ilist (neigh st)) ii;
             visit_atom E st d cell_inv i b)
    {| edge_counter := 0;
       edges := replicate (Z.to_nat (2 * nedges)) None;
       edge_cell_shifts := replicate (Z.to_nat (3 * nedges)) None |}.

(** Everything [compute] holds when the edge loop has finished. *)
Record graph_build := {
  gb_state : lammps;
  gb_dense : dense;
  gb_cell : mat3;
  gb_cell_inv : mat3;
  gb_buffers : edge_buffers
}.

Definition build_graph (E : externals) (st : lammps) : outcome graph_build :=
  let st := grow_uncertainties st in
  (* should probably be off *)
  _ ← (if bool_decide (force_newton_pair st = 1)
       then Err (ErrorAll "Pair style PHIN requires 'newton off'") else Ok ());
  let inum := list_inum (neigh st) in
  let nlocal := atom_nlocal (atom st) in
  _ ← (if bool_decide (inum = nlocal) then Ok ()
       else Err (AssertionFailed "inum==nlocal"));
  let ntotal := inum + list_gnum (neigh st) in
  (* total number of bonds (sum of number of neighbors) *)
  nedges ← accumulate (list_numneigh (neigh st)) ntotal;
  let st := if bool_decide (nedges = 0) then set_timer_timeout true st else st in
  _ ← (if bool_decide (0 ≤ nlocal) then Ok ()
       else Err (TorchError "zeros: negative dimension"));
  _ ← (if bool_decide (0 ≤ nedges) then Ok ()
       else Err (Undefined "variable-length array of negative size"));
  d ← store_tags st;
  let cell := get_cell (domain st) in
  inv ← thrown "inverse" (torch_inverse E cell);
  let cell_inv := transpose inv in
  b ← edge_loop E st d cell_inv nedges;
  Ok {| gb_state := st; gb_dense := d; gb_cell := cell; gb_cell_inv := cell_inv;
        gb_buffers := b |}.

(** ** [PairPHIN::compute]: handing the graph to the model *)

(** Shorten the list before sending to the model: [edges_tensor] is [2,E],
    [edge_cell_shifts_tensor] is [E,3], both zero-filled and then copied
    into, edge by edge. *)
Definition copy_edge (b : edge_buffers) (i : Z)
    (t : list Z * list Z * list (vec3 float))
  : outcome (list Z * list Z * list (vec3 float)) :=
  let '(row0, row1, shifts) := t in
  e0 ← zget_init "edges" (edges b) (i * 2);
  e1 ← zget_init "edges" (edges b) (i * 2 + 1);
  row0 ← zset "new_edges" row0 i e0;
  row1 ← zset "new_edges" row1 i e1;
  ev0 ← zget_init "edge_cell_shifts" (edge_cell_shifts b) (i * 3);
  ev1 ← zget_init "edge_cell_shifts" (edge_cell_shifts b) (i * 3 + 1);
  ev2 ← zget_init "edge_cell_shifts" (edge_cell_shifts b) (i * 3 + 2);
  shifts ← zset "new_edge_cell_shifts" shifts i (V3 ev0 ev1 ev2);
  Ok (row0, row1, shifts).

Definition shorten (b : edge_buffers)
  : outcome (list Z * list Z * list (vec3 float)) :=
  let n := Z.to_nat (edge_counter b) in
  for_ (edge_counter b) (copy_edge b)
       (replicate n 0, replicate n 0, replicate n (V3 fzero fzero fzero)).

(** The zero-edge check and the assembly of the named input tensors. *)
Definition assemble (gb : graph_build) : outcome graph_input :=
  _ ← (if bool_decide (edge_counter (gb_buffers gb) = 0)
       then Err (ErrorAll "No Edges Detected") else Ok ());
  '(row0, row1, shifts) ← shorten (gb_buffers gb);
  Ok {| in_pos := pos (gb_dense gb);
        in_edge_index := (row0, row1);
        in_edge_cell_shift := shifts;
        in_cell := gb_cell gb;
        in_atom_types := tag2type (gb_dense gb) |}.

(** ** [PairPHIN::compute]: scattering the results *)

(** The host arrays written by the last loop. *)
Record host_arrays := {
  h_f : list (vec3 double);
  h_eatom : list double;
  h_uncertainties : list (option double)
}.

(** Convert from the 3x3 symmetric tensor format, which the model outputs,
    to the flattened form LAMMPS expects; the first index on [v] is batch. *)
Definition flatten_virial (v : tensor) (virial : list double) : outcome (list double) :=
  v00 ← acc3 v 0 0 0; vir ← zset "virial" virial 0 (f2d v00);
  v11 ← acc3 v 0 1 1; vir ← zset "virial" vir 1 (f2d v11);
  v22 ← acc3 v 0 2 2; vir ← zset "virial" vir 2 (f2d v22);
  v01 ← acc3 v 0 0 1; vir ← zset "virial" vir 3 (f2d v01);
  v02 ← acc3 v 0 0 2; vir ← zset "virial" vir 4 (f2d v02);
  v12 ← acc3 v 0 1 2; vir ← zset "virial" vir 5 (f2d v12);
  Ok vir.

(** Body of the last loop: write forces and per-atom energies for the
    0-based tag [itag]. *)
Definition scatter_node (eflag_atom : Z) (tag2i : list Z)
    (forces atomic_energies uncertainties_itag : tensor)
    (itag : Z) (h : host_arrays) : outcome host_arrays :=
  i ← zget "tag2i" tag2i itag;
  f0 ← acc2 forces itag 0;
  f1 ← acc2 forces itag 1;
  f2 ← acc2 forces itag 2;
  f ← zset "f" (h_f h) i (V3 (f2d f0) (f2d f1) (f2d f2));
  e ← (if bool_decide (eflag_atom ≠ 0) then
         ae ← acc2 atomic_energies itag 0;
         zset "eatom" (h_eatom h) i (f2d ae)
       else Ok (h_eatom h));
  u ← acc2 uncertainties_itag itag 0;
  un ← zset "uncertainties" (h_uncertainties h) i (Some (f2d u));
  Ok {| h_f := f; h_eatom := e; h_uncertainties := un |}.

(** What [compute] holds once the named outputs have been fetched. *)
Record response := {
  r_pair : Pair;
  r_forces : tensor;
  r_atomic_energies : tensor;
  r_uncertainties_itag : tensor
}.

(** Fetching the named outputs, the total energy and, if requested, the
    virial. *)
Definition fetch (vflag : Z) (b : Pair) (output : gmap string tensor) : outcome response :=
  forces_tensor ← dict_at output "forces";
  forces ← accessor 2 forces_tensor;
  total_energy_tensor ← dict_at output "total_energy";
  (* store the total energy where LAMMPS wants it *)
  e0 ← zget "data_ptr" (data total_energy_tensor) 0;
  let b := set_eng_vdwl (f2d e0) b in
  atomic_energy_tensor ← dict_at output "atomic_energy";
  atomic_energies ← accessor 2 atomic_energy_tensor;
  uncertainties_tensor ← dict_at output "uncertainties";
  uncertainties_itag ← accessor 2 uncertainties_tensor;
  b ← (if bool_decide (vflag ≠ 0) then
         v_tensor ← dict_at output "virial";
         v ← accessor 3 v_tensor;
         vir ← flatten_virial v (virial b);
         Ok (set_virial vir b)
       else Ok b);
  Ok {| r_pair := b; r_forces := forces; r_atomic_energies := atomic_energies;
        r_uncertainties_itag := uncertainties_itag |}.

(** The per-atom virial check and the loop that writes forces and per-atom
    energies, over 0-based tags. *)
Definition scatter (gb : graph_build) (r : response) : outcome lammps :=
  let st := gb_state gb in
  _ ← (if bool_decide (vflag_atom (r_pair r) ≠ 0)
       then Err (ErrorAll "Pair style NEQUIP does not support per-atom virial")
       else Ok ());
  h ← for_ (list_inum (neigh st))
         (scatter_node (eflag_atom (r_pair r)) (tag2i (gb_dense gb))
                       (r_forces r) (r_atomic_energies r) (r_uncertainties_itag r))
         {| h_f := atom_f (atom st); h_eatom := eatom (r_pair r);
            h_uncertainties := uncertainties (pair st) |};
  Ok (set_atom_f (h_f h)
        (set_pair (set_base (set_eatom (h_eatom h) (r_pair r))
                     (set_uncertainties (h_uncertainties h) (nmax (pair st)) (pair st)))
                  st)).

(** [ev_init(eflag, vflag)]: the host rewrites the members of the base
    class. *)
Definition call_ev_init (E : externals) (eflag vflag : Z) (st : lammps) : lammps :=
  set_pair (set_base (ev_init E eflag vflag st) (pair st)) st.

(** Force and energy computation. *)
Definition compute (E : externals) (eflag vflag : Z) (st : lammps) : outcome lammps :=
  let st := call_ev_init E eflag vflag st in
  gb ← build_graph E st;
  input ← assemble gb;
  output ← thrown "forward" (model_forward E input);
  r ← fetch vflag (pair_base (pair (gb_state gb))) output;
  scatter gb r.

(** ** [ComputeNEQUIP::compute_vector]: building the graph

    The compute style builds the same graph from the same host data.  Its
    members [cutoff] and [type_mapper] are read from the [pair] record; the
    host's [neighbor->build_one(list)] has already produced the list in
    [neigh].  The embedding stops where the input tensors are handed to the
    model. *)

Module ComputeNEQUIP.

(** Body of the inner loop: the displacement is computed only for a
    neighbor inside the cutoff. *)
Definition visit_neighbor (E : externals) (st : lammps) (d : dense) (cell_inv : mat3)
    (i itag : Z) (jentry : Z) (b : edge_buffers) : outcome edge_buffers :=
  let j := Z.land jentry (NEIGHMASK E) in
  jtag ← zget "tag" (atom_tag (atom st)) j;
  jtype ← zget "type" (atom_type (atom st)) j;
  xi ← zget "x" (atom_x (atom st)) i;
  xj ← zget "x" (atom_x (atom st)) j;
  let rsq := rsq_of xi xj in
  if dltb rsq (dmul (cutoff (pair st)) (cutoff (pair st))) then
    pj ← zget "pos" (pos d) (jtag - 1);
    let periodic_shift := periodic_shift_of xj pj in
    push_edge itag jtag (torch_matmul E cell_inv periodic_shift) b
  else Ok b.

Definition visit_atom (E : externals) (st : lammps) (d : dense) (cell_inv : mat3)
    (i : Z) (b : edge_buffers) : outcome edge_buffers :=
  itag ← zget "tag" (atom_tag (atom st)) i;
  itype ← zget "type" (atom_type (atom st)) i;
  jnum ← zget "numneigh" (list_numneigh (neigh st)) i;
  jlist ← zget "firstneigh" (list_firstneigh (neigh st)) i;
  for_ jnum
    (λ jj b, jentry ← zget "jlist" jlist jj;
             visit_neighbor E st d cell_inv i itag jentry b) b.

Definition edge_loop (E : externals) (st : lammps) (d : dense) (cell_inv : mat3)
    (nedges : Z) : outcome edge_buffers :=
  for_ (list_inum (neigh st))
    (λ ii b, i ← zget "ilist" (list_ilist (neigh st)) ii;
             visit_atom E st d cell_inv i b)
    {| edge_counter := 0;
       edges := replicate (Z.to_nat (2 * nedges)) None;
       edge_cell_shifts := replicate (Z.to_nat (3 * nedges)) None |}.

(** From the start of [compute_vector] to the input of the model. *)
Definition build_input (E : externals) (st : lammps) : outcome graph_input :=
  _ ← (if bool_decide (force_newton_pair st = 1)
       then Err (ErrorAll "Compute style NEQUIP requires 'newton off'") else Ok ());
  let inum := list_inum (neigh st) in
  let nlocal := atom_nlocal (atom st) in
  _ ← (if bool_decide (inum = nlocal) then Ok ()
       else Err (AssertionFailed "inum==nlocal"));
  (* total number of bonds (sum of number of neighbors) *)
  sum ← accumulate (list_numneigh (neigh st)) inum;
  let nedges := 2 * sum in
  _ ← (if bool_decide (0 ≤ nlocal) then Ok ()
       else Err (TorchError "zeros: negative dimension"));
  _ ← (if bool_decide (0 ≤ nedges) then Ok ()
       else Err (Undefined "variable-length array of negative size"));
  d ← store_tags st;
  let cell := get_cell (domain st) in
  inv ← thrown "inverse" (torch_inverse E cell);
  let cell_inv := transpose inv in
  b ← edge_loop E st d cell_inv nedges;
  (* shorten the list before sending to nequip *)
  '(row0, row1, shifts) ← shorten b;
  Ok {| in_pos := pos d;
        in_edge_index := (row0, row1);
        in_edge_cell_shift := shifts;
        in_cell := cell;
        in_atom_types := tag2type d |}.

End ComputeNEQUIP.

(** ** The edge list in the words of the specification *)

Section EdgeSpec.
Context (E : externals) (st : lammps).

(** The local atoms, in neighbor-list order. *)
Definition local_atoms : list Z :=
  take (Z.to_nat (atom_nlocal (atom st))) (list_ilist (neigh st)).

(** The entries of the neighbor list of atom [i], special bits masked. *)
Definition neighbors_of (i : Z) : list Z :=
  (λ jentry, Z.land jentry (NEIGHMASK E)) <$>
    take (Z.to_nat (at_ 0 (list_numneigh (neigh st)) i))
         (at_ [] (list_firstneigh (neigh st)) i).

(** Every pair (local atom, neighbor entry) the edge loop visits. *)
Definition neighbor_entries : list (Z * Z) :=
  i ← local_atoms; j ← neighbors_of i; [(i, j)].

Definition x_of (i : Z) : vec3 double :=
  at_ (V3 dzero dzero dzero) (atom_x (atom st)) i.

Definition tag_of (i : Z) : Z := at_ 0 (atom_tag (atom st)) i.

(** The squared distance between [i] and the actual position of [j] is
    strictly below the squared cutoff. *)
Definition within_cutoff (p : Z * Z) : bool :=
  dltb (rsq_of (x_of p.1) (x_of p.2))
       (dmul (cutoff (pair st)) (cutoff (pair st))).

(** The pairs that qualify for an edge, in visiting order. *)
Definition qualifying : list (Z * Z) := filter (λ p, within_cutoff p = true) neighbor_entries.

(** The endpoints of the edge of a pair: dense node indices. *)
Definition edge_of (p : Z * Z) : Z * Z := (tag_of p.1 - 1, tag_of p.2 - 1).

(** The displacement between the actual position of [j] and the
    dense-ordered position of its tag, the fractional coordinates of that
    displacement, and their rounding. *)
Definition displacement_of (dense_pos : list (vec3 float)) (j : Z) : vec3 float :=
  periodic_shift_of (x_of j) (at_ (V3 fzero fzero fzero) dense_pos (tag_of j - 1)).

Definition fractional_of (cell_inv : mat3) (dense_pos : list (vec3 float)) (j : Z)
  : vec3 float :=
  torch_matmul E cell_inv (displacement_of dense_pos j).

Definition shift_of (cell_inv : mat3) (dense_pos : list (vec3 float)) (p : Z * Z)
  : vec3 float :=
  vmap fround (fractional_of cell_inv dense_pos p.2).

End EdgeSpec.

(** The content of the edge buffers: [L] lists, edge by edge, the two
    endpoints and the shift stored in the first [edge_counter] slots. *)
Definition holds (b : edge_buffers) (L : list (Z * Z * vec3 float)) : Prop :=
  edge_counter b = Z.of_nat (length L) ∧
  ∀ (k : nat) e s, L !! k = Some (e, s) →
    edges b !! (2 * k)%nat = Some (Some e.1) ∧
    edges b !! (2 * k + 1)%nat = Some (Some e.2) ∧
    edge_cell_shifts b !! (3 * k)%nat = Some (Some (c0 s)) ∧
    edge_cell_shifts b !! (3 * k + 1)%nat = Some (Some (c1 s)) ∧
    edge_cell_shifts b !! (3 * k + 2)%nat = Some (Some (c2 s)).

(** What the edge loop is specified to store: for every qualifying pair, in
    visiting order, the endpoints of its edge and its shift. *)
Definition emitted (E : externals) (st : lammps) (cell_inv : mat3)
    (dense_pos : list (vec3 float)) : list (Z * Z * vec3 float) :=
  (λ p, (edge_of st p, shift_of E st cell_inv dense_pos p)) <$> qualifying E st.

(** The same, as the contribution of one visited pair. *)
Definition emit_if (E : externals) (st : lammps) (cell_inv : mat3)
    (dense_pos : list (vec3 float)) (p : Z * Z) : list (Z * Z * vec3 float) :=
  if within_cutoff st p then [(edge_of st p, shift_of E st cell_inv dense_pos p)] else [].

(** The state the loops of [compute] run in: the incoming state with the
    [uncertainties] array possibly reallocated and the timer possibly told
    to stop. *)
Definition prepared (st : lammps) (nedges : Z) : lammps :=
  if bool_decide (nedges = 0) then set_timer_timeout true (grow_uncertainties st)
  else grow_uncertainties st.


(** What the first loop guarantees about the atoms it has visited: their
    tags are dense node indices in range and, when no tag occurs twice, the
    three tag-ordered buffers hold at [tag - 1] the index, the mapped type
    and the single-precision position of the atom. *)
Definition tags_stored (st : lammps) (n nlocal : nat) (visited : list Z) (d : dense) : Prop :=
  length (tag2i d) = n ∧ length (tag2type d) = nlocal ∧ length (pos d) = nlocal ∧
  (∀ i, i ∈ visited → 0 ≤ i ∧ 1 ≤ tag_of st i ≤ Z.of_nat n ∧ tag_of st i ≤ Z.of_nat nlocal) ∧
  (NoDup (tag_of st <$> visited) → ∀ i, i ∈ visited →
     tag2i d !! Z.to_nat (tag_of st i - 1) = Some i ∧
     pos d !! Z.to_nat (tag_of st i - 1) = Some (vmap d2f (x_of st i))).


(** What the last loop has written for the dense node [k]: the force, the
    uncertainty and, when requested, the energy of the node were assigned
    to the host atom [tag2i[k]]. *)
Definition node_scattered (eflag_atom : Z) (tag2i : list Z)
    (forces atomic_energies uncertainties_itag : tensor) (h : host_arrays) (k : Z) : Prop :=
  ∃ i f0 f1 f2 u,
    zget "tag2i" tag2i k = Ok i ∧ 0 ≤ i ∧
    acc2 forces k 0 = Ok f0 ∧ acc2 forces k 1 = Ok f1 ∧ acc2 forces k 2 = Ok f2 ∧
    acc2 uncertainties_itag k 0 = Ok u ∧
    h_f h !! Z.to_nat i = Some (V3 (f2d f0) (f2d f1) (f2d f2)) ∧
    h_uncertainties h !! Z.to_nat i = Some (Some (f2d u)) ∧
    (eflag_atom ≠ 0 →
       ∃ e, acc2 atomic_energies k 0 = Ok e ∧ h_eatom h !! Z.to_nat i = Some (f2d e)).

(** ** Stand-ins for the collaborators, and two small configurations

    The statements below hold for every [externals].  To run the embedding
    on concrete configurations the collaborators are given plain binary32
    implementations here: the matrix-vector product by rows, the inverse of
    a lower-triangular cell by back-substitution (it throws on a zero
    diagonal product), the flags of
    [Pair::ev_init] with the host's [ENERGY_ATOM = 2] and
    [VIRIAL_ATOM = 4], and a model that answers with recognisable values. *)

Definition fdot (a b : vec3 float) : float :=
  fadd (fadd (fmul (c0 a) (c0 b)) (fmul (c1 a) (c1 b))) (fmul (c2 a) (c2 b)).

Definition ref_matmul (m : mat3) (v : vec3 float) : vec3 float :=
  V3 (fdot (c0 m) v) (fdot (c1 m) v) (fdot (c2 m) v).

Definition ref_inverse (m : mat3) : option mat3 :=
  let a := c0 (c0 m) in
  let b := c0 (c1 m) in let c := c1 (c1 m) in
  let d := c0 (c2 m) in let e := c1 (c2 m) in let f := c2 (c2 m) in
  if SFeqb (bits32 (fmul (fmul a c) f)) (S754_zero false) then
    None
  else
    let one := f_of_Z 1 in
    let ia := fdiv one a in let ic := fdiv one c in let jf := fdiv one f in
    let nb := fmul (fsub fzero b) (fmul ia ic) in
    let ne := fmul (fsub fzero e) (fmul ic jf) in
    let nd := fmul (fsub (fmul b e) (fmul c d)) (fmul (fmul ia ic) jf) in
    Some (V3 (V3 ia fzero fzero) (V3 nb ic fzero) (V3 nd ne jf)).

Definition ref_ev_init (eflag vflag : Z) (st : lammps) : Pair :=
  {| eng_vdwl := dzero; virial := replicate 6 dzero;
     eatom := eatom (pair_base (pair st));
     eflag_atom := Z.land eflag 2; vflag_atom := Z.land vflag 4 |}.

Definition flat3 (l : list (vec3 float)) : list float :=
  v ← l; [c0 v; c1 v; c2 v].

(** The answer of the stand-in model: the force on a node is its position,
    its energy is [10 + type], its uncertainty [20 + type]; the virial has
    nine distinct entries [11 .. 33]. *)
Definition ref_output (g : graph_input) : gmap string tensor :=
  let n := Z.of_nat (length (in_pos g)) in
  <["forces" := Tensor [n; 3] (flat3 (in_pos g))]>
  (<["total_energy" := Tensor [1] [f_of_Z 7]]>
  (<["atomic_energy" := Tensor [n; 1] ((λ t, f_of_Z (t + 10)) <$> in_atom_types g)]>
  (<["uncertainties" := Tensor [n; 1] ((λ t, f_of_Z (t + 20)) <$> in_atom_types g)]>
  (<["virial" := Tensor [1; 3; 3] (f_of_Z <$> [11; 12; 13; 21; 22; 23; 31; 32; 33])]> ∅)))).

Definition ref_forward (g : graph_input) : option (gmap string tensor) :=
  Some (ref_output g).

Definition ref_externals : externals :=
  {| NEIGHMASK := 536870911; ev_init := ref_ev_init; torch_inverse := ref_inverse;
     torch_matmul := ref_matmul; model_forward := ref_forward |}.

Definition dvec (a b c : Z) : vec3 double := V3 (d_of_Z a) (d_of_Z b) (d_of_Z c).

(** Box 10 x 10 x 10, cutoff 5.  Local atoms: index 0 with tag 2 at
    [(9,0,0)], index 1 with tag 1 at [(0,0,0)].  Ghosts: index 2, the image
    of tag 2 at [(-1,0,0)]; index 3, the image of tag 1 at [(10,0,0)].  The
    second neighbor entry of atom 0 is the ghost 3 with a special-bond bit
    set above the mask. *)
Definition two_atoms (newton : Z) : lammps :=
  {| atom := {| atom_x := [dvec 9 0 0; dvec 0 0 0; dvec (-1) 0 0; dvec 10 0 0];
                atom_f := replicate 4 (dvec 5 5 5);
                atom_tag := [2; 1; 2; 1]; atom_type := [1; 2; 1; 2];
                atom_nlocal := 2; atom_nmax := 4; atom_tag_enable := 1 |};
     neigh := {| list_inum := 2; list_gnum := 2; list_ilist := [0; 1];
                 list_numneigh := [2; 2; 0; 0];
                 list_firstneigh := [[1; 1073741827]; [0; 2]; []; []] |};
     domain := {| domain_boxlo := dvec 0 0 0; domain_boxhi := dvec 10 10 10;
                  domain_xy := dzero; domain_xz := dzero; domain_yz := dzero |};
     force_newton_pair := newton; neighbor_requests := []; timer_timeout := false;
     pair := {| pair_base := {| eng_vdwl := dzero; virial := replicate 6 dzero;
                                eatom := replicate 4 (d_of_Z 3);
                                eflag_atom := 0; vflag_atom := 0 |};
                cutoff := d_of_Z 5; uncertainties := []; nmax := 0;
                type_mapper := [0; 1; 0] |} |}.

(** The same two atoms with a neighbor list that holds only the far
    neighbor (distance 9) of each: no pair is inside the cutoff. *)
Definition two_far_atoms : lammps :=
  {| atom := atom (two_atoms 0);
     neigh := {| list_inum := 2; list_gnum := 2; list_ilist := [0; 1];
                 list_numneigh := [1; 1; 0; 0];
                 list_firstneigh := [[1]; [0]; []; []] |};
     domain := domain (two_atoms 0);
     force_newton_pair := 0; neighbor_requests := []; timer_timeout := false;
     pair := pair (two_atoms 0) |}.

(** Two local atoms one unit apart at [x = 2^128], a coordinate that is a
    finite [double] above the largest finite [float]; each is the only
    neighbor of the other. *)
Definition two_distant_atoms : lammps :=
  {| atom := {| atom_x := [V3 (d_lit 1 128) (d_of_Z 0) (d_of_Z 0);
                           V3 (d_lit 1 128) (d_of_Z 1) (d_of_Z 0)];
                atom_f := replicate 2 (dvec 0 0 0);
                atom_tag := [1; 2]; atom_type := [1; 1];
                atom_nlocal := 2; atom_nmax := 2; atom_tag_enable := 1 |};
     neigh := {| list_inum := 2; list_gnum := 0; list_ilist := [0; 1];
                 list_numneigh := [1; 1];
                 list_firstneigh := [[1]; [0]] |};
     domain := domain (two_atoms 0);
     force_newton_pair := 0; neighbor_requests := []; timer_timeout := false;
     pair := pair (two_atoms 0) |}.

(** A model whose answer has no ["uncertainties"] entry. *)
Definition forward_without_uncertainties (g : graph_input) : option (gmap string tensor) :=
  Some (delete "uncertainties" (ref_output g)).

(** The two atoms in a box whose x bounds are swapped: [boxlo[0] = 0],
    [boxhi[0] = -10]. *)
Definition inverted_box : lammps :=
  {| atom := atom (two_atoms 0); neigh := neigh (two_atoms 0);
     domain := {| domain_boxlo := dvec 0 0 0; domain_boxhi := dvec (-10) 10 10;
                  domain_xy := dzero; domain_xz := dzero; domain_yz := dzero |};
     force_newton_pair := 0; neighbor_requests := []; timer_timeout := false;
     pair := pair (two_atoms 0) |}.

(** The same two atoms with empty neighbor lists. *)
Definition two_lonely_atoms : lammps :=
  {| atom := atom (two_atoms 0);
     neigh := {| list_inum := 2; list_gnum := 2; list_ilist := [0; 1];
                 list_numneigh := [0; 0; 0; 0];
                 list_firstneigh := [[]; []; []; []] |};
     domain := domain (two_atoms 0);
     force_newton_pair := 0; neighbor_requests := []; timer_timeout := false;
     pair := pair (two_atoms 0) |}.

(** ** Further notions used by the properties of the whole plugin *)

(** The model type of the host atom [i]: [type_mapper[type[i]]]. *)
Definition mapped_type_of (st : lammps) (i : Z) : Z :=
  at_ 0 (type_mapper (pair st)) (at_ 0 (atom_type (atom st)) i).

(** What the first loop guarantees about [tag2type]. *)
Definition types_stored (st : lammps) (visited : list Z) (d : dense) : Prop :=
  NoDup (tag_of st <$> visited) → ∀ i, i ∈ visited →
    tag2type d !! Z.to_nat (tag_of st i - 1) = Some (mapped_type_of st i).

(** Two answers of the model that differ at most in their ["virial"]
    entry (or two calls that both throw). *)
Definition same_but_virial (o o' : option (gmap string tensor)) : Prop :=
  match o, o' with
  | Some a, Some b => ∀ k, k ≠ "virial" → a !! k = b !! k
  | None, None => True
  | _, _ => False
  end.

(** A model that never answers with a ["virial"] entry. *)
Definition forward_without_virial (g : graph_input) : option (gmap string tensor) :=
  Some (delete "virial" (ref_output g)).

(** ** The host invariants under which [compute] stays inside its arrays *)

(** [i] indexes the per-atom arrays [tag], [type] and [x]. *)
Definition atom_ok (st : lammps) (i : Z) : Prop :=
  0 ≤ i < Z.of_nat (length (atom_tag (atom st))) ∧
  i < Z.of_nat (length (atom_type (atom st))) ∧
  i < Z.of_nat (length (atom_x (atom st))).

(** A neighbor is an atom whose tag is the tag of a local atom. *)
Definition neighbor_ok (st : lammps) (j : Z) : Prop :=
  atom_ok st j ∧ 1 ≤ tag_of st j ≤ atom_nlocal (atom st).

(** A local atom: its tag is in [1, N], its type is known to the type
    mapper, it is one of the [inum + gnum] atoms of the list, and its
    neighbor list holds [numneigh] neighbors. *)
Definition local_ok (E : externals) (st : lammps) (i : Z) : Prop :=
  neighbor_ok st i ∧
  0 ≤ at_ 0 (atom_type (atom st)) i < Z.of_nat (length (type_mapper (pair st))) ∧
  i < list_inum (neigh st) + list_gnum (neigh st) ∧
  i < Z.of_nat (length (list_firstneigh (neigh st))) ∧
  at_ 0 (list_numneigh (neigh st)) i
    ≤ Z.of_nat (length (at_ [] (list_firstneigh (neigh st)) i)) ∧
  Forall (neighbor_ok st) (neighbors_of E st i).

Definition host_ok (E : externals) (st : lammps) : Prop :=
  force_newton_pair st ≠ 1 ∧
  list_inum (neigh st) = atom_nlocal (atom st) ∧
  0 ≤ atom_nlocal (atom st) ≤ Z.of_nat (length (list_ilist (neigh st))) ∧
  0 ≤ list_gnum (neigh st) ∧
  list_inum (neigh st) + list_gnum (neigh st)
    ≤ Z.of_nat (length (list_numneigh (neigh st))) ∧
  Forall (λ n, 0 ≤ n)
    (take (Z.to_nat (list_inum (neigh st) + list_gnum (neigh st)))
          (list_numneigh (neigh st))) ∧
  NoDup (tag_of st <$> local_atoms st) ∧
  Forall (local_ok E st) (local_atoms st).

#[global] Instance atom_ok_dec st i : Decision (atom_ok st i).
Proof. unfold atom_ok. apply _. Defined.
#[global] Instance neighbor_ok_dec st j : Decision (neighbor_ok st j).
Proof. unfold neighbor_ok. apply _. Defined.
#[global] Instance local_ok_dec E st i : Decision (local_ok E st i).
Proof. unfold local_ok. apply _. Defined.
#[global] Instance host_ok_dec E st : Decision (host_ok E st).
Proof. unfold host_ok. apply _. Defined.

(** The sum of a list of integers. *)
Definition zsum (l : list Z) : Z := foldr Z.add 0 l.

(** The edge buffers were allocated for [nedges] edges. *)
Definition fits (nedges : Z) (b : edge_buffers) : Prop :=
  length (edges b) = Z.to_nat (2 * nedges) ∧
  length (edge_cell_shifts b) = Z.to_nat (3 * nedges) ∧
  0 ≤ edge_counter b.

(** The number of neighbors the list declares for atom [i]. *)
Definition numneigh_of (st : lammps) (i : Z) : Z := at_ 0 (list_numneigh (neigh st)) i.

(** A contiguous tensor of the given shape. *)
Definition shaped (shape : list Z) (t : tensor) : Prop :=
  sizes t = shape ∧ Z.of_nat (length (data t)) = foldr Z.mul 1 shape.

(** The answer [compute] reads for [N] atoms: three forces, one energy and
    one uncertainty per node, a total energy and, when the virial is
    requested, one 3x3 virial. *)
Definition response_ok (N vflag : Z) (output : gmap string tensor) : Prop :=
  (∃ t, output !! "forces" = Some t ∧ shaped [N; 3] t) ∧
  (∃ t, output !! "total_energy" = Some t ∧ data t ≠ []) ∧
  (∃ t, output !! "atomic_energy" = Some t ∧ shaped [N; 1] t) ∧
  (∃ t, output !! "uncertainties" = Some t ∧ shaped [N; 1] t) ∧
  (vflag ≠ 0 → ∃ t, output !! "virial" = Some t ∧ shaped [1; 3; 3] t).

(** The arrays [compute] writes, as the host and the class allocate them:
    the local atoms are among the [atom->nmax] atoms the per-atom arrays
    have room for, [uncertainties] has the [nmax] cells of its last
    allocation, [virial] has six, and [b], the members [ev_init] has set,
    does not ask for the per-atom virial. *)
Definition arrays_ok (b : Pair) (st : lammps) : Prop :=
  Forall (λ i, i < atom_nmax (atom st)) (local_atoms st) ∧
  atom_nmax (atom st) ≤ Z.of_nat (length (atom_f (atom st))) ∧
  length (uncertainties (pair st)) = Z.to_nat (nmax (pair st)) ∧
  vflag_atom b = 0 ∧
  (eflag_atom b ≠ 0 → atom_nmax (atom st) ≤ Z.of_nat (length (eatom b))) ∧
  6 ≤ Z.of_nat (length (virial b)).

#[global] Instance arrays_ok_dec b st : Decision (arrays_ok b st).
Proof. unfold arrays_ok. apply _. Defined.

(** * Properties *)

#[local] Set Warnings "-clear-no-such-hyp".

(** ** The outcome monad and the loops *)

Lemma bind_Ok {A B} (m : outcome A) (k : A → outcome B) (b : B) :
  (m ≫= k) = Ok b ↔ ∃ a, m = Ok a ∧ k a = Ok b.
Proof.
  destruct m as [a|e]; simpl; split.
  - intros H. by exists a.
  - by intros (a' & [= <-] & H).
  - intros H. discriminate H.
  - by intros (a' & [=] & _).
Qed.

Lemma guard_Ok {A} (P : Prop) `{Decision P} (e : error) (m : outcome A) (a : A) :
  (if bool_decide P then Err e else m) = Ok a ↔ ¬ P ∧ m = Ok a.
Proof. case_bool_decide; naive_solver. Qed.

Lemma check_Ok (P : Prop) `{Decision P} (e : error) (u : unit) :
  (if bool_decide P then Ok () else Err e) = Ok u ↔ P.
Proof. destruct u. case_bool_decide; naive_solver. Qed.

(** Inversion of a successful run, one bind at a time. *)
Ltac inv_ok :=
  repeat match goal with
  | H : Ok _ = Ok _ |- _ => injection H as H; try subst
  | H : Err _ = Ok _ |- _ => discriminate H
  | H : (_ ≫= _) = Ok _ |- _ => apply bind_Ok in H as (? & ? & H)
  | H : (if bool_decide _ then Err _ else _) = Ok _ |- _ => apply guard_Ok in H as [? H]
  | H : (if bool_decide _ then Ok () else Err _) = Ok _ |- _ => apply check_Ok in H
  end.

Lemma zget_Ok {A} w (l : list A) i a :
  zget w l i = Ok a ↔ 0 ≤ i ∧ l !! Z.to_nat i = Some a.
Proof.
  unfold zget. case_bool_decide; [|naive_solver].
  destruct (l !! Z.to_nat i); naive_solver.
Qed.

Lemma zget_Ok_nat {A} w (l : list A) (k : nat) a :
  zget w l (Z.of_nat k) = Ok a ↔ l !! k = Some a.
Proof. rewrite zget_Ok, Nat2Z.id. naive_solver lia. Qed.

Lemma zset_Ok {A} w (l : list A) i a l' :
  zset w l i a = Ok l' ↔ (0 ≤ i < Z.of_nat (length l)) ∧ l' = <[Z.to_nat i := a]> l.
Proof. unfold zset. case_bool_decide; naive_solver. Qed.

Lemma zget_init_Ok {A} w (l : list (option A)) i a :
  zget_init w l i = Ok a ↔ 0 ≤ i ∧ l !! Z.to_nat i = Some (Some a).
Proof.
  unfold zget_init. rewrite bind_Ok. setoid_rewrite zget_Ok. split.
  - intros ([c|] & [? ?] & Hc); naive_solver.
  - intros [? ?]. exists (Some a). naive_solver.
Qed.

Lemma at_zget {A} (d : A) w l i a : zget w l i = Ok a → at_ d l i = a.
Proof.
  intros H%zget_Ok. unfold at_.
  destruct (zget "" l i) as [a'|e] eqn:H'.
  - apply zget_Ok in H'. naive_solver.
  - unfold zget in H'. case_bool_decide; [|lia].
    destruct H as [_ H]. rewrite H in H'. discriminate H'.
Qed.

Lemma foldM_app {A S} (body : A → S → outcome S) l1 l2 s :
  foldM body (l1 ++ l2) s = (foldM body l1 s ≫= foldM body l2).
Proof.
  revert s. induction l1 as [|a l1 IH]; intros s; simpl; [done|].
  destruct (body a s) as [s1|e]; simpl; [apply IH|done].
Qed.

Lemma foldM_snoc_Ok {A S} (body : A → S → outcome S) l a s s' :
  foldM body (l ++ [a]) s = Ok s' ↔ ∃ t, foldM body l s = Ok t ∧ body a t = Ok s'.
Proof.
  rewrite foldM_app, bind_Ok. simpl. split; intros (t & ? & H); exists t; split; try done.
  - destruct (body a t); simpl in *; congruence.
  - destruct (body a t); simpl in *; congruence.
Qed.

(** A loop invariant indexed by the elements already processed. *)
Lemma foldM_invariant {A S} (P : list A → S → Prop) (body : A → S → outcome S) l s s' :
  P [] s →
  (∀ done_ a t t', P done_ t → body a t = Ok t' → P (done_ ++ [a]) t') →
  foldM body l s = Ok s' → P l s'.
Proof.
  intros H0 Hstep. revert s'. induction l as [|a l IH] using rev_ind; intros s'.
  - simpl. by intros [= <-].
  - intros (t & Ht & Ha)%foldM_snoc_Ok. eapply Hstep; eauto.
Qed.

(** An index loop whose body starts by reading [l[k]] runs its remainder
    over the first [n] elements of [l]. *)
Lemma for_zget {A S} w (l : list A) (body : A → S → outcome S) n s s' :
  for_ n (λ k t, a ← zget w l k; body a t) s = Ok s' →
  foldM body (take (Z.to_nat n) l) s = Ok s'.
Proof.
  unfold for_. destruct (Z.le_gt_cases n 0) as [Hn|Hn].
  { rewrite seqZ_nil by done. replace (Z.to_nat n) with 0%nat by lia. done. }
  rewrite <-(Z2Nat.id n) at 1 by lia.
  generalize (Z.to_nat n) as N. clear Hn. intros N. revert s'.
  induction N as [|N IH]; intros s'.
  - done.
  - rewrite seqZ_S. intros (t & Ht & Hb)%foldM_snoc_Ok.
    apply bind_Ok in Hb as (a & Ha & Hb). rewrite Z.add_0_l in Ha.
    apply zget_Ok_nat in Ha. erewrite take_S_r by done.
    apply foldM_snoc_Ok. eauto.
Qed.

(** A loop invariant indexed by the loop counter. *)
Lemma for_invariant {S} (P : Z → S → Prop) (body : Z → S → outcome S) n s s' :
  P 0 s →
  (∀ k t t', 0 ≤ k < n → P k t → body k t = Ok t' → P (k + 1) t') →
  for_ n body s = Ok s' → P (Z.max 0 n) s'.
Proof.
  intros H0 Hstep. unfold for_. destruct (Z.le_gt_cases n 0) as [Hn|Hn].
  { rewrite seqZ_nil by done. intros [= <-]. by rewrite Z.max_l by lia. }
  rewrite Z.max_r by lia. revert Hstep. rewrite <-(Z2Nat.id n) by lia.
  generalize (Z.to_nat n) as N. clear Hn. intros N Hstep. revert s'.
  induction N as [|N IH]; intros s'.
  - by intros [= <-].
  - rewrite seqZ_S. intros (t & Ht & Hb)%foldM_snoc_Ok.
    rewrite Z.add_0_l in Hb. rewrite Nat2Z.inj_succ.
    eapply Hstep; [lia| |done]. apply IH; [|done].
    intros k u u' Hk. apply Hstep. lia.
Qed.

(** A loop whose body succeeds under an invariant succeeds. *)
Lemma for_total {S} (P : Z → S → Prop) (body : Z → S → outcome S) n s :
  P 0 s →
  (∀ k t, 0 ≤ k < n → P k t → ∃ t', body k t = Ok t' ∧ P (k + 1) t') →
  ∃ s', for_ n body s = Ok s'.
Proof.
  intros H0 Hstep. unfold for_. destruct (Z.le_gt_cases n 0) as [Hn|Hn].
  { rewrite seqZ_nil by done. by exists s. }
  revert Hstep. rewrite <-(Z2Nat.id n) by lia.
  generalize (Z.to_nat n) as N. clear Hn. intros N Hstep.
  cut (∃ s', foldM body (seqZ 0 (Z.of_nat N)) s = Ok s' ∧ P (Z.of_nat N) s').
  { intros (s' & ? & _). by exists s'. }
  induction N as [|N IH].
  - by exists s.
  - destruct IH as (t & Ht & HP). { intros k u Hk. apply Hstep. lia. }
    destruct (Hstep (Z.of_nat N) t) as (t' & Hb & HP'); [lia|done|].
    exists t'. rewrite seqZ_S, Nat2Z.inj_succ. split; [|done].
    apply foldM_snoc_Ok. exists t. by rewrite Z.add_0_l.
Qed.

(** An index loop that reads [l[k]] at every step stays inside [l]. *)
Lemma for_zget_length {A S} w (l : list A) (body : A → S → outcome S) n s s' :
  for_ n (λ k t, a ← zget w l k; body a t) s = Ok s' →
  Z.max 0 n ≤ Z.of_nat (length l).
Proof.
  intros H. apply (for_invariant (λ k _, k ≤ Z.of_nat (length l))) in H; [done|lia|].
  intros k t t' Hk _ (a & Ha & _)%bind_Ok.
  apply zget_Ok in Ha as [_ Ha%lookup_lt_Some]. lia.
Qed.

Lemma check_neg_Ok (P : Prop) `{Decision P} (e : error) (u : unit) :
  (if bool_decide P then Err e else Ok ()) = Ok u ↔ ¬ P.
Proof. destruct u. case_bool_decide; naive_solver. Qed.

Lemma thrown_Ok {A} w (r : option A) a : thrown w r = Ok a ↔ r = Some a.
Proof. destruct r; naive_solver. Qed.

(** ** Rounding to the nearest integer in binary32 *)

Lemma digits2_pos_size p : digits2_pos p = Pos.size p.
Proof. induction p; simpl; congruence. Qed.

Lemma digits2_pos_bound p k :
  Z.pos p < 2 ^ k → 0 ≤ k → Z.pos (digits2_pos p) ≤ k.
Proof.
  intros Hp Hk. rewrite digits2_pos_size.
  destruct (Z.le_gt_cases (Z.pos (Pos.size p)) k) as [|Hgt]; [done|exfalso].
  pose proof (Pos.size_le p) as Hle.
  assert (2 ^ (k + 1) ≤ 2 ^ Z.pos (Pos.size p)) as H1
    by (apply Z.pow_le_mono_r; lia).
  rewrite Z.pow_add_r in H1 by lia.
  assert (Z.pos (2 ^ Pos.size p) = 2 ^ Z.pos (Pos.size p)) as H2
    by apply Pos2Z.inj_pow.
  assert (Z.pos (2 ^ Pos.size p) ≤ Z.pos p~0) as H3 by exact Hle.
  rewrite H2 in H3. lia.
Qed.

Lemma digits2_pos_lt p : Z.pos p < 2 ^ Z.pos (digits2_pos p).
Proof.
  rewrite digits2_pos_size. pose proof (Pos.size_gt p) as H.
  assert (Z.pos p < Z.pos (2 ^ Pos.size p)) as H1 by exact H.
  by rewrite Pos2Z.inj_pow in H1.
Qed.

Lemma iter_xO_digits n d :
  digits2_pos (Pos.iter xO n d) = (digits2_pos n + d)%positive.
Proof.
  induction d as [|d IH] using Pos.peano_ind.
  - simpl. lia.
  - rewrite Pos.iter_succ. simpl. rewrite IH. lia.
Qed.

Lemma iter_xO_value n d : Z.pos (Pos.iter xO n d) = Z.pos n * 2 ^ Z.pos d.
Proof.
  induction d as [|d IH] using Pos.peano_ind.
  - simpl. lia.
  - rewrite Pos.iter_succ, Pos2Z.inj_xO, IH, Pos2Z.inj_succ, Z.pow_succ_r by lia. lia.
Qed.

(** A 24-digit mantissa with an exponent in range is already rounded. *)
Lemma binary_round_aux_exact sx mz ez :
  Z.pos (digits2_pos mz) = 24 → -149 ≤ ez ≤ 104 →
  binary_round_aux 24 128 sx (Z.pos mz) ez loc_Exact = S754_finite sx mz ez.
Proof.
  intros Hd He. unfold binary_round_aux, shr_fexp. simpl Zdigits2. rewrite Hd.
  assert (fexp 24 128 (24 + ez) - ez = 0) as ->
    by (unfold fexp, emin; lia).
  simpl. rewrite Hd.
  assert (fexp 24 128 (24 + ez) - ez = 0) as ->
    by (unfold fexp, emin; lia).
  simpl. by rewrite (proj2 (Z.leb_le ez (128 - 24))) by lia.
Qed.

(** The binary32 number of a non-zero integer of at most 24 digits has an
    integer value. *)
Lemma binary_round_integer sx n :
  Z.pos (digits2_pos n) ≤ 24 →
  SFis_integer (binary_round 24 128 sx n 0) = true.
Proof.
  intros Hd. unfold binary_round, shl_align.
  assert (fexp 24 128 (Z.pos (digits2_pos n) + 0) = Z.pos (digits2_pos n) - 24) as ->
    by (unfold fexp, emin; lia).
  destruct (Z.pos (digits2_pos n) - 24 - 0) as [|d|d] eqn:Hsub; [|lia|].
  - rewrite binary_round_aux_exact by lia. done.
  - assert (Z.pos (digits2_pos n) - 24 = Z.neg d) as -> by lia.
    rewrite binary_round_aux_exact.
    + simpl. rewrite iter_xO_value, Z.land_ones by lia.
      rewrite Z.mod_mul by lia. done.
    + rewrite iter_xO_digits. lia.
    + lia.
Qed.

Lemma bounded_digits m e : bounded 24 128 m e = true → Z.pos (digits2_pos m) ≤ 24.
Proof.
  unfold bounded, canonical_mantissa, fexp, emin.
  intros [H _]%andb_prop. apply Z.eqb_eq in H. lia.
Qed.

(** [std::round] of a finite binary32 number has an integer value. *)
Lemma SFround_integer v :
  SFis_finite 24 128 v = true → SFis_integer (SFround 24 128 v) = true.
Proof.
  destruct v as [s|s| |s m [|p|p]]; simpl; try done.
  intros Hb%bounded_digits.
  assert (0 ≤ Z.shiftr (Z.pos m) (Z.pos p) < 2 ^ 23) as Hq.
  { rewrite Z.shiftr_div_pow2 by lia. pose proof (digits2_pos_lt m) as Hm.
    assert (2 ^ Z.pos (digits2_pos m) ≤ 2 ^ 24) by (apply Z.pow_le_mono_r; lia).
    assert (2 ≤ 2 ^ Z.pos p) by (apply (Z.pow_le_mono_r 2 1); lia).
    split; [apply Z.div_pos; lia|].
    apply Z.div_lt_upper_bound; [lia|].
    change (2 ^ 23) with 8388608. change (2 ^ 24) with 16777216 in *. nia. }
  set (n := if Z.testbit _ _ then _ else _).
  assert (0 ≤ n ≤ 2 ^ 23) as Hn by (unfold n; destruct (Z.testbit _ _); lia).
  destruct n as [|n|n]; [by destruct s| |lia].
  assert (Z.pos (digits2_pos n) ≤ 24) as Hd
    by (apply digits2_pos_bound; [change (2 ^ 24) with (2 * 2 ^ 23)|]; lia).
  destruct s; simpl; by apply binary_round_integer.
Qed.

Lemma fround_integer (a : float) :
  f_is_finite a = true → f_is_integer (fround a) = true.
Proof. destruct a as [v]. apply SFround_integer. Qed.

(** ** The edge loop stores the qualifying pairs *)

Lemma holds_nil n m :
  holds {| edge_counter := 0; edges := replicate n None;
           edge_cell_shifts := replicate m None |} [].
Proof. split; [done|]. intros k e s H. by rewrite lookup_nil in H. Qed.

Lemma push_edge_holds itag jtag cs b b' L :
  holds b L → push_edge itag jtag cs b = Ok b' →
  holds b' (L ++ [((itag - 1, jtag - 1), vmap fround cs)]).
Proof.
  intros [Hec HL]. unfold push_edge. intros H. inv_ok.
  repeat match goal with H : zset _ _ _ _ = Ok _ |- _ => apply zset_Ok in H as [? ->] end.
  rewrite Hec in *. rewrite !length_insert in *.
  replace (Z.to_nat (Z.of_nat (length L) * 3)) with (3 * length L)%nat in * by lia.
  replace (Z.to_nat (Z.of_nat (length L) * 3 + 1)) with (3 * length L + 1)%nat in * by lia.
  replace (Z.to_nat (Z.of_nat (length L) * 3 + 2)) with (3 * length L + 2)%nat in * by lia.
  replace (Z.to_nat (Z.of_nat (length L) * 2)) with (2 * length L)%nat in * by lia.
  replace (Z.to_nat (Z.of_nat (length L) * 2 + 1)) with (2 * length L + 1)%nat in * by lia.
  split; simpl.
  - rewrite length_app. simpl. lia.
  - intros k e s Hk. destruct (decide (k < length L)%nat) as [Hlt|Hge].
    + rewrite lookup_app_l in Hk by done. apply HL in Hk as (? & ? & ? & ? & ?).
      rewrite !list_lookup_insert_ne by lia. done.
    + rewrite lookup_app_r in Hk by lia.
      destruct (k - length L)%nat as [|?] eqn:Hd; [|discriminate Hk].
      simpl in Hk. injection Hk as <- <-. assert (k = length L) as -> by lia. simpl.
      repeat split.
      * rewrite list_lookup_insert_ne by lia. apply list_lookup_insert_eq. lia.
      * apply list_lookup_insert_eq. rewrite length_insert. lia.
      * rewrite !list_lookup_insert_ne by lia. apply list_lookup_insert_eq. lia.
      * rewrite list_lookup_insert_ne by lia. apply list_lookup_insert_eq.
        rewrite length_insert. lia.
      * apply list_lookup_insert_eq. rewrite !length_insert. lia.
Qed.

Lemma visit_neighbor_holds E st d cell_inv i itag jentry b b' L :
  holds b L → zget "tag" (atom_tag (atom st)) i = Ok itag →
  visit_neighbor E st d cell_inv i itag jentry b = Ok b' →
  holds b' (L ++ emit_if E st cell_inv (pos d) (i, Z.land jentry (NEIGHMASK E))).
Proof.
  intros HL Hi. unfold visit_neighbor. intros H. inv_ok.
  unfold emit_if, within_cutoff, edge_of, shift_of, fractional_of, displacement_of,
    x_of, tag_of. simpl.
  repeat match goal with
         | H : zget _ _ _ = Ok _ |- _ => rewrite (at_zget _ _ _ _ _ H); clear H
         end.
  destruct (dltb _ _).
  - eapply push_edge_holds; eauto.
  - injection H as <-. by rewrite app_nil_r.
Qed.

Lemma visit_atom_holds E st d cell_inv i b b' L :
  holds b L → visit_atom E st d cell_inv i b = Ok b' →
  holds b' (L ++ (neighbors_of E st i ≫= λ j, emit_if E st cell_inv (pos d) (i, j))).
Proof.
  intros HL. unfold visit_atom. intros H. inv_ok.
  apply for_zget in H. unfold neighbors_of.
  repeat match goal with
         | H : zget _ (list_numneigh _) _ = Ok _ |- _ => rewrite (at_zget _ _ _ _ _ H)
         | H : zget _ (list_firstneigh _) _ = Ok _ |- _ => rewrite (at_zget _ _ _ _ _ H)
         end.
  rewrite list_fmap_bind.
  revert H. apply (foldM_invariant
    (λ done_ b, holds b (L ++ (done_ ≫= (λ j, emit_if E st cell_inv (pos d) (i, j))
                                       ∘ (λ jentry, Z.land jentry (NEIGHMASK E)))))).
  - by rewrite app_nil_r.
  - intros done_ a t t' Ht Hb. rewrite bind_app, bind_singleton, app_assoc. simpl.
    eapply visit_neighbor_holds; eauto.
Qed.

Lemma emitted_bind E st cell_inv dense_pos :
  emitted E st cell_inv dense_pos =
  local_atoms st ≫= λ i, neighbors_of E st i ≫= λ j, emit_if E st cell_inv dense_pos (i, j).
Proof.
  unfold emitted, qualifying, neighbor_entries.
  induction (local_atoms st) as [|i l IH]; [done|].
  rewrite !bind_cons, filter_app, fmap_app, IH. f_equal.
  induction (neighbors_of E st i) as [|j l' IH']; [done|].
  rewrite !bind_cons, filter_app, fmap_app, IH'. f_equal.
  unfold emit_if. rewrite filter_cons. simpl.
  destruct (within_cutoff st (i, j)); case_decide; done.
Qed.

Lemma edge_loop_holds E st d cell_inv nedges b :
  edge_loop E st d cell_inv nedges = Ok b →
  holds b (emitted E st cell_inv (pos d)).
Proof.
  unfold edge_loop. intros H%for_zget. rewrite emitted_bind. fold (local_atoms st) in H.
  revert H. apply (foldM_invariant
    (λ done_ b, holds b (done_ ≫= λ i, neighbors_of E st i ≫=
                                  λ j, emit_if E st cell_inv (pos d) (i, j)))).
  - apply holds_nil.
  - intros done_ a t t' Ht Hb. rewrite bind_app, bind_singleton.
    eapply visit_atom_holds; eauto.
Qed.

Lemma vec3_eta {A} (v : vec3 A) : V3 (c0 v) (c1 v) (c2 v) = v.
Proof. by destruct v. Qed.

(** The compaction copies the stored edges out, in order. *)
Lemma shorten_holds b L row0 row1 shifts :
  holds b L → shorten b = Ok (row0, row1, shifts) →
  row0 = (λ t, t.1.1) <$> L ∧ row1 = (λ t, t.1.2) <$> L ∧ shifts = snd <$> L.
Proof.
  intros [Hec HL]. unfold shorten. rewrite Hec, Nat2Z.id. intros H.
  pose (P := λ (k : Z) (t : list Z * list Z * list (vec3 float)),
    length t.1.1 = length L ∧ length t.1.2 = length L ∧ length t.2 = length L ∧
    ∀ m : nat, Z.of_nat m < k →
      t.1.1 !! m = (λ t, t.1.1) <$> L !! m ∧
      t.1.2 !! m = (λ t, t.1.2) <$> L !! m ∧
      t.2 !! m = snd <$> L !! m).
  apply (for_invariant P) in H.
  - destruct H as (H0 & H1 & H2 & H). simpl in *.
    repeat split; apply list_eq; intros m; rewrite list_lookup_fmap;
      (destruct (decide (m < length L)%nat);
       [ apply H; lia
       | rewrite !(lookup_ge_None_2 _ m) by lia; done ]).
  - unfold P. simpl. rewrite !length_replicate. repeat split; lia.
  - clear H. intros k [[r0 r1] sh] t' Hk (H0 & H1 & H2 & Hm) Hb. cbn [fst snd] in *.
    unfold copy_edge in Hb. inv_ok.
    repeat match goal with
           | H : zset _ _ _ _ = Ok _ |- _ => apply zset_Ok in H as [? ->]
           | H : zget_init _ _ _ = Ok _ |- _ => apply zget_init_Ok in H as [_ H]
           end.
    destruct (lookup_lt_is_Some_2 L (Z.to_nat k)) as [[e s] Hks]; [lia|].
    destruct (HL _ _ _ Hks) as (He0 & He1 & Hs0 & Hs1 & Hs2).
    replace (Z.to_nat (k * 2)) with (2 * Z.to_nat k)%nat in * by lia.
    replace (Z.to_nat (k * 2 + 1)) with (2 * Z.to_nat k + 1)%nat in * by lia.
    replace (Z.to_nat (k * 3)) with (3 * Z.to_nat k)%nat in * by lia.
    replace (Z.to_nat (k * 3 + 1)) with (3 * Z.to_nat k + 1)%nat in * by lia.
    replace (Z.to_nat (k * 3 + 2)) with (3 * Z.to_nat k + 2)%nat in * by lia.
    simplify_eq. unfold P. cbn [fst snd]. rewrite !length_insert.
    split; [done|]. split; [done|]. split; [done|].
    intros m Hlt. destruct (decide (m = Z.to_nat k)) as [->|Hne].
    + rewrite !list_lookup_insert_eq by lia. rewrite Hks. simpl.
      by rewrite vec3_eta.
    + rewrite !list_lookup_insert_ne by done. apply Hm. lia.
Qed.

(** The compaction reads initialised cells only and stays inside its
    tensors. *)
Lemma shorten_total b L : holds b L → is_Ok (shorten b).
Proof.
  intros [Hec HL]. unfold shorten. rewrite Hec, Nat2Z.id.
  pose (P := λ (k : Z) (t : list Z * list Z * list (vec3 float)),
    length t.1.1 = length L ∧ length t.1.2 = length L ∧ length t.2 = length L).
  apply (for_total P).
  - unfold P. simpl. by rewrite !length_replicate.
  - intros k [[r0 r1] sh] Hk (H0 & H1 & H2). cbn [fst snd] in *.
    destruct (lookup_lt_is_Some_2 L (Z.to_nat k)) as [[e s] Hks]; [lia|].
    destruct (HL _ _ _ Hks) as (He0 & He1 & Hs0 & Hs1 & Hs2).
    eexists. unfold copy_edge.
    rewrite (proj2 (zget_init_Ok "edges" (edges b) (k * 2) e.1)); cycle 1.
    { split; [lia|]. by replace (Z.to_nat (k * 2)) with (2 * Z.to_nat k)%nat by lia. }
    rewrite (proj2 (zget_init_Ok "edges" (edges b) (k * 2 + 1) e.2)); cycle 1.
    { split; [lia|]. by replace (Z.to_nat (k * 2 + 1)) with (2 * Z.to_nat k + 1)%nat by lia. }
    simpl. unfold zset at 1. rewrite bool_decide_eq_true_2 by lia. simpl.
    unfold zset at 1. rewrite bool_decide_eq_true_2 by lia. simpl.
    rewrite (proj2 (zget_init_Ok _ (edge_cell_shifts b) (k * 3) (c0 s))); cycle 1.
    { split; [lia|]. by replace (Z.to_nat (k * 3)) with (3 * Z.to_nat k)%nat by lia. }
    rewrite (proj2 (zget_init_Ok _ (edge_cell_shifts b) (k * 3 + 1) (c1 s))); cycle 1.
    { split; [lia|]. by replace (Z.to_nat (k * 3 + 1)) with (3 * Z.to_nat k + 1)%nat by lia. }
    rewrite (proj2 (zget_init_Ok _ (edge_cell_shifts b) (k * 3 + 2) (c2 s))); cycle 1.
    { split; [lia|]. by replace (Z.to_nat (k * 3 + 2)) with (3 * Z.to_nat k + 2)%nat by lia. }
    simpl. unfold zset at 1. rewrite bool_decide_eq_true_2 by lia. simpl.
    split; [done|]. unfold P. cbn [fst snd]. by rewrite !length_insert.
Qed.

(** ** What [build_graph] leaves behind *)

Lemma prepared_atom st n : atom (prepared st n) = atom st.
Proof. unfold prepared, grow_uncertainties. by repeat case_bool_decide. Qed.

Lemma prepared_neigh st n : neigh (prepared st n) = neigh st.
Proof. unfold prepared, grow_uncertainties. by repeat case_bool_decide. Qed.

Lemma prepared_domain st n : domain (prepared st n) = domain st.
Proof. unfold prepared, grow_uncertainties. by repeat case_bool_decide. Qed.

Lemma prepared_cutoff st n : cutoff (pair (prepared st n)) = cutoff (pair st).
Proof. unfold prepared, grow_uncertainties. by repeat case_bool_decide. Qed.

Lemma prepared_base st n : pair_base (pair (prepared st n)) = pair_base (pair st).
Proof. unfold prepared, grow_uncertainties. by repeat case_bool_decide. Qed.

Lemma prepared_f st n : atom_f (atom (prepared st n)) = atom_f (atom st).
Proof. by rewrite prepared_atom. Qed.

Lemma prepared_newton st n : force_newton_pair (prepared st n) = force_newton_pair st.
Proof. unfold prepared, grow_uncertainties. by repeat case_bool_decide. Qed.

Lemma emitted_prepared E st n cell_inv dense_pos :
  emitted E (prepared st n) cell_inv dense_pos = emitted E st cell_inv dense_pos.
Proof.
  unfold emitted, qualifying, neighbor_entries, local_atoms, neighbors_of, within_cutoff,
    edge_of, shift_of, fractional_of, displacement_of, x_of, tag_of.
  by rewrite prepared_atom, prepared_neigh, prepared_cutoff.
Qed.

Lemma build_graph_Ok E st gb :
  build_graph E st = Ok gb →
  ∃ nedges inv,
    force_newton_pair st ≠ 1 ∧
    list_inum (neigh st) = atom_nlocal (atom st) ∧
    gb_state gb = prepared st nedges ∧
    store_tags (prepared st nedges) = Ok (gb_dense gb) ∧
    gb_cell gb = get_cell (domain st) ∧
    torch_inverse E (get_cell (domain st)) = Some inv ∧
    gb_cell_inv gb = transpose inv ∧
    edge_loop E (prepared st nedges) (gb_dense gb) (transpose inv) nedges
      = Ok (gb_buffers gb).
Proof.
  unfold build_graph. intros H.
  apply bind_Ok in H as ([] & Hn & H). apply guard_Ok in Hn as [Hn _].
  apply bind_Ok in H as ([] & Hi & H). apply check_Ok in Hi.
  apply bind_Ok in H as (nedges & Hacc & H).
  fold (prepared st nedges) in H. inv_ok. simpl.
  match goal with H : thrown _ _ = Ok _ |- _ => apply thrown_Ok in H end.
  exists nedges. eexists. unfold grow_uncertainties in Hn, Hi.
  rewrite prepared_domain in *.
  repeat split; try done.
  - intros ?. apply Hn. by case_bool_decide.
  - revert Hi. by case_bool_decide.
Qed.

(** ** Which errors the graph construction can end in *)

Lemma bind_Err {A B} (m : outcome A) (k : A → outcome B) e :
  (m ≫= k) = Err e → m = Err e ∨ ∃ a, m = Ok a ∧ k a = Err e.
Proof. destruct m as [a|e']; simpl; [right; by exists a|left; congruence]. Qed.

Lemma zget_Err {A} w (l : list A) i e : zget w l i = Err e → e = Undefined w.
Proof.
  unfold zget. case_bool_decide; [destruct (l !! Z.to_nat i)|]; congruence.
Qed.

Lemma zset_Err {A} w (l : list A) i a e : zset w l i a = Err e → e = Undefined w.
Proof. unfold zset. case_bool_decide; congruence. Qed.

Lemma foldM_Err {A S} (body : A → S → outcome S) l s e :
  foldM body l s = Err e → ∃ a t, body a t = Err e.
Proof.
  revert s. induction l as [|a l IH]; intros s; simpl; [done|].
  intros [H|(t & _ & H)]%bind_Err; [by exists a, s|by apply (IH t)].
Qed.

(** Case analysis of a failed run, one bind at a time; the failures of
    array accesses are recorded as equations [e = Undefined _]. *)
Ltac inv_err :=
  repeat match goal with
  | H : Ok _ = Err _ |- _ => discriminate H
  | H : (_ ≫= _) = Err _ |- _ => apply bind_Err in H as [H|(? & _ & H)]
  | H : zget _ _ _ = Err _ |- _ => apply zget_Err in H
  | H : zset _ _ _ _ = Err _ |- _ => apply zset_Err in H
  | H : (if ?c then _ else _) = Err _ |- _ => destruct c
  | H : for_ _ _ _ = Err _ |- _ => apply foldM_Err in H as (? & ? & H)
  end.

Lemma push_edge_Err itag jtag cs b e : push_edge itag jtag cs b = Err e → ∃ w, e = Undefined w.
Proof. unfold push_edge. intros H. inv_err; by eexists. Qed.

Lemma store_tags_Err st e : store_tags st = Err e → ∃ w, e = Undefined w.
Proof. unfold store_tags, store_tag. intros H. inv_err; by eexists. Qed.

Lemma edge_loop_Err E st d cell_inv nedges e :
  edge_loop E st d cell_inv nedges = Err e → ∃ w, e = Undefined w.
Proof.
  unfold edge_loop, visit_atom, visit_neighbor. intros H. inv_err;
    try (by eexists); by eapply push_edge_Err.
Qed.

(** The only [error->all] on the way to the edge buffers is the Newton
    one. *)
Lemma build_graph_ErrorAll E st msg :
  build_graph E st = Err (ErrorAll msg) →
  msg = "Pair style PHIN requires 'newton off'".
Proof.
  unfold build_graph, accumulate, thrown. intros H.
  repeat match goal with
  | H : (_ ≫= _) = Err _ |- _ => apply bind_Err in H as [H|(? & _ & H)]
  | H : (if ?c then _ else _) = Err _ |- _ => destruct c
  | H : match ?o with Some _ => _ | None => _ end = Err _ |- _ => destruct o
  | H : store_tags _ = Err _ |- _ => apply store_tags_Err in H as [? H]
  | H : edge_loop _ _ _ _ _ = Err _ |- _ => apply edge_loop_Err in H as [? H]
  end; congruence.
Qed.

(** ** The edge loop of [ComputeNEQUIP::compute_vector] *)

Lemma nequip_visit_neighbor_holds E st d cell_inv i itag jentry b b' L :
  holds b L → zget "tag" (atom_tag (atom st)) i = Ok itag →
  ComputeNEQUIP.visit_neighbor E st d cell_inv i itag jentry b = Ok b' →
  holds b' (L ++ emit_if E st cell_inv (pos d) (i, Z.land jentry (NEIGHMASK E))).
Proof.
  intros HL Hi. unfold ComputeNEQUIP.visit_neighbor. intros H. inv_ok.
  unfold emit_if, within_cutoff, edge_of, shift_of, fractional_of, displacement_of,
    x_of, tag_of. simpl.
  repeat match goal with
         | H : zget _ (atom_x _) _ = Ok _ |- _ => rewrite (at_zget _ _ _ _ _ H); clear H
         | H : zget _ (atom_tag _) _ = Ok _ |- _ => rewrite (at_zget _ _ _ _ _ H); clear H
         end.
  destruct (dltb _ _).
  - inv_ok.
    match goal with
    | H : zget _ (pos _) _ = Ok _ |- _ => rewrite (at_zget _ _ _ _ _ H); clear H
    end.
    eapply push_edge_holds; eauto.
  - injection H as <-. by rewrite app_nil_r.
Qed.

Lemma nequip_visit_atom_holds E st d cell_inv i b b' L :
  holds b L → ComputeNEQUIP.visit_atom E st d cell_inv i b = Ok b' →
  holds b' (L ++ (neighbors_of E st i ≫= λ j, emit_if E st cell_inv (pos d) (i, j))).
Proof.
  intros HL. unfold ComputeNEQUIP.visit_atom. intros H. inv_ok.
  apply for_zget in H. unfold neighbors_of.
  repeat match goal with
         | H : zget _ (list_numneigh _) _ = Ok _ |- _ => rewrite (at_zget _ _ _ _ _ H)
         | H : zget _ (list_firstneigh _) _ = Ok _ |- _ => rewrite (at_zget _ _ _ _ _ H)
         end.
  rewrite list_fmap_bind.
  revert H. apply (foldM_invariant
    (λ done_ b, holds b (L ++ (done_ ≫= (λ j, emit_if E st cell_inv (pos d) (i, j))
                                       ∘ (λ jentry, Z.land jentry (NEIGHMASK E)))))).
  - by rewrite app_nil_r.
  - intros done_ a t t' Ht Hb. rewrite bind_app, bind_singleton, app_assoc. simpl.
    eapply nequip_visit_neighbor_holds; eauto.
Qed.

Lemma nequip_edge_loop_holds E st d cell_inv nedges b :
  list_inum (neigh st) = atom_nlocal (atom st) →
  ComputeNEQUIP.edge_loop E st d cell_inv nedges = Ok b →
  holds b (emitted E st cell_inv (pos d)).
Proof.
  unfold ComputeNEQUIP.edge_loop. intros Hn H%for_zget. rewrite emitted_bind.
  rewrite Hn in H. fold (local_atoms st) in H.
  revert H. apply (foldM_invariant
    (λ done_ b, holds b (done_ ≫= λ i, neighbors_of E st i ≫=
                                  λ j, emit_if E st cell_inv (pos d) (i, j)))).
  - apply holds_nil.
  - intros done_ a t t' Ht Hb. rewrite bind_app, bind_singleton.
    eapply nequip_visit_atom_holds; eauto.
Qed.

(** ** The input handed to the model *)

Lemma emitted_edges E st cell_inv dense_pos :
  (λ t : Z * Z * vec3 float, t.1.1) <$> emitted E st cell_inv dense_pos
    = fst <$> (edge_of st <$> qualifying E st) ∧
  (λ t : Z * Z * vec3 float, t.1.2) <$> emitted E st cell_inv dense_pos
    = snd <$> (edge_of st <$> qualifying E st) ∧
  snd <$> emitted E st cell_inv dense_pos
    = shift_of E st cell_inv dense_pos <$> qualifying E st.
Proof. unfold emitted. by rewrite <-!list_fmap_compose. Qed.

Lemma assemble_Ok gb g :
  assemble gb = Ok g →
  edge_counter (gb_buffers gb) ≠ 0 ∧
  ∃ row0 row1 shifts, shorten (gb_buffers gb) = Ok (row0, row1, shifts) ∧
    g = {| in_pos := pos (gb_dense gb); in_edge_index := (row0, row1);
           in_edge_cell_shift := shifts; in_cell := gb_cell gb;
           in_atom_types := tag2type (gb_dense gb) |}.
Proof.
  unfold assemble. intros H. inv_ok. destruct x0 as [[row0 row1] shifts]. inv_ok.
  split; [done|]. by exists row0, row1, shifts.
Qed.

Lemma build_graph_holds E st gb :
  build_graph E st = Ok gb →
  holds (gb_buffers gb) (emitted E st (gb_cell_inv gb) (pos (gb_dense gb))).
Proof.
  intros (nedges & inv & _ & _ & _ & _ & _ & _ & -> & Hloop)%build_graph_Ok.
  apply edge_loop_holds in Hloop. by rewrite emitted_prepared in Hloop.
Qed.

(** ** The tag-ordered buffers *)

Lemma store_tag_stored st n nlocal visited a d d' :
  tags_stored st n nlocal visited d → store_tag st a d = Ok d' →
  tags_stored st n nlocal (visited ++ [a]) d'.
Proof.
  intros (Hl1 & Hl2 & Hl3 & Hrange & Hstored). unfold store_tag. intros H. inv_ok.
  repeat match goal with
         | H : zset _ _ _ _ = Ok _ |- _ => apply zset_Ok in H as [? ->]
         end.
  match goal with H : zget _ (atom_tag _) a = Ok ?t |- _ =>
    assert (tag_of st a = t) as Htag by apply (at_zget _ _ _ _ _ H);
    apply zget_Ok in H as [Ha0 _] end.
  match goal with H : zget _ (atom_x _) a = Ok ?t |- _ =>
    assert (x_of st a = t) as Hx by apply (at_zget _ _ _ _ _ H) end.
  subst. unfold tags_stored. simpl. rewrite !length_insert.
  split; [done|]. split; [done|]. split; [done|]. split.
  - intros i [Hi| ->%list_elem_of_singleton]%elem_of_app; [by apply Hrange|]. lia.
  - rewrite fmap_app. simpl. intros [Hnd [Hnotin _]]%NoDup_app.
    intros i [Hi| ->%list_elem_of_singleton]%elem_of_app.
    + assert (tag_of st i ≠ tag_of st a) as Hne.
      { intros Heq. apply (Hnotin (tag_of st i)).
        - apply list_elem_of_fmap. by exists i.
        - rewrite Heq. apply list_elem_of_singleton. done. }
      destruct (Hrange i Hi) as (_ & ? & _).
      rewrite !list_lookup_insert_ne by lia. by apply Hstored.
    + rewrite !list_lookup_insert_eq by lia. done.
Qed.

Lemma store_tags_stored st d :
  store_tags st = Ok d →
  tags_stored st (Z.to_nat (list_inum (neigh st))) (Z.to_nat (atom_nlocal (atom st)))
    (take (Z.to_nat (list_inum (neigh st))) (list_ilist (neigh st))) d ∧
  length (take (Z.to_nat (list_inum (neigh st))) (list_ilist (neigh st)))
    = Z.to_nat (list_inum (neigh st)).
Proof.
  unfold store_tags. intros H. split.
  - apply for_zget in H. revert H. apply foldM_invariant.
    + unfold tags_stored. simpl. rewrite !length_replicate.
      split; [done|]. split; [done|]. split; [done|].
      split; [|intros _]; by intros i ?%elem_of_nil.
    + intros done_ a t t'. apply store_tag_stored.
  - apply for_zget_length in H. rewrite length_take. lia.
Qed.

(** Pigeonhole: [N] distinct dense indices below [N] are all of them. *)
Lemma dense_indices_cover (T : list nat) (N : nat) :
  NoDup T → length T = N → (∀ t, t ∈ T → t < N)%nat →
  ∀ k, (k < N)%nat → k ∈ T.
Proof.
  intros Hnd Hlen Hlt k Hk.
  assert (T ⊆+ seq 0 N) as Hsub.
  { apply NoDup_submseteq; [done|]. intros t Ht. apply elem_of_seq. specialize (Hlt t Ht). lia. }
  apply submseteq_length_Permutation in Hsub; [|rewrite length_seq; lia].
  rewrite Hsub. apply elem_of_seq. lia.
Qed.

(** With distinct tags on the local atoms, every dense index [k] is the
    tag (minus one) of exactly the atom recorded in [tag2i[k]]. *)
Lemma tag2i_round_trip st d :
  store_tags st = Ok d →
  NoDup (tag_of st <$> take (Z.to_nat (list_inum (neigh st))) (list_ilist (neigh st))) →
  ∀ k, 0 ≤ k < list_inum (neigh st) →
    ∃ i, i ∈ take (Z.to_nat (list_inum (neigh st))) (list_ilist (neigh st)) ∧
         zget "tag2i" (tag2i d) k = Ok i ∧ tag_of st i - 1 = k ∧
         pos d !! Z.to_nat k = Some (vmap d2f (x_of st i)).
Proof.
  intros [(Hl1 & Hl2 & Hl3 & Hrange & Hstored) Hlen]%store_tags_stored Hnd k Hk.
  set (la := take _ _) in *. set (N := Z.to_nat (list_inum (neigh st))) in *.
  pose (T := (λ i, Z.to_nat (tag_of st i - 1)) <$> la).
  assert (Z.to_nat k ∈ T) as Hin.
  { apply (dense_indices_cover T N).
    - unfold T. rewrite (list_fmap_compose (tag_of st) (λ t, Z.to_nat (t - 1))).
      apply NoDup_fmap_2_strong; [|done].
      intros t t' (i & -> & Hi)%list_elem_of_fmap (i' & -> & Hi')%list_elem_of_fmap Heq.
      destruct (Hrange i Hi) as (_ & ? & _). destruct (Hrange i' Hi') as (_ & ? & _). lia.
    - unfold T. by rewrite length_fmap.
    - intros t (i & -> & Hi)%list_elem_of_fmap.
      destruct (Hrange i Hi) as (_ & ? & _). lia.
    - lia. }
  apply list_elem_of_fmap in Hin as (i & Hki & Hi).
  destruct (Hrange i Hi) as (_ & ? & _). destruct (Hstored Hnd i Hi) as [Ht Hp].
  exists i. rewrite <-Hki in Ht, Hp. repeat split; try done.
  - apply zget_Ok. split; [lia|done].
  - lia.
Qed.

(** ** The result scatter *)

Lemma scatter_loop_spec eflag t2i forces ae un n h0 h :
  for_ n (scatter_node eflag t2i forces ae un) h0 = Ok h →
  (∀ k k' i, 0 ≤ k < n → 0 ≤ k' < n →
     zget "tag2i" t2i k = Ok i → zget "tag2i" t2i k' = Ok i → k = k') →
  (∀ k, 0 ≤ k < n → node_scattered eflag t2i forces ae un h k) ∧
  (eflag = 0 → h_eatom h = h_eatom h0) ∧
  (∀ idx : nat, (∀ k, 0 ≤ k < n → zget "tag2i" t2i k ≠ Ok (Z.of_nat idx)) →
     h_f h !! idx = h_f h0 !! idx).
Proof.
  intros H Hinj.
  pose (P := λ (k : Z) (h : host_arrays),
    (∀ m, 0 ≤ m < k → node_scattered eflag t2i forces ae un h m) ∧
    (eflag = 0 → h_eatom h = h_eatom h0) ∧
    (∀ idx : nat, (∀ m, 0 ≤ m < k → zget "tag2i" t2i m ≠ Ok (Z.of_nat idx)) →
       h_f h !! idx = h_f h0 !! idx)).
  apply (for_invariant P) in H.
  - destruct H as (H1 & H2 & H3). split; [|split]; [|done|].
    + intros k Hk. apply H1. lia.
    + intros idx Hidx. apply H3. intros m Hm. apply Hidx. lia.
  - unfold P. split; [intros m ?; lia|]. split; done.
  - clear H. intros k t t' Hk (Hdone & Hea & Hframe) Hb.
    unfold scatter_node in Hb.
    apply bind_Ok in Hb as (i & Hi & Hb). apply bind_Ok in Hb as (f0 & Hf0 & Hb).
    apply bind_Ok in Hb as (f1 & Hf1 & Hb). apply bind_Ok in Hb as (f2 & Hf2 & Hb).
    apply bind_Ok in Hb as (f' & Hf & Hb). apply bind_Ok in Hb as (e' & He & Hb).
    apply bind_Ok in Hb as (u & Hu & Hb). apply bind_Ok in Hb as (un' & Hun & Hb).
    injection Hb as <-.
    apply zset_Ok in Hf as [Hfi ->]. apply zset_Ok in Hun as [Huni ->].
    split; [|split].
    + intros m Hm. destruct (decide (m = k)) as [->|Hne].
      * exists i, f0, f1, f2, u. simpl.
        repeat (split; [done || lia|]).
        rewrite !list_lookup_insert_eq by lia. split; [done|]. split; [done|].
        intros Hfl. rewrite bool_decide_eq_true_2 in He by done.
        apply bind_Ok in He as (e & Hae & He). apply zset_Ok in He as [? ->].
        exists e. split; [done|]. apply list_lookup_insert_eq. lia.
      * destruct (Hdone m) as (im & g0 & g1 & g2 & v & Him & Him0 & ? & ? & ? & ? & Hfm & Hum & Hem);
          [lia|].
        assert (Z.to_nat im ≠ Z.to_nat i) as Hii.
        { intros Heq. apply Hne. apply (Hinj m k im); [lia|lia|done|].
          by replace im with i by lia. }
        exists im, g0, g1, g2, v. simpl.
        repeat (split; [done|]).
        rewrite !list_lookup_insert_ne by done. split; [done|]. split; [done|].
        intros Hfl. destruct (Hem Hfl) as (e & ? & Hl). exists e. split; [done|].
        rewrite bool_decide_eq_true_2 in He by done.
        apply bind_Ok in He as (e0 & Hae & He). apply zset_Ok in He as [? ->].
        by rewrite list_lookup_insert_ne.
    + intros Hfl. simpl. rewrite bool_decide_eq_false_2 in He by lia.
      injection He as <-. by apply Hea.
    + intros idx Hidx. simpl.
      assert (Z.to_nat i ≠ idx) as Hii.
      { intros <-. apply (Hidx k); [lia|]. rewrite Z2Nat.id; [done|lia]. }
      rewrite list_lookup_insert_ne by done. apply Hframe.
      intros m Hm. apply Hidx. lia.
Qed.

Lemma dict_at_Ok d key t : dict_at d key = Ok t ↔ d !! key = Some t.
Proof. unfold dict_at. destruct (d !! key); naive_solver. Qed.

Lemma accessor_Ok n t a : accessor n t = Ok a → a = t.
Proof. unfold accessor. case_bool_decide; naive_solver. Qed.

Lemma flatten_virial_Ok v vir vir' :
  flatten_virial v vir = Ok vir' →
  ∃ v00 v11 v22 v01 v02 v12,
    acc3 v 0 0 0 = Ok v00 ∧ acc3 v 0 1 1 = Ok v11 ∧ acc3 v 0 2 2 = Ok v22 ∧
    acc3 v 0 0 1 = Ok v01 ∧ acc3 v 0 0 2 = Ok v02 ∧ acc3 v 0 1 2 = Ok v12 ∧
    vir' !! 0%nat = Some (f2d v00) ∧ vir' !! 1%nat = Some (f2d v11) ∧
    vir' !! 2%nat = Some (f2d v22) ∧ vir' !! 3%nat = Some (f2d v01) ∧
    vir' !! 4%nat = Some (f2d v02) ∧ vir' !! 5%nat = Some (f2d v12) ∧
    length vir' = length vir.
Proof.
  unfold flatten_virial. intros H.
  apply bind_Ok in H as (v00 & H00 & H). apply bind_Ok in H as (l0 & [Hl0 ->]%zset_Ok & H).
  apply bind_Ok in H as (v11 & H11 & H). apply bind_Ok in H as (l1 & [Hl1 ->]%zset_Ok & H).
  apply bind_Ok in H as (v22 & H22 & H). apply bind_Ok in H as (l2 & [Hl2 ->]%zset_Ok & H).
  apply bind_Ok in H as (v01 & H01 & H). apply bind_Ok in H as (l3 & [Hl3 ->]%zset_Ok & H).
  apply bind_Ok in H as (v02 & H02 & H). apply bind_Ok in H as (l4 & [Hl4 ->]%zset_Ok & H).
  apply bind_Ok in H as (v12 & H12 & H). apply bind_Ok in H as (l5 & [Hl5 ->]%zset_Ok & H).
  injection H as <-. rewrite !length_insert in *.
  exists v00, v11, v22, v01, v02, v12.
  change (Z.to_nat 0) with 0%nat. change (Z.to_nat 1) with 1%nat.
  change (Z.to_nat 2) with 2%nat. change (Z.to_nat 3) with 3%nat.
  change (Z.to_nat 4) with 4%nat. change (Z.to_nat 5) with 5%nat.
  repeat (split; [done|]).
  split; [rewrite !list_lookup_insert_ne by lia; apply list_lookup_insert_eq; lia|].
  split; [rewrite !list_lookup_insert_ne by lia; apply list_lookup_insert_eq;
          rewrite !length_insert; lia|].
  split; [rewrite !list_lookup_insert_ne by lia; apply list_lookup_insert_eq;
          rewrite !length_insert; lia|].
  split; [rewrite !list_lookup_insert_ne by lia; apply list_lookup_insert_eq;
          rewrite !length_insert; lia|].
  split; [rewrite !list_lookup_insert_ne by lia; apply list_lookup_insert_eq;
          rewrite !length_insert; lia|].
  split; [apply list_lookup_insert_eq; rewrite !length_insert; lia|].
  done.
Qed.

Lemma fetch_Ok vflag b output r :
  fetch vflag b output = Ok r →
  output !! "forces" = Some (r_forces r) ∧
  output !! "atomic_energy" = Some (r_atomic_energies r) ∧
  output !! "uncertainties" = Some (r_uncertainties_itag r) ∧
  (∃ te e0, output !! "total_energy" = Some te ∧ data te !! 0%nat = Some e0 ∧
            eng_vdwl (r_pair r) = f2d e0) ∧
  eflag_atom (r_pair r) = eflag_atom b ∧ vflag_atom (r_pair r) = vflag_atom b ∧
  eatom (r_pair r) = eatom b ∧
  (vflag = 0 → virial (r_pair r) = virial b) ∧
  (vflag ≠ 0 → ∃ v, output !! "virial" = Some v ∧
                    flatten_virial v (virial b) = Ok (virial (r_pair r))).
Proof.
  unfold fetch. intros H.
  apply bind_Ok in H as (ft & Hft%dict_at_Ok & H).
  apply bind_Ok in H as (fa & ->%accessor_Ok & H).
  apply bind_Ok in H as (te & Hte%dict_at_Ok & H).
  apply bind_Ok in H as (e0 & [_ He0]%zget_Ok & H).
  apply bind_Ok in H as (at_ & Hat%dict_at_Ok & H).
  apply bind_Ok in H as (aa & ->%accessor_Ok & H).
  apply bind_Ok in H as (ut & Hut%dict_at_Ok & H).
  apply bind_Ok in H as (ua & ->%accessor_Ok & H).
  apply bind_Ok in H as (b' & Hb' & H). injection H as <-. simpl.
  split; [done|]. split; [done|]. split; [done|].
  case_bool_decide as Hv.
  - apply bind_Ok in Hb' as (vt & Hvt%dict_at_Ok & Hb').
    apply bind_Ok in Hb' as (va & ->%accessor_Ok & Hb').
    apply bind_Ok in Hb' as (vir & Hvir & Hb'). injection Hb' as <-. simpl.
    split; [by exists te, e0|]. split; [done|]. split; [done|]. split; [done|].
    split; [intros ?; lia|]. intros _. by exists vt.
  - injection Hb' as <-. simpl.
    split; [by exists te, e0|]. split; [done|]. split; [done|]. split; [done|].
    split; [done|]. intros ?. lia.
Qed.

Lemma compute_Ok E eflag vflag st st' :
  compute E eflag vflag st = Ok st' →
  ∃ gb g output r h,
    build_graph E (call_ev_init E eflag vflag st) = Ok gb ∧
    assemble gb = Ok g ∧ model_forward E g = Some output ∧
    fetch vflag (pair_base (pair (gb_state gb))) output = Ok r ∧
    vflag_atom (r_pair r) = 0 ∧
    for_ (list_inum (neigh (gb_state gb)))
      (scatter_node (eflag_atom (r_pair r)) (tag2i (gb_dense gb))
                    (r_forces r) (r_atomic_energies r) (r_uncertainties_itag r))
      {| h_f := atom_f (atom (gb_state gb)); h_eatom := eatom (r_pair r);
         h_uncertainties := uncertainties (pair (gb_state gb)) |} = Ok h ∧
    atom_f (atom st') = h_f h ∧
    eatom (pair_base (pair st')) = h_eatom h ∧
    uncertainties (pair st') = h_uncertainties h ∧
    virial (pair_base (pair st')) = virial (r_pair r) ∧
    eng_vdwl (pair_base (pair st')) = eng_vdwl (r_pair r).
Proof.
  unfold compute. intros H.
  apply bind_Ok in H as (gb & Hgb & H). apply bind_Ok in H as (g & Hg & H).
  apply bind_Ok in H as (output & Ho%thrown_Ok & H). apply bind_Ok in H as (r & Hr & H).
  unfold scatter in H. apply bind_Ok in H as ([] & Hva & H).
  apply check_neg_Ok in Hva.
  apply bind_Ok in H as (h & Hh & H). injection H as <-.
  exists gb, g, output, r, h. simpl. repeat (split; [done || lia|]). done.
Qed.

Lemma build_graph_tags E st gb :
  build_graph E st = Ok gb → NoDup (tag_of st <$> local_atoms st) →
  list_inum (neigh st) = atom_nlocal (atom st) ∧
  ∀ k, 0 ≤ k < atom_nlocal (atom st) →
    ∃ i, i ∈ local_atoms st ∧ zget "tag2i" (tag2i (gb_dense gb)) k = Ok i ∧
         tag_of st i - 1 = k ∧
         pos (gb_dense gb) !! Z.to_nat k = Some (vmap d2f (x_of st i)).
Proof.
  intros (nedges & inv & _ & Hn & _ & Hst & _)%build_graph_Ok Hnd.
  split; [done|]. intros k Hk.
  destruct (tag2i_round_trip _ _ Hst) with (k := k) as (i & Hi & Ht & Htag & Hpos).
  - unfold tag_of. rewrite prepared_atom, prepared_neigh, Hn. exact Hnd.
  - rewrite prepared_neigh. lia.
  - exists i. unfold tag_of, x_of in *. rewrite prepared_atom in *.
    rewrite prepared_neigh, Hn in Hi. done.
Qed.

(** The state of the host arrays at the end of a successful [compute]. *)
Lemma compute_scatter E eflag vflag st st' :
  compute E eflag vflag st = Ok st' → NoDup (tag_of st <$> local_atoms st) →
  ∃ gb g output r,
    build_graph E (call_ev_init E eflag vflag st) = Ok gb ∧
    assemble gb = Ok g ∧ model_forward E g = Some output ∧
    fetch vflag (ev_init E eflag vflag st) output = Ok r ∧
    (∀ k, 0 ≤ k < atom_nlocal (atom st) →
       node_scattered (eflag_atom (r_pair r)) (tag2i (gb_dense gb))
         (r_forces r) (r_atomic_energies r) (r_uncertainties_itag r)
         {| h_f := atom_f (atom st'); h_eatom := eatom (pair_base (pair st'));
            h_uncertainties := uncertainties (pair st') |} k) ∧
    (eflag_atom (r_pair r) = 0 → eatom (pair_base (pair st')) = eatom (r_pair r)) ∧
    (∀ idx : nat, Z.of_nat idx ∉ local_atoms st →
       atom_f (atom st') !! idx = atom_f (atom st) !! idx) ∧
    virial (pair_base (pair st')) = virial (r_pair r) ∧
    eng_vdwl (pair_base (pair st')) = eng_vdwl (r_pair r).
Proof.
  intros (gb & g & output & r & h & Hgb & Hg & Ho & Hr & Hva & Hh & Hf & He & Hu & Hv & Hen)
    %compute_Ok Hnd.
  destruct (build_graph_tags _ _ _ Hgb Hnd) as [Hn Htags].
  pose proof Hgb as (nedges & inv & _ & _ & Hst & _)%build_graph_Ok.
  rewrite Hst, prepared_base in Hr. rewrite Hst, prepared_neigh, prepared_f in Hh.
  simpl in Hr, Hh, Hn, Htags.
  apply scatter_loop_spec in Hh as (Hnodes & Heatom & Hframe).
  - exists gb, g, output, r. rewrite Hf, He, Hu, Hv, Hen.
    repeat (split; [done|]).
    split; [intros k Hk; apply Hnodes; lia|].
    split; [done|]. split; [|done].
    intros idx Hidx. apply Hframe. intros k Hk Hz.
    destruct (Htags k) as (i & Hi & Hi' & _); [lia|].
    rewrite Hz in Hi'. injection Hi' as <-. done.
  - intros k k' i Hk Hk' Hz Hz'.
    destruct (Htags k) as (i1 & _ & H1 & Ht1 & _); [lia|].
    destruct (Htags k') as (i2 & _ & H2 & Ht2 & _); [lia|].
    rewrite Hz in H1. rewrite Hz' in H2. injection H1 as <-. injection H2 as <-. lia.
Qed.

Lemma build_graph_local E st gb :
  build_graph E st = Ok gb → NoDup (tag_of st <$> local_atoms st) →
  ∀ i, i ∈ local_atoms st →
    0 ≤ i ∧ 0 ≤ tag_of st i - 1 < atom_nlocal (atom st) ∧
    zget "tag2i" (tag2i (gb_dense gb)) (tag_of st i - 1) = Ok i.
Proof.
  intros (nedges & inv & _ & Hn & _ & Hst & _)%build_graph_Ok Hnd i Hi.
  apply store_tags_stored in Hst as [(_ & _ & _ & Hrange & Hstored) _].
  unfold tag_of in *. rewrite prepared_atom, prepared_neigh, Hn in *.
  destruct (Hrange i Hi) as (? & ? & ?). destruct (Hstored Hnd i Hi) as [Ht _].
  split; [done|]. split; [lia|]. apply zget_Ok. split; [lia|done].
Qed.

(** Without any assumption on the tags: every entry of the force array is
    either untouched or holds the force of a model node, assigned. *)
Lemma scatter_loop_assigns eflag t2i forces ae un n h0 h :
  for_ n (scatter_node eflag t2i forces ae un) h0 = Ok h →
  (eflag = 0 → h_eatom h = h_eatom h0) ∧
  ∀ idx : nat,
    h_f h !! idx = h_f h0 !! idx ∨
    ∃ d f0 f1 f2,
      0 ≤ d < n ∧ zget "tag2i" t2i d = Ok (Z.of_nat idx) ∧
      acc2 forces d 0 = Ok f0 ∧ acc2 forces d 1 = Ok f1 ∧ acc2 forces d 2 = Ok f2 ∧
      h_f h !! idx = Some (V3 (f2d f0) (f2d f1) (f2d f2)).
Proof.
  intros H.
  pose (P := λ (k : Z) (h : host_arrays),
    (eflag = 0 → h_eatom h = h_eatom h0) ∧
    ∀ idx : nat,
      h_f h !! idx = h_f h0 !! idx ∨
      ∃ d f0 f1 f2,
        0 ≤ d < k ∧ zget "tag2i" t2i d = Ok (Z.of_nat idx) ∧
        acc2 forces d 0 = Ok f0 ∧ acc2 forces d 1 = Ok f1 ∧ acc2 forces d 2 = Ok f2 ∧
        h_f h !! idx = Some (V3 (f2d f0) (f2d f1) (f2d f2))).
  apply (for_invariant P) in H.
  - destruct H as [H1 H2]. split; [done|]. intros idx.
    destruct (H2 idx) as [?|(d & f0 & f1 & f2 & ? & ?)]; [by left|right].
    exists d, f0, f1, f2. split; [lia|done].
  - split; [done|]. intros idx. by left.
  - clear H. intros k t t' Hk [Hea Hf] Hb. unfold scatter_node in Hb.
    apply bind_Ok in Hb as (i & Hi & Hb). apply bind_Ok in Hb as (f0 & Hf0 & Hb).
    apply bind_Ok in Hb as (f1 & Hf1 & Hb). apply bind_Ok in Hb as (f2 & Hf2 & Hb).
    apply bind_Ok in Hb as (f' & Hset & Hb). apply bind_Ok in Hb as (e' & He & Hb).
    apply bind_Ok in Hb as (u & Hu & Hb). apply bind_Ok in Hb as (un' & Hun & Hb).
    injection Hb as <-. apply zset_Ok in Hset as [Hfi ->]. split; simpl.
    + intros Hfl. rewrite bool_decide_eq_false_2 in He by lia.
      injection He as <-. by apply Hea.
    + intros idx. destruct (decide (idx = Z.to_nat i)) as [->|Hne].
      * right. exists k, f0, f1, f2. rewrite Z2Nat.id by lia.
        split; [lia|]. repeat (split; [done|]). apply list_lookup_insert_eq. lia.
      * rewrite list_lookup_insert_ne by done.
        destruct (Hf idx) as [?|(d & g0 & g1 & g2 & ? & ?)]; [by left|right].
        exists d, g0, g1, g2. split; [lia|done].
Qed.

Lemma compute_effects E eflag vflag st st' :
  compute E eflag vflag st = Ok st' →
  ∃ gb g output r,
    build_graph E (call_ev_init E eflag vflag st) = Ok gb ∧
    assemble gb = Ok g ∧ model_forward E g = Some output ∧
    fetch vflag (ev_init E eflag vflag st) output = Ok r ∧
    (eflag_atom (r_pair r) = 0 → eatom (pair_base (pair st')) = eatom (r_pair r)) ∧
    (∀ idx : nat,
       atom_f (atom st') !! idx = atom_f (atom st) !! idx ∨
       ∃ d f0 f1 f2,
         0 ≤ d < atom_nlocal (atom st) ∧
         zget "tag2i" (tag2i (gb_dense gb)) d = Ok (Z.of_nat idx) ∧
         acc2 (r_forces r) d 0 = Ok f0 ∧ acc2 (r_forces r) d 1 = Ok f1 ∧
         acc2 (r_forces r) d 2 = Ok f2 ∧
         atom_f (atom st') !! idx = Some (V3 (f2d f0) (f2d f1) (f2d f2))) ∧
    (NoDup (tag_of st <$> local_atoms st) →
     ∀ k, 0 ≤ k < atom_nlocal (atom st) →
       node_scattered (eflag_atom (r_pair r)) (tag2i (gb_dense gb))
         (r_forces r) (r_atomic_energies r) (r_uncertainties_itag r)
         {| h_f := atom_f (atom st'); h_eatom := eatom (pair_base (pair st'));
            h_uncertainties := uncertainties (pair st') |} k).
Proof.
  intros Hc.
  pose proof Hc
    as (gb & g & output & r & h & Hgb & Hg & Ho & Hr & Hva & Hh & Hf & He & _)%compute_Ok.
  pose proof Hgb as (nedges & inv & _ & Hn & Hst & _)%build_graph_Ok.
  rewrite Hst, prepared_base in Hr. rewrite Hst, prepared_neigh, prepared_f in Hh.
  simpl in Hr, Hh, Hn.
  pose proof (scatter_loop_assigns _ _ _ _ _ _ _ _ Hh) as [Heatom Hassign].
  simpl in Heatom, Hassign.
  exists gb, g, output, r. rewrite Hf, He, <-Hn.
  repeat (split; [done|]).
  intros Hnd k Hk.
  destruct (compute_scatter _ _ _ _ _ Hc Hnd)
    as (gb' & g' & output' & r' & Hgb' & Hg' & Ho' & Hr' & Hnodes & _).
  rewrite Hgb in Hgb'. injection Hgb' as <-. rewrite Hg in Hg'. injection Hg' as <-.
  rewrite Ho in Ho'. injection Ho' as <-. rewrite Hr in Hr'. injection Hr' as <-.
  rewrite <-Hf, <-He. apply Hnodes. lia.
Qed.

(** ** The fatal errors of [compute] *)

Lemma shorten_Err b e : shorten b = Err e → ∃ w, e = Undefined w.
Proof.
  unfold shorten. intros (i & [[r0 r1] sh] & H)%foldM_Err.
  unfold copy_edge, zget_init in H.
  repeat match goal with
  | H : Ok _ = Err _ |- _ => discriminate H
  | H : (_ ≫= _) = Err _ |- _ => apply bind_Err in H as [H|(? & _ & H)]
  | H : zget _ _ _ = Err _ |- _ => apply zget_Err in H
  | H : zset _ _ _ _ = Err _ |- _ => apply zset_Err in H
  | H : match ?o with Some _ => _ | None => _ end = Err _ |- _ => destruct o
  end; try (by eexists); injection H as <-; by eexists.
Qed.

Lemma fetch_Err vflag b output msg : fetch vflag b output ≠ Err (ErrorAll msg).
Proof.
  unfold fetch, flatten_virial, acc3, dict_at, accessor. intros H.
  repeat match goal with
  | H : Ok _ = Err _ |- _ => discriminate H
  | H : Err _ = Err (ErrorAll _) |- _ => discriminate H
  | H : (_ ≫= _) = Err _ |- _ => apply bind_Err in H as [H|(? & _ & H)]
  | H : zget _ _ _ = Err _ |- _ => apply zget_Err in H; discriminate H
  | H : zset _ _ _ _ = Err _ |- _ => apply zset_Err in H; discriminate H
  | H : (if ?c then _ else _) = Err _ |- _ => destruct c
  | H : match ?o with Some _ => _ | None => _ end = Err _ |- _ => destruct o
  end.
Qed.

Lemma scatter_loop_Err eflag t2i forces ae un n h e :
  for_ n (scatter_node eflag t2i forces ae un) h = Err e → ∃ w, e = Undefined w.
Proof.
  intros (k & t & H)%foldM_Err. unfold scatter_node, acc2 in H.
  inv_err; by eexists.
Qed.

(** [compute] raises three fatal host errors and no other. *)
Lemma compute_ErrorAll E eflag vflag st msg :
  compute E eflag vflag st = Err (ErrorAll msg) →
  msg = "Pair style PHIN requires 'newton off'" ∨
  msg = "No Edges Detected" ∨
  msg = "Pair style NEQUIP does not support per-atom virial".
Proof.
  unfold compute. intros H.
  apply bind_Err in H as [H|(gb & _ & H)]; [left; by eapply build_graph_ErrorAll|].
  apply bind_Err in H as [H|(g & _ & H)].
  { unfold assemble in H. apply bind_Err in H as [H|([] & _ & H)].
    - case_bool_decide; [|discriminate H]. injection H as <-. by right; left.
    - apply bind_Err in H as [H|([[r0 r1] sh] & _ & H)]; [|discriminate H].
      apply shorten_Err in H as [w H]. discriminate H. }
  apply bind_Err in H as [H|(output & _ & H)].
  { unfold thrown in H. destruct (model_forward E g); discriminate H. }
  apply bind_Err in H as [H|(r & _ & H)]; [by apply fetch_Err in H|].
  unfold scatter in H. apply bind_Err in H as [H|([] & _ & H)].
  - case_bool_decide; [|discriminate H]. injection H as <-. by right; right.
  - apply bind_Err in H as [H|(h & _ & H)]; [|discriminate H].
    apply scatter_loop_Err in H as [w H]. discriminate H.
Qed.

(** The dense-ordered position of a tag is the single-precision position
    of the local atom that carries it. *)
Lemma build_graph_pos E st gb :
  build_graph E st = Ok gb → NoDup (tag_of st <$> local_atoms st) →
  ∀ i, i ∈ local_atoms st →
    pos (gb_dense gb) !! Z.to_nat (tag_of st i - 1) = Some (vmap d2f (x_of st i)).
Proof.
  intros (nedges & inv & _ & Hn & _ & Hst & _)%build_graph_Ok Hnd i Hi.
  apply store_tags_stored in Hst as [(_ & _ & _ & _ & Hstored) _].
  unfold tag_of, x_of in *. rewrite prepared_atom, prepared_neigh, Hn in *.
  by destruct (Hstored Hnd i Hi) as [_ Hp].
Qed.

(** * The claims *)

Lemma qualifying_edges_spec E st a b :
  (a, b) ∈ edge_of st <$> qualifying E st ↔
  ∃ i j, (i, j) ∈ neighbor_entries E st ∧ within_cutoff st (i, j) = true ∧
         a = tag_of st i - 1 ∧ b = tag_of st j - 1.
Proof.
  rewrite list_elem_of_fmap. unfold qualifying. setoid_rewrite list_elem_of_filter.
  unfold edge_of. split.
  - intros ([i j] & Heq & Hw & Hin). injection Heq as -> ->. by exists i, j.
  - intros (i & j & Hin & Hw & -> & ->). by exists (i, j).
Qed.

(** C1.  For every local atom [i] and every entry [j] of its neighbor list
    visited by the edge loop, a directed edge is stored if and only if the
    squared distance between the position of [i] and the actual position of
    [j] is strictly below the squared cutoff, and the stored endpoints are
    the dense node indices [tag(i) - 1] and [tag(j) - 1]: the edge list
    handed to the model is, in visiting order, the list of those endpoints
    over the visited pairs that pass the test.  This holds for
    [PairPHIN::compute] (where in addition the number of stored edges is
    the number of such pairs, and the compaction succeeds as soon as there
    is one) and for [ComputeNEQUIP::compute_vector]. *)
Theorem edges_iff_within_cutoff (E : externals) (st : lammps) :
  let es := edge_of st <$> qualifying E st in
  (∀ a b, (a, b) ∈ es ↔
     ∃ i j, (i, j) ∈ neighbor_entries E st ∧ within_cutoff st (i, j) = true ∧
            a = tag_of st i - 1 ∧ b = tag_of st j - 1) ∧
  (∀ gb, build_graph E st = Ok gb →
     edge_counter (gb_buffers gb) = Z.of_nat (length es) ∧
     (es ≠ [] → is_Ok (assemble gb)) ∧
     (∀ g, assemble gb = Ok g → in_edge_index g = (fst <$> es, snd <$> es))) ∧
  (∀ g, ComputeNEQUIP.build_input E st = Ok g →
     in_edge_index g = (fst <$> es, snd <$> es)).
Proof.
  intros es. split; [apply qualifying_edges_spec|]. split.
  - intros gb Hb. pose proof (build_graph_holds _ _ _ Hb) as Hh.
    destruct (emitted_edges E st (gb_cell_inv gb) (pos (gb_dense gb))) as (H0 & H1 & _).
    split; [|split].
    + destruct Hh as [-> _]. unfold emitted, es. by rewrite !length_fmap.
    + intros Hne. destruct (shorten_total _ _ Hh) as [[[r0 r1] sh] Hs].
      unfold assemble. rewrite Hs. rewrite bool_decide_eq_false_2; [by eexists|].
      destruct Hh as [-> _]. unfold emitted. rewrite length_fmap.
      unfold es in Hne. destruct (qualifying E st); [done|]. simpl. lia.
    + intros g (_ & r0 & r1 & sh & Hs & ->)%assemble_Ok. simpl.
      destruct (shorten_holds _ _ _ _ _ Hh Hs) as (-> & -> & _). by rewrite H0, H1.
  - intros g. unfold ComputeNEQUIP.build_input. intros H. inv_ok.
    match goal with H : shorten _ = Ok ?t |- _ => destruct t as [[r0 r1] sh] end.
    inv_ok. simpl.
    match goal with H : ComputeNEQUIP.edge_loop _ _ _ _ _ = Ok _ |- _ =>
      apply nequip_edge_loop_holds in H; [|done]; rename H into Hh end.
    match goal with H : shorten _ = Ok _ |- _ =>
      destruct (shorten_holds _ _ _ _ _ Hh H) as (-> & -> & _) end.
    match goal with |- context [emitted E st ?c ?p] =>
      destruct (emitted_edges E st c p) as (-> & -> & _) end.
    done.
Qed.

Lemma edges_iff_within_cutoff_witness :
  ∃ gb g g',
    build_graph ref_externals (two_atoms 0) = Ok gb ∧ assemble gb = Ok g ∧
    ComputeNEQUIP.build_input ref_externals (two_atoms 0) = Ok g' ∧
    edge_counter (gb_buffers gb) = 2 ∧
    in_edge_index g = ([1; 0], [0; 1]) ∧ in_edge_index g' = ([1; 0], [0; 1]).
Proof.
  destruct (edges_iff_within_cutoff ref_externals (two_atoms 0)) as (_ & Hpair & Hcompute).
  destruct (build_graph ref_externals (two_atoms 0)) as [gb|e] eqn:Hb;
    [|vm_compute in Hb; discriminate Hb].
  destruct (ComputeNEQUIP.build_input ref_externals (two_atoms 0)) as [g'|e] eqn:Hc;
    [|vm_compute in Hc; discriminate Hc].
  destruct (Hpair gb eq_refl) as (Hn & Htotal & Hedges).
  destruct Htotal as [g Hg]; [vm_compute; discriminate|].
  exists gb, g, g'.
  split; [reflexivity|]. split; [exact Hg|]. split; [reflexivity|].
  split; [rewrite Hn; vm_compute; reflexivity|].
  split; [rewrite (Hedges g Hg); vm_compute; reflexivity|].
  rewrite (Hcompute g' eq_refl). vm_compute. reflexivity.
Defined.

(** C2 does not hold as stated: the rounding returns infinities and NaN
    unchanged, so a stored shift need not be an integer.  With the two atoms at
    [x = 2^128] the dense-ordered positions overflow to [+inf] in single
    precision, the displacement of the neighbor is [-inf], and the first
    edge stores the shift component [-inf]. *)
Lemma shift_not_always_integer :
  ∃ gb g s,
    build_graph ref_externals two_distant_atoms = Ok gb ∧ assemble gb = Ok g ∧
    in_edge_cell_shift g !! 0%nat = Some s ∧
    c0 s = F32 (S754_infinity true) ∧ f_is_integer (c0 s) = false.
Proof.
  destruct (build_graph ref_externals two_distant_atoms) as [gb|e] eqn:Hb;
    [|vm_compute in Hb; discriminate Hb].
  destruct (assemble gb) as [g|e] eqn:Hg.
  - exists gb, g. eexists. split; [reflexivity|]. split; [exact Hg|].
    assert ((gb' ← build_graph ref_externals two_distant_atoms; assemble gb') = Ok g) as H
      by (rewrite Hb; exact Hg).
    vm_compute in H. injection H as <-. vm_compute. repeat split; reflexivity.
  - assert ((gb' ← build_graph ref_externals two_distant_atoms; assemble gb') = Err e) as H
      by (rewrite Hb; exact Hg).
    vm_compute in H. discriminate H.
Qed.

(** C2, as the code has it.  For every edge stored within cutoff, the
    shift handed to the model is the component-wise [std::round] of the
    product of the transposed inverse of the lattice matrix with the
    single-precision displacement between the actual position of the
    neighbor and the dense-ordered position of its tag; every component
    whose product is a finite number is stored as an integer value.  (With
    pairwise distinct tags on the local atoms, the dense-ordered position
    of a tag is the single-precision position of the local atom carrying
    it.) *)
Theorem shift_is_rounded_projection (E : externals) (st : lammps) gb g :
  build_graph E st = Ok gb → assemble gb = Ok g →
  ∃ inv, torch_inverse E (in_cell g) = Some inv ∧
    let fractional := λ p : Z * Z,
      torch_matmul E (transpose inv)
        (periodic_shift_of (x_of st p.2)
           (at_ (V3 fzero fzero fzero) (in_pos g) (tag_of st p.2 - 1))) in
    in_edge_cell_shift g = (λ p, vmap fround (fractional p)) <$> qualifying E st ∧
    (∀ (k : nat) p s,
       qualifying E st !! k = Some p → in_edge_cell_shift g !! k = Some s →
       (f_is_finite (c0 (fractional p)) = true → f_is_integer (c0 s) = true) ∧
       (f_is_finite (c1 (fractional p)) = true → f_is_integer (c1 s) = true) ∧
       (f_is_finite (c2 (fractional p)) = true → f_is_integer (c2 s) = true)) ∧
    (NoDup (tag_of st <$> local_atoms st) →
     ∀ i, i ∈ local_atoms st →
       in_pos g !! Z.to_nat (tag_of st i - 1) = Some (vmap d2f (x_of st i))).
Proof.
  intros Hb Hg. pose proof (build_graph_holds _ _ _ Hb) as Hh.
  pose proof (build_graph_pos _ _ _ Hb) as Hpos.
  apply build_graph_Ok in Hb as (nedges & inv & _ & _ & _ & _ & Hcell & Hinv & Hci & _).
  apply assemble_Ok in Hg as (_ & r0 & r1 & sh & Hs & ->). simpl.
  destruct (shorten_holds _ _ _ _ _ Hh Hs) as (_ & _ & ->).
  destruct (emitted_edges E st (gb_cell_inv gb) (pos (gb_dense gb))) as (_ & _ & ->).
  exists inv. rewrite Hcell, Hci. split; [done|]. split; [done|]. split; [|done].
  intros k p s Hp Hk. rewrite list_lookup_fmap, Hp in Hk. injection Hk as <-.
  unfold shift_of, fractional_of, displacement_of. simpl.
  repeat split; apply fround_integer.
Qed.

Lemma shift_is_rounded_projection_witness :
  ∃ gb g,
    build_graph ref_externals (two_atoms 0) = Ok gb ∧ assemble gb = Ok g ∧
    in_edge_cell_shift g = [V3 (f_of_Z 1) fzero fzero; V3 (f_of_Z (-1)) fzero fzero] ∧
    Forall (λ s, f_is_integer (c0 s) = true ∧ f_is_integer (c1 s) = true ∧
                 f_is_integer (c2 s) = true) (in_edge_cell_shift g).
Proof.
  destruct (build_graph ref_externals (two_atoms 0)) as [gb|e] eqn:Hb;
    [|vm_compute in Hb; discriminate Hb].
  destruct (assemble gb) as [g|e] eqn:Hg; cycle 1.
  { assert ((gb' ← build_graph ref_externals (two_atoms 0); assemble gb') = Err e) as H
      by (rewrite Hb; exact Hg).
    vm_compute in H. discriminate H. }
  destruct (shift_is_rounded_projection ref_externals (two_atoms 0) gb g Hb Hg)
    as (inv & Hinv & Hshift & Hint & _).
  assert (in_pos g = [V3 fzero fzero fzero; V3 (f_of_Z 9) fzero fzero] ∧
          in_cell g = get_cell (domain (two_atoms 0))) as [Hpos Hcell].
  { assert ((gb' ← build_graph ref_externals (two_atoms 0); assemble gb') = Ok g) as H
      by (rewrite Hb; exact Hg).
    vm_compute in H. injection H as <-. split; vm_compute; reflexivity. }
  rewrite Hcell in Hinv. vm_compute in Hinv. injection Hinv as <-.
  rewrite Hpos in Hshift, Hint.
  exists gb, g. split; [reflexivity|]. split; [exact Hg|].
  split; [rewrite Hshift; vm_compute; reflexivity|].
  apply Forall_lookup_2. intros k s Hk.
  assert (k < 2)%nat as Hlt.
  { apply lookup_lt_Some in Hk. rewrite Hshift, length_fmap in Hk.
    vm_compute in Hk. lia. }
  destruct (lookup_lt_is_Some_2 (qualifying ref_externals (two_atoms 0)) k) as [p Hp].
  { vm_compute. lia. }
  destruct (Hint k p s Hp Hk) as (H0 & H1 & H2).
  destruct k as [|[|k]]; [| |lia]; vm_compute in Hp; injection Hp as <-;
    (split; [apply H0|split; [apply H1|apply H2]]); vm_compute; reflexivity.
Defined.

(** C3.  When the tags of the local atoms are pairwise distinct (the host
    guarantees unique IDs), for every dense node index [d] in [0, N), [N]
    the local atom count, the host-local index [tag2i[d]] carries the tag
    [d + 1]: mapping [d] to the host-local index, to its tag and subtracting
    one returns [d].  Equivalently, at the end of [compute] the force of the
    model node [d] is found in the host atom whose tag is [d + 1], and the
    atoms outside the local list keep their forces. *)
Theorem index_round_trip (E : externals) (st : lammps) :
  NoDup (tag_of st <$> local_atoms st) →
  (∀ gb, build_graph E st = Ok gb →
     ∀ d, 0 ≤ d < atom_nlocal (atom st) →
       ∃ i, zget "tag2i" (tag2i (gb_dense gb)) d = Ok i ∧ tag_of st i - 1 = d) ∧
  (∀ eflag vflag st', compute E eflag vflag st = Ok st' →
     ∃ g output forces,
       model_forward E g = Some output ∧ output !! "forces" = Some forces ∧
       (∀ d, 0 ≤ d < atom_nlocal (atom st) →
          ∃ i f0 f1 f2,
            0 ≤ i ∧ tag_of st i = d + 1 ∧
            acc2 forces d 0 = Ok f0 ∧ acc2 forces d 1 = Ok f1 ∧ acc2 forces d 2 = Ok f2 ∧
            atom_f (atom st') !! Z.to_nat i = Some (V3 (f2d f0) (f2d f1) (f2d f2))) ∧
       (∀ idx : nat, Z.of_nat idx ∉ local_atoms st →
          atom_f (atom st') !! idx = atom_f (atom st) !! idx)).
Proof.
  intros Hnd. split.
  - intros gb Hgb d Hd.
    destruct (build_graph_tags _ _ _ Hgb Hnd) as [_ Htags].
    destruct (Htags d Hd) as (i & _ & Hi & Htag & _). by exists i.
  - intros eflag vflag st' Hc.
    destruct (compute_scatter _ _ _ _ _ Hc Hnd)
      as (gb & g & output & r & Hgb & Hg & Ho & Hr & Hnodes & _ & Hframe & _).
    apply fetch_Ok in Hr as (Hforces & _).
    destruct (build_graph_tags _ _ _ Hgb Hnd) as [_ Htags].
    exists g, output, (r_forces r). split; [done|]. split; [done|]. split; [|done].
    intros d Hd.
    destruct (Hnodes d Hd) as (i & f0 & f1 & f2 & u & Hi & Hi0 & H0 & H1 & H2 & _ & Hf & _).
    destruct (Htags d Hd) as (i' & _ & Hi' & Htag & _).
    rewrite Hi in Hi'. injection Hi' as <-.
    exists i, f0, f1, f2. simpl in Hf. repeat (split; [done || (unfold tag_of in *; simpl in *; lia)|]).
    done.
Qed.

Lemma index_round_trip_witness :
  ∃ st', compute ref_externals 3 1 (two_atoms 0) = Ok st' ∧
    NoDup (tag_of (two_atoms 0) <$> local_atoms (two_atoms 0)) ∧
    (∀ d, 0 ≤ d < 2 → ∃ i f0 f1 f2,
       0 ≤ i ∧ tag_of (two_atoms 0) i = d + 1 ∧
       atom_f (atom st') !! Z.to_nat i = Some (V3 (f2d f0) (f2d f1) (f2d f2))).
Proof.
  assert (NoDup (tag_of (two_atoms 0) <$> local_atoms (two_atoms 0))) as Hnd.
  { vm_compute. apply NoDup_cons. split; [|apply NoDup_singleton].
    intros H%list_elem_of_singleton. discriminate H. }
  destruct (compute ref_externals 3 1 (two_atoms 0)) as [st'|e] eqn:Hc;
    [|vm_compute in Hc; discriminate Hc].
  exists st'. split; [reflexivity|]. split; [exact Hnd|].
  destruct (index_round_trip ref_externals (two_atoms 0) Hnd) as [_ Hscatter].
  destruct (Hscatter 3 1 st' Hc) as (g & output & forces & _ & _ & Hnodes & _).
  intros d Hd. destruct (Hnodes d Hd) as (i & f0 & f1 & f2 & ? & ? & _ & _ & _ & ?).
  by exists i, f0, f1, f2.
Defined.

(** C10.  On every [compute] call that completes, each entry of the force
    array either is untouched or holds, converted to [double], the three
    components of the model's force on some node [d] whose [tag2i[d]] is
    that entry: forces are assigned, the previous value does not enter the
    result.  The per-atom energy array is left as [ev_init] set it up when
    the per-atom energy flag is clear.  With pairwise distinct tags on the
    local atoms, every local atom [i] receives the force of the node
    [tag(i) - 1] and, when the flag is set, the energy of that node. *)
Theorem forces_assigned_energy_gated (E : externals) (eflag vflag : Z) (st st' : lammps) :
  compute E eflag vflag st = Ok st' →
  ∃ g output forces atomic_energy tag2i,
    model_forward E g = Some output ∧
    output !! "forces" = Some forces ∧ output !! "atomic_energy" = Some atomic_energy ∧
    (∀ idx : nat,
       atom_f (atom st') !! idx = atom_f (atom st) !! idx ∨
       ∃ d f0 f1 f2,
         0 ≤ d < atom_nlocal (atom st) ∧ zget "tag2i" tag2i d = Ok (Z.of_nat idx) ∧
         acc2 forces d 0 = Ok f0 ∧ acc2 forces d 1 = Ok f1 ∧ acc2 forces d 2 = Ok f2 ∧
         atom_f (atom st') !! idx = Some (V3 (f2d f0) (f2d f1) (f2d f2))) ∧
    (eflag_atom (ev_init E eflag vflag st) = 0 →
       eatom (pair_base (pair st')) = eatom (ev_init E eflag vflag st)) ∧
    (NoDup (tag_of st <$> local_atoms st) →
     ∀ i, i ∈ local_atoms st →
       (∃ f0 f1 f2,
          acc2 forces (tag_of st i - 1) 0 = Ok f0 ∧
          acc2 forces (tag_of st i - 1) 1 = Ok f1 ∧
          acc2 forces (tag_of st i - 1) 2 = Ok f2 ∧
          atom_f (atom st') !! Z.to_nat i = Some (V3 (f2d f0) (f2d f1) (f2d f2))) ∧
       (eflag_atom (ev_init E eflag vflag st) ≠ 0 →
          ∃ e, acc2 atomic_energy (tag_of st i - 1) 0 = Ok e ∧
               eatom (pair_base (pair st')) !! Z.to_nat i = Some (f2d e))).
Proof.
  intros Hc.
  destruct (compute_effects _ _ _ _ _ Hc)
    as (gb & g & output & r & Hgb & Hg & Ho & Hr & Hclear & Hassign & Hnodes).
  apply fetch_Ok in Hr as (Hforces & Hae & _ & _ & Hef & _ & Hea & _).
  exists g, output, (r_forces r), (r_atomic_energies r), (tag2i (gb_dense gb)).
  rewrite <-Hef, <-Hea.
  split; [done|]. split; [done|]. split; [done|]. split; [done|]. split; [done|].
  intros Hnd i Hi.
  destruct (build_graph_local _ _ _ Hgb Hnd i Hi) as (Hi0 & Hd & Hti).
  destruct (Hnodes Hnd _ Hd)
    as (i' & f0 & f1 & f2 & u & Hi' & _ & H0 & H1 & H2 & _ & Hf & _ & He).
  rewrite Hti in Hi'. injection Hi' as <-. split; [by exists f0, f1, f2|].
  intros Hfl. destruct (He Hfl) as (e & ? & ?). by exists e.
Qed.

Lemma forces_assigned_energy_gated_witness :
  ∃ st_e st_n,
    compute ref_externals 3 1 (two_atoms 0) = Ok st_e ∧
    compute ref_externals 1 1 (two_atoms 0) = Ok st_n ∧
    atom_f (atom st_e) = [dvec 9 0 0; dvec 0 0 0; dvec 5 5 5; dvec 5 5 5] ∧
    eatom (pair_base (pair st_n)) = replicate 4 (d_of_Z 3) ∧
    eatom (pair_base (pair st_e)) !! 0%nat = Some (d_of_Z 11) ∧
    eatom (pair_base (pair st_e)) !! 1%nat = Some (d_of_Z 10).
Proof.
  destruct (compute ref_externals 3 1 (two_atoms 0)) as [st_e|e] eqn:He;
    [|vm_compute in He; discriminate He].
  destruct (compute ref_externals 1 1 (two_atoms 0)) as [st_n|e] eqn:Hn;
    [|vm_compute in Hn; discriminate Hn].
  destruct (forces_assigned_energy_gated _ _ _ _ _ Hn)
    as (g & output & forces & ae & t2i & _ & _ & _ & _ & Hclear & _).
  exists st_e, st_n. split; [reflexivity|]. split; [reflexivity|].
  split; [vm_compute in He; injection He as <-; vm_compute; reflexivity|].
  split; [rewrite Hclear; vm_compute; reflexivity|].
  vm_compute in He. injection He as <-. split; vm_compute; reflexivity.
Defined.

(** C6.  When the virial is requested ([vflag] non-zero) and [compute]
    completes, the six entries of the host's [virial] array are the entries
    [v[0][0][0]], [v[0][1][1]], [v[0][2][2]], [v[0][0][1]], [v[0][0][2]]
    and [v[0][1][2]] of the model's ["virial"] tensor, in this order
    (xx, yy, zz, xy, xz, yz), each converted to [double] and otherwise
    unchanged. *)
Theorem virial_flattened_in_order (E : externals) (eflag vflag : Z) (st st' : lammps) :
  compute E eflag vflag st = Ok st' → vflag ≠ 0 →
  ∃ g output v v00 v11 v22 v01 v02 v12,
    model_forward E g = Some output ∧ output !! "virial" = Some v ∧
    acc3 v 0 0 0 = Ok v00 ∧ acc3 v 0 1 1 = Ok v11 ∧ acc3 v 0 2 2 = Ok v22 ∧
    acc3 v 0 0 1 = Ok v01 ∧ acc3 v 0 0 2 = Ok v02 ∧ acc3 v 0 1 2 = Ok v12 ∧
    virial (pair_base (pair st')) !! 0%nat = Some (f2d v00) ∧
    virial (pair_base (pair st')) !! 1%nat = Some (f2d v11) ∧
    virial (pair_base (pair st')) !! 2%nat = Some (f2d v22) ∧
    virial (pair_base (pair st')) !! 3%nat = Some (f2d v01) ∧
    virial (pair_base (pair st')) !! 4%nat = Some (f2d v02) ∧
    virial (pair_base (pair st')) !! 5%nat = Some (f2d v12).
Proof.
  intros (gb & g & output & r & h & Hgb & Hg & Ho & Hr & _ & _ & _ & _ & _ & Hv & _)
    %compute_Ok Hvflag.
  apply fetch_Ok in Hr as (_ & _ & _ & _ & _ & _ & _ & _ & Hvir).
  destruct (Hvir Hvflag) as (v & Hv' & Hfl).
  apply flatten_virial_Ok in Hfl
    as (v00 & v11 & v22 & v01 & v02 & v12 & ? & ? & ? & ? & ? & ? & ? & ? & ? & ? & ? & ? & _).
  exists g, output, v, v00, v11, v22, v01, v02, v12. rewrite Hv.
  repeat (split; [done|]). done.
Qed.

Lemma virial_flattened_in_order_witness :
  ∃ st', compute ref_externals 3 1 (two_atoms 0) = Ok st' ∧
    virial (pair_base (pair st')) = d_of_Z <$> [11; 22; 33; 12; 13; 23].
Proof.
  destruct (compute ref_externals 3 1 (two_atoms 0)) as [st'|e] eqn:Hc;
    [|vm_compute in Hc; discriminate Hc].
  exists st'. split; [reflexivity|].
  assert ((1 : Z) ≠ 0) as Hv by discriminate.
  destruct (virial_flattened_in_order _ _ _ _ _ Hc Hv)
    as (g & output & v & v00 & v11 & v22 & v01 & v02 & v12 & Ho & Hvo &
        H00 & H11 & H22 & H01 & H02 & H12 & L0 & L1 & L2 & L3 & L4 & L5).
  assert (length (virial (pair_base (pair st'))) = 6%nat) as Hlen
    by (vm_compute in Hc; injection Hc as <-; reflexivity).
  assert (v = Tensor [1; 3; 3] (f_of_Z <$> [11; 12; 13; 21; 22; 23; 31; 32; 33])) as ->.
  { unfold ref_externals, model_forward, ref_forward in Ho. injection Ho as <-.
    unfold ref_output in Hvo. vm_compute in Hvo. injection Hvo as <-. reflexivity. }
  vm_compute in H00, H11, H22, H01, H02, H12.
  injection H00 as <-. injection H11 as <-. injection H22 as <-.
  injection H01 as <-. injection H02 as <-. injection H12 as <-.
  destruct (virial (pair_base (pair st'))) as [|a0 [|a1 [|a2 [|a3 [|a4 [|a5 [|a6 l]]]]]]];
    try discriminate Hlen.
  simpl in L0, L1, L2, L3, L4, L5.
  injection L0 as ->. injection L1 as ->. injection L2 as ->.
  injection L3 as ->. injection L4 as ->. injection L5 as ->.
  vm_compute. reflexivity.
Defined.

(** C7.  Whenever the per-atom virial flag is set after [ev_init],
    [compute] does not complete: it ends in an error, and when the graph
    was built and the model's outputs were fetched, that error is the fatal
    [error->all] "does not support per-atom virial", raised before the
    scatter loop writes anything.  The embedding of [compute] has no
    per-atom virial array at all: the source never writes one. *)
Theorem per_atom_virial_rejected (E : externals) (eflag vflag : Z) (st : lammps) :
  vflag_atom (ev_init E eflag vflag st) ≠ 0 →
  (∃ e, compute E eflag vflag st = Err e) ∧
  (∀ gb g output r,
     build_graph E (call_ev_init E eflag vflag st) = Ok gb → assemble gb = Ok g →
     model_forward E g = Some output →
     fetch vflag (ev_init E eflag vflag st) output = Ok r →
     compute E eflag vflag st =
       Err (ErrorAll "Pair style NEQUIP does not support per-atom virial")).
Proof.
  intros Hflag.
  assert (∀ gb, build_graph E (call_ev_init E eflag vflag st) = Ok gb →
                pair_base (pair (gb_state gb)) = ev_init E eflag vflag st) as Hbase.
  { intros gb (nedges & inv & _ & _ & -> & _)%build_graph_Ok. by rewrite prepared_base. }
  split.
  - destruct (compute E eflag vflag st) as [st'|e] eqn:Hc; [exfalso|by exists e].
    apply compute_Ok in Hc as (gb & g & output & r & h & Hgb & _ & _ & Hr & Hva & _).
    rewrite (Hbase gb Hgb) in Hr.
    apply fetch_Ok in Hr as (_ & _ & _ & _ & _ & Hvf & _). congruence.
  - intros gb g output r Hgb Hg Ho Hr. unfold compute.
    rewrite Hgb. simpl. rewrite Hg. simpl. rewrite Ho. simpl.
    rewrite (Hbase gb Hgb), Hr. simpl. unfold scatter.
    apply fetch_Ok in Hr as (_ & _ & _ & _ & _ & Hvf & _).
    rewrite bool_decide_eq_true_2; [done|]. by rewrite Hvf.
Qed.

Lemma per_atom_virial_rejected_witness :
  ∃ e, compute ref_externals 0 4 (two_atoms 0) = Err e.
Proof.
  apply (per_atom_virial_rejected ref_externals 0 4 (two_atoms 0)).
  vm_compute. discriminate.
Defined.

Example per_atom_virial_message :
  compute ref_externals 0 4 (two_atoms 0) =
    Err (ErrorAll "Pair style NEQUIP does not support per-atom virial").
Proof. vm_compute. reflexivity. Qed.

(** C8.  If the host has Newton pairs enabled, [init_style] ends in a fatal
    error (the Newton one as soon as atom IDs are enabled) and every
    [compute] call ends in the fatal error "requires 'newton off'", which
    is raised before the graph is built, the model is called or any force
    is written. *)
Theorem newton_pair_rejected (E : externals) (eflag vflag : Z) (st : lammps) :
  force_newton_pair st = 1 →
  (∃ msg, init_style st = Err (ErrorAll msg)) ∧
  (atom_tag_enable (atom st) ≠ 0 →
     init_style st = Err (ErrorAll "Pair style PHIN requires newton pair off")) ∧
  compute E eflag vflag st = Err (ErrorAll "Pair style PHIN requires 'newton off'").
Proof.
  intros Hn. split; [|split].
  - unfold init_style. case_bool_decide; [by eexists|].
    simpl. rewrite bool_decide_eq_true_2 by done. by eexists.
  - intros Ht. unfold init_style. rewrite bool_decide_eq_false_2 by done.
    simpl. by rewrite bool_decide_eq_true_2.
  - unfold compute, build_graph.
    assert (force_newton_pair (grow_uncertainties (call_ev_init E eflag vflag st)) = 1) as Hg
      by (unfold grow_uncertainties; case_bool_decide; exact Hn).
    cbv zeta. rewrite (bool_decide_eq_true_2 _ Hg). reflexivity.
Qed.

Lemma newton_pair_rejected_witness :
  init_style (two_atoms 1) = Err (ErrorAll "Pair style PHIN requires newton pair off") ∧
  compute ref_externals 3 1 (two_atoms 1) =
    Err (ErrorAll "Pair style PHIN requires 'newton off'").
Proof.
  destruct (newton_pair_rejected ref_externals 3 1 (two_atoms 1) eq_refl) as (_ & Hi & Hc).
  split; [apply Hi; vm_compute; discriminate|exact Hc].
Defined.

(** C4.  In every configuration in which no visited pair passes the cutoff
    filter, [compute] does not complete and the model is never invoked:
    whatever the model is, the call ends in the same error, and once the
    graph buffers have been built that error is the fatal
    "No Edges Detected". *)
Theorem zero_edges_fatal (E : externals) (eflag vflag : Z) (st : lammps) :
  qualifying E st = [] →
  (∃ e, ∀ fwd, compute (with_forward fwd E) eflag vflag st = Err e) ∧
  (∀ gb, build_graph E (call_ev_init E eflag vflag st) = Ok gb →
     edge_counter (gb_buffers gb) = 0 ∧
     compute E eflag vflag st = Err (ErrorAll "No Edges Detected")).
Proof.
  intros Hq.
  assert (∀ gb, build_graph E (call_ev_init E eflag vflag st) = Ok gb →
                edge_counter (gb_buffers gb) = 0 ∧
                assemble gb = Err (ErrorAll "No Edges Detected")) as Hzero.
  { intros gb Hgb. apply build_graph_holds in Hgb as [Hec _].
    unfold emitted in Hec.
    change (qualifying E (call_ev_init E eflag vflag st)) with (qualifying E st) in Hec.
    rewrite Hq in Hec. simpl in Hec. split; [done|].
    unfold assemble. by rewrite bool_decide_eq_true_2. }
  split.
  - destruct (build_graph E (call_ev_init E eflag vflag st)) as [gb|e] eqn:Hgb.
    + exists (ErrorAll "No Edges Detected"). intros fwd. unfold compute.
      change (build_graph (with_forward fwd E)
                (call_ev_init (with_forward fwd E) eflag vflag st))
        with (build_graph E (call_ev_init E eflag vflag st)).
      rewrite Hgb. simpl. by rewrite (proj2 (Hzero gb eq_refl)).
    + exists e. intros fwd. unfold compute.
      change (build_graph (with_forward fwd E)
                (call_ev_init (with_forward fwd E) eflag vflag st))
        with (build_graph E (call_ev_init E eflag vflag st)).
      by rewrite Hgb.
  - intros gb Hgb. destruct (Hzero gb Hgb) as [Hec Ha]. split; [done|].
    unfold compute. rewrite Hgb. simpl. by rewrite Ha.
Qed.

Lemma zero_edges_fatal_witness :
  qualifying ref_externals two_far_atoms = [] ∧
  compute ref_externals 3 1 two_far_atoms = Err (ErrorAll "No Edges Detected").
Proof.
  assert (qualifying ref_externals two_far_atoms = []) as Hq by (vm_compute; reflexivity).
  split; [exact Hq|].
  destruct (zero_edges_fatal ref_externals 3 1 two_far_atoms Hq) as [_ Hfatal].
  destruct (build_graph ref_externals (call_ev_init ref_externals 3 1 two_far_atoms))
    as [gb|e] eqn:Hgb; [|vm_compute in Hgb; discriminate Hgb].
  exact (proj2 (Hfatal gb eq_refl)).
Defined.

(** With no neighbor at all the first check only tells the timer to stop;
    the run goes on to the second check, which is fatal. *)
Example no_neighbors_timeout_then_fatal :
  ∃ gb, build_graph ref_externals (call_ev_init ref_externals 3 1 two_lonely_atoms) = Ok gb ∧
        timer_timeout (gb_state gb) = true ∧
        compute ref_externals 3 1 two_lonely_atoms = Err (ErrorAll "No Edges Detected").
Proof.
  destruct (build_graph ref_externals (call_ev_init ref_externals 3 1 two_lonely_atoms))
    as [gb|e] eqn:Hgb; [|vm_compute in Hgb; discriminate Hgb].
  exists gb. split; [reflexivity|]. split; [|vm_compute; reflexivity].
  vm_compute in Hgb. injection Hgb as <-. reflexivity.
Qed.

(** C9 does not hold as stated: ["uncertainties"] is fetched with [at] on
    every call.  With the answer of the stand-in model [compute] completes; with
    the same answer minus its ["uncertainties"] entry the lookup throws. *)
Lemma missing_uncertainties_aborts :
  is_Ok (compute ref_externals 3 1 (two_atoms 0)) ∧
  compute (with_forward forward_without_uncertainties ref_externals) 3 1 (two_atoms 0)
    = Err (KeyMissing "uncertainties").
Proof.
  split; [|vm_compute; reflexivity].
  destruct (compute ref_externals 3 1 (two_atoms 0)) as [st'|e] eqn:Hc;
    [by exists st'|vm_compute in Hc; discriminate Hc].
Qed.

(** C9, as the code has it.  The per-node auxiliary scalar is the model
    output named ["uncertainties"], and [compute] requires it: when the response bundle
    lacks that entry the call does not complete, and every call that
    completes has read it from the response and (tags being distinct) has
    stored, for each local atom, the value of the node [tag - 1] in the
    per-atom [uncertainties] array. *)
Theorem uncertainties_required (E : externals) (eflag vflag : Z) (st : lammps) :
  (∀ gb g output,
     build_graph E (call_ev_init E eflag vflag st) = Ok gb → assemble gb = Ok g →
     model_forward E g = Some output → output !! "uncertainties" = None →
     ∃ e, compute E eflag vflag st = Err e) ∧
  (∀ st', compute E eflag vflag st = Ok st' →
     ∃ g output u,
       model_forward E g = Some output ∧ output !! "uncertainties" = Some u ∧
       (NoDup (tag_of st <$> local_atoms st) →
        ∀ i, i ∈ local_atoms st →
          ∃ v, acc2 u (tag_of st i - 1) 0 = Ok v ∧
               uncertainties (pair st') !! Z.to_nat i = Some (Some (f2d v)))).
Proof.
  split.
  - intros gb g output Hgb Hg Ho Hnone.
    destruct (compute E eflag vflag st) as [st'|e] eqn:Hc; [exfalso|by exists e].
    apply compute_Ok in Hc as (gb' & g' & output' & r & h & Hgb' & Hg' & Ho' & Hr & _).
    rewrite Hgb in Hgb'. injection Hgb' as <-. rewrite Hg in Hg'. injection Hg' as <-.
    rewrite Ho in Ho'. injection Ho' as <-.
    apply fetch_Ok in Hr as (_ & _ & Hu & _). congruence.
  - intros st' Hc.
    pose proof Hc as (gb & g & output & r & h & Hgb & Hg & Ho & Hr & _)%compute_Ok.
    apply fetch_Ok in Hr as (_ & _ & Hu & _).
    exists g, output, (r_uncertainties_itag r). split; [done|]. split; [done|].
    intros Hnd i Hi.
    destruct (compute_scatter _ _ _ _ _ Hc Hnd)
      as (gb' & g' & output' & r' & Hgb' & Hg' & Ho' & Hr' & Hnodes & _).
    apply fetch_Ok in Hr' as (_ & _ & Hu' & _).
    rewrite Hgb in Hgb'. injection Hgb' as <-. rewrite Hg in Hg'. injection Hg' as <-.
    rewrite Ho in Ho'. injection Ho' as <-. rewrite Hu in Hu'. injection Hu' as Hsame.
    destruct (build_graph_local _ _ _ Hgb Hnd i Hi) as (Hi0 & Hd & Hti).
    destruct (Hnodes _ Hd) as (i' & f0 & f1 & f2 & v & Hi' & _ & _ & _ & _ & Hv & _ & Hun & _).
    rewrite Hti in Hi'. injection Hi' as <-. rewrite <-Hsame in Hv.
    exists v. split; [exact Hv|exact Hun].
Qed.

Lemma uncertainties_required_witness :
  (∃ e, compute (with_forward forward_without_uncertainties ref_externals) 3 1 (two_atoms 0)
          = Err e) ∧
  (∃ st', compute ref_externals 3 1 (two_atoms 0) = Ok st' ∧
          uncertainties (pair st') !! 0%nat = Some (Some (d_of_Z 21)) ∧
          uncertainties (pair st') !! 1%nat = Some (Some (d_of_Z 20))).
Proof.
  split.
  - set (E := with_forward forward_without_uncertainties ref_externals).
    destruct (uncertainties_required E 3 1 (two_atoms 0)) as [Hmissing _].
    destruct (build_graph E (call_ev_init E 3 1 (two_atoms 0))) as [gb|e] eqn:Hgb;
      [|vm_compute in Hgb; discriminate Hgb].
    destruct (assemble gb) as [g|e] eqn:Hg; cycle 1.
    { assert ((gb' ← build_graph E (call_ev_init E 3 1 (two_atoms 0)); assemble gb') = Err e)
        as H by (rewrite Hgb; exact Hg).
      vm_compute in H. discriminate H. }
    apply (Hmissing gb g (delete "uncertainties" (ref_output g)) eq_refl Hg eq_refl).
    apply lookup_delete_eq.
  - destruct (compute ref_externals 3 1 (two_atoms 0)) as [st'|e] eqn:Hc;
      [|vm_compute in Hc; discriminate Hc].
    exists st'. split; [reflexivity|].
    destruct (uncertainties_required ref_externals 3 1 (two_atoms 0)) as [_ Hread].
    destruct (Hread st' Hc) as (g & output & u & Ho & Hu & Hstored).
    vm_compute in Hc. injection Hc as <-. split; vm_compute; reflexivity.
Defined.

(** C5 does not hold as stated: nothing in [compute] looks at the sign of
    an axis length.  With [boxlo[0] = 0] and [boxhi[0] = -10] the lattice matrix is
    built with the diagonal entry [-10], it is handed to the model, and
    [compute] completes. *)
Lemma inverted_box_accepted :
  ∃ gb g,
    build_graph ref_externals (call_ev_init ref_externals 3 1 inverted_box) = Ok gb ∧
    assemble gb = Ok g ∧
    is_Ok (compute ref_externals 3 1 inverted_box) ∧
    dsub (c0 (domain_boxhi (domain inverted_box))) (c0 (domain_boxlo (domain inverted_box)))
      = d_of_Z (-10) ∧
    c0 (c0 (in_cell g)) = f_of_Z (-10).
Proof.
  destruct (build_graph ref_externals (call_ev_init ref_externals 3 1 inverted_box))
    as [gb|e] eqn:Hgb; [|vm_compute in Hgb; discriminate Hgb].
  destruct (assemble gb) as [g|e] eqn:Hg; cycle 1.
  { assert ((gb' ← build_graph ref_externals (call_ev_init ref_externals 3 1 inverted_box);
             assemble gb') = Err e) as H by (rewrite Hgb; exact Hg).
    vm_compute in H. discriminate H. }
  exists gb, g. split; [reflexivity|]. split; [exact Hg|]. split; [|split].
  - destruct (compute ref_externals 3 1 inverted_box) as [st'|e] eqn:Hc;
      [by exists st'|vm_compute in Hc; discriminate Hc].
  - vm_compute. reflexivity.
  - assert ((gb' ← build_graph ref_externals (call_ev_init ref_externals 3 1 inverted_box);
             assemble gb') = Ok g) as H by (rewrite Hgb; exact Hg).
    vm_compute in H. injection H as <-. vm_compute. reflexivity.
Qed.

(** C5, as the code has it.  The cell-geometry construction performs no
    check of the axis lengths.  Whenever the graph is built, the lattice
    matrix is [(Lx, 0, 0)], [(xy, Ly, 0)], [(xz, yz, Lz)] with
    [L = boxhi - boxlo] per axis, rounded to single precision, whatever the
    sign of the lengths, and this is the ["cell"] tensor handed to the
    model; and the fatal host errors of [compute] are the Newton-pair, the
    zero-edge and the per-atom-virial ones: none concerns the cell. *)
Theorem cell_built_without_check (E : externals) (st : lammps) :
  (∀ gb, build_graph E st = Ok gb →
     let lo := domain_boxlo (domain st) in
     let hi := domain_boxhi (domain st) in
     gb_cell gb =
       V3 (V3 (d2f (dsub (c0 hi) (c0 lo))) fzero fzero)
          (V3 (d2f (domain_xy (domain st))) (d2f (dsub (c1 hi) (c1 lo))) fzero)
          (V3 (d2f (domain_xz (domain st))) (d2f (domain_yz (domain st)))
              (d2f (dsub (c2 hi) (c2 lo)))) ∧
     ∀ g, assemble gb = Ok g → in_cell g = gb_cell gb) ∧
  (∀ eflag vflag msg, compute E eflag vflag st = Err (ErrorAll msg) →
     msg = "Pair style PHIN requires 'newton off'" ∨
     msg = "No Edges Detected" ∨
     msg = "Pair style NEQUIP does not support per-atom virial").
Proof.
  split.
  - intros gb (nedges & inv & _ & _ & _ & _ & Hcell & _)%build_graph_Ok. simpl.
    split; [rewrite Hcell; reflexivity|].
    by intros g (_ & r0 & r1 & sh & _ & ->)%assemble_Ok.
  - intros eflag vflag msg. apply compute_ErrorAll.
Qed.

Lemma cell_built_without_check_witness :
  ∃ gb, build_graph ref_externals inverted_box = Ok gb ∧
    gb_cell gb = V3 (V3 (f_of_Z (-10)) fzero fzero)
                    (V3 fzero (f_of_Z 10) fzero)
                    (V3 fzero fzero (f_of_Z 10)).
Proof.
  destruct (build_graph ref_externals inverted_box) as [gb|e] eqn:Hgb;
    [|vm_compute in Hgb; discriminate Hgb].
  exists gb. split; [reflexivity|].
  destruct (cell_built_without_check ref_externals inverted_box) as [Hcell _].
  destruct (Hcell gb Hgb) as [-> _]. vm_compute. reflexivity.
Defined.

(** * Further properties of the plugin *)

(** ** The request handed to the model *)


Lemma store_tags_types st d :
  store_tags st = Ok d →
  types_stored st (take (Z.to_nat (list_inum (neigh st))) (list_ilist (neigh st))) d.
Proof.
  unfold store_tags. intros H%for_zget. revert H.
  set (n := Z.to_nat (list_inum (neigh st))).
  set (nl := Z.to_nat (atom_nlocal (atom st))).
  intros H.
  cut (tags_stored st n nl (take n (list_ilist (neigh st))) d ∧
       types_stored st (take n (list_ilist (neigh st))) d); [by intros [_ ?]|].
  revert H. apply (foldM_invariant
    (λ done_ d, tags_stored st n nl done_ d ∧ types_stored st done_ d)).
  - split.
    + unfold tags_stored. simpl. rewrite !length_replicate.
      split; [done|]. split; [done|]. split; [done|].
      split; [|intros _]; by intros i ?%elem_of_nil.
    + intros _ i ?%elem_of_nil. done.
  - intros done_ a t t' [Ht Hty] Hb. split; [by eapply store_tag_stored|].
    destruct Ht as (Hl1 & Hl2 & Hl3 & Hrange & _).
    unfold store_tag in Hb. inv_ok.
    repeat match goal with
           | H : zset _ _ _ _ = Ok _ |- _ => apply zset_Ok in H as [? ->]
           end.
    match goal with H : zget _ (atom_tag _) a = Ok ?t |- _ =>
      assert (tag_of st a = t) as Htag by apply (at_zget _ _ _ _ _ H) end.
    match goal with
      H1 : zget _ (atom_type _) a = Ok ?ty, H2 : zget _ (type_mapper _) ?ty = Ok ?m |- _ =>
      assert (mapped_type_of st a = m) as Hm
        by (unfold mapped_type_of; rewrite (at_zget _ _ _ _ _ H1); apply (at_zget _ _ _ _ _ H2))
    end.
    subst. unfold types_stored. simpl. rewrite fmap_app. simpl.
    intros [Hnd [Hnotin _]]%NoDup_app i [Hi| ->%list_elem_of_singleton]%elem_of_app.
    + assert (tag_of st i ≠ tag_of st a) as Hne.
      { intros Heq. apply (Hnotin (tag_of st i)).
        - apply list_elem_of_fmap. by exists i.
        - rewrite Heq. by apply list_elem_of_singleton. }
      destruct (Hrange i Hi) as (_ & ? & _).
      rewrite list_lookup_insert_ne by lia. by apply Hty.
    + rewrite list_lookup_insert_eq by lia. done.
Qed.





(** With pairwise distinct tags on the local atoms, the node tensors are
    the host data in tag order: node [tag(i) - 1] carries the
    single-precision position and the mapped type of the local atom [i],
    and every node in [0, N) is the node of one local atom. *)
Theorem nodes_are_atoms_in_tag_order (E : externals) (st : lammps) gb g :
  build_graph E st = Ok gb → assemble gb = Ok g →
  NoDup (tag_of st <$> local_atoms st) →
  (∀ i, i ∈ local_atoms st →
     0 ≤ tag_of st i - 1 < atom_nlocal (atom st) ∧
     in_pos g !! Z.to_nat (tag_of st i - 1) = Some (vmap d2f (x_of st i)) ∧
     in_atom_types g !! Z.to_nat (tag_of st i - 1) = Some (mapped_type_of st i)) ∧
  (∀ d, 0 ≤ d < atom_nlocal (atom st) →
     ∃ i, i ∈ local_atoms st ∧ tag_of st i - 1 = d).
Proof.
  intros Hb Hg Hnd. split.
  - intros i Hi.
    destruct (build_graph_local _ _ _ Hb Hnd i Hi) as (_ & Hr & _).
    pose proof (build_graph_pos _ _ _ Hb Hnd i Hi) as Hp.
    pose proof Hb as (nedges & inv & _ & Hn & _ & Hst & _)%build_graph_Ok.
    apply store_tags_types in Hst. unfold types_stored, tag_of, mapped_type_of in Hst.
    rewrite prepared_atom, prepared_neigh, Hn in Hst.
    assert (type_mapper (pair (prepared st nedges)) = type_mapper (pair st)) as Htm
      by (unfold prepared, grow_uncertainties; by repeat case_bool_decide).
    rewrite Htm in Hst. specialize (Hst Hnd i Hi).
    apply assemble_Ok in Hg as (_ & r0 & r1 & sh & _ & ->). simpl. done.
  - intros d Hd. destruct (build_graph_tags _ _ _ Hb Hnd) as [_ Ht].
    destruct (Ht d Hd) as (i & Hi & _ & Htag & _). by exists i.
Qed.

Lemma nodes_are_atoms_in_tag_order_witness :
  ∃ gb g, build_graph ref_externals (two_atoms 0) = Ok gb ∧ assemble gb = Ok g ∧
    in_atom_types g !! 1%nat = Some 1 ∧ in_atom_types g !! 0%nat = Some 0.
Proof.
  assert (NoDup (tag_of (two_atoms 0) <$> local_atoms (two_atoms 0))) as Hnd.
  { vm_compute. apply NoDup_cons. split; [|apply NoDup_singleton].
    intros H%list_elem_of_singleton. discriminate H. }
  destruct (build_graph ref_externals (two_atoms 0)) as [gb|e] eqn:Hb;
    [|vm_compute in Hb; discriminate Hb].
  destruct (assemble gb) as [g|e] eqn:Hg; cycle 1.
  { assert ((gb' ← build_graph ref_externals (two_atoms 0); assemble gb') = Err e) as H
      by (rewrite Hb; exact Hg).
    vm_compute in H. discriminate H. }
  destruct (nodes_are_atoms_in_tag_order ref_externals (two_atoms 0) gb g Hb Hg Hnd)
    as [Hnodes _].
  exists gb, g. split; [reflexivity|]. split; [exact Hg|]. split.
  - destruct (Hnodes 0) as (_ & _ & H); [vm_compute; left|exact H].
  - destruct (Hnodes 1) as (_ & _ & H); [vm_compute; right; left|exact H].
Defined.

(** ** The response of the model *)

Lemma accessor_dims n t a : accessor n t = Ok a → length (sizes t) = n.
Proof. unfold accessor. case_bool_decide; [done|discriminate]. Qed.

Lemma fetch_dims vflag b output r :
  fetch vflag b output = Ok r →
  length (sizes (r_forces r)) = 2%nat ∧
  length (sizes (r_atomic_energies r)) = 2%nat ∧
  length (sizes (r_uncertainties_itag r)) = 2%nat ∧
  (vflag ≠ 0 → ∃ v, output !! "virial" = Some v ∧ length (sizes v) = 3%nat).
Proof.
  unfold fetch. intros H.
  apply bind_Ok in H as (ft & _ & H). apply bind_Ok in H as (fa & Hfa & H).
  apply bind_Ok in H as (te & _ & H). apply bind_Ok in H as (e0 & _ & H).
  apply bind_Ok in H as (at_ & _ & H). apply bind_Ok in H as (aa & Haa & H).
  apply bind_Ok in H as (ut & _ & H). apply bind_Ok in H as (ua & Hua & H).
  apply bind_Ok in H as (b' & Hb' & H). injection H as <-. simpl.
  pose proof (accessor_Ok _ _ _ Hfa) as ->. pose proof (accessor_Ok _ _ _ Haa) as ->.
  pose proof (accessor_Ok _ _ _ Hua) as ->.
  apply accessor_dims in Hfa, Haa, Hua.
  split; [done|]. split; [done|]. split; [done|]. intros Hv.
  rewrite bool_decide_eq_true_2 in Hb' by done.
  apply bind_Ok in Hb' as (vt & Hvt%dict_at_Ok & Hb').
  apply bind_Ok in Hb' as (va & Hva%accessor_dims & _). by exists vt.
Qed.

Lemma dict_at_Err d key e : dict_at d key = Err e → e = KeyMissing key ∧ d !! key = None.
Proof. unfold dict_at. destruct (d !! key); [discriminate|]. by intros [= <-]. Qed.

Lemma fetch_KeyMissing vflag b output k :
  fetch vflag b output = Err (KeyMissing k) →
  output !! k = None ∧
  (k ∈ ["forces"; "total_energy"; "atomic_energy"; "uncertainties"] ∨
   (k = "virial" ∧ vflag ≠ 0)).
Proof.
  unfold fetch, flatten_virial, acc3, accessor. intros H.
  repeat match goal with
  | H : Ok _ = Err _ |- _ => discriminate H
  | H : Err (TorchError _) = Err _ |- _ => discriminate H
  | H : (_ ≫= _) = Err _ |- _ => apply bind_Err in H as [H|(? & _ & H)]
  | H : dict_at _ _ = Err (KeyMissing _) |- _ =>
      apply dict_at_Err in H as [[= <-] H]
  | H : zget _ _ _ = Err _ |- _ => apply zget_Err in H; discriminate H
  | H : zset _ _ _ _ = Err _ |- _ => apply zset_Err in H; discriminate H
  | H : (if bool_decide ?P then _ else _) = Err _ |- _ => destruct (bool_decide_reflect P)
  end; (split; [done|]); try (left; set_solver); right; done.
Qed.

Lemma build_graph_Err E st e :
  build_graph E st = Err e →
  e = ErrorAll "Pair style PHIN requires 'newton off'" ∨
  e = AssertionFailed "inum==nlocal" ∨ (∃ w, e = TorchError w) ∨ (∃ w, e = Undefined w).
Proof.
  unfold build_graph, accumulate, thrown. intros H.
  repeat match goal with
  | H : (_ ≫= _) = Err _ |- _ => apply bind_Err in H as [H|(? & _ & H)]
  | H : (if ?c then _ else _) = Err _ |- _ => destruct c
  | H : match ?o with Some _ => _ | None => _ end = Err _ |- _ => destruct o
  | H : store_tags _ = Err _ |- _ => apply store_tags_Err in H as [? ->]
  | H : edge_loop _ _ _ _ _ = Err _ |- _ => apply edge_loop_Err in H as [? ->]
  | H : Ok _ = Err _ |- _ => discriminate H
  | H : Err _ = Err _ |- _ => injection H as <-
  end; eauto.
Qed.

Lemma compute_KeyMissing E eflag vflag st k :
  compute E eflag vflag st = Err (KeyMissing k) →
  ∃ gb g output,
    build_graph E (call_ev_init E eflag vflag st) = Ok gb ∧ assemble gb = Ok g ∧
    model_forward E g = Some output ∧
    fetch vflag (pair_base (pair (gb_state gb))) output = Err (KeyMissing k).
Proof.
  unfold compute. intros H.
  apply bind_Err in H as [H|(gb & Hgb & H)].
  { apply build_graph_Err in H as [H|[H|[[w H]|[w H]]]]; discriminate H. }
  apply bind_Err in H as [H|(g & Hg & H)].
  { unfold assemble in H. apply bind_Err in H as [H|([] & _ & H)].
    - case_bool_decide; discriminate H.
    - apply bind_Err in H as [H|([[r0 r1] sh] & _ & H)]; [|discriminate H].
      apply shorten_Err in H as [w H]. discriminate H. }
  apply bind_Err in H as [H|(output & Ho%thrown_Ok & H)].
  { unfold thrown in H. destruct (model_forward E g); discriminate H. }
  apply bind_Err in H as [H|(r & _ & H)]; [by exists gb, g, output|].
  unfold scatter in H. apply bind_Err in H as [H|([] & _ & H)].
  - case_bool_decide; discriminate H.
  - apply bind_Err in H as [H|(h & _ & H)]; [|discriminate H].
    apply scatter_loop_Err in H as [w H]. discriminate H.
Qed.

(** The contract with the model.  A call of [compute] that completes has
    found in the response the two-dimensional tensors ["forces"],
    ["atomic_energy"] and ["uncertainties"], a non-empty ["total_energy"]
    whose first element is now [eng_vdwl], and, when the virial was
    requested, a three-dimensional ["virial"].  A call that ends in the
    missing-key exception names one of these entries, absent from the
    response (["virial"] only when it was requested). *)
Theorem response_contract (E : externals) (eflag vflag : Z) (st : lammps) :
  (∀ st', compute E eflag vflag st = Ok st' →
     ∃ g output forces total_energy e0 atomic_energy uncertainties_t,
       model_forward E g = Some output ∧
       output !! "forces" = Some forces ∧ length (sizes forces) = 2%nat ∧
       output !! "total_energy" = Some total_energy ∧
       data total_energy !! 0%nat = Some e0 ∧
       eng_vdwl (pair_base (pair st')) = f2d e0 ∧
       output !! "atomic_energy" = Some atomic_energy ∧
       length (sizes atomic_energy) = 2%nat ∧
       output !! "uncertainties" = Some uncertainties_t ∧
       length (sizes uncertainties_t) = 2%nat ∧
       (vflag ≠ 0 → ∃ v, output !! "virial" = Some v ∧ length (sizes v) = 3%nat)) ∧
  (∀ k, compute E eflag vflag st = Err (KeyMissing k) →
     (k ∈ ["forces"; "total_energy"; "atomic_energy"; "uncertainties"] ∨
      (k = "virial" ∧ vflag ≠ 0)) ∧
     ∃ g output, model_forward E g = Some output ∧ output !! k = None).
Proof.
  split.
  - intros st' (gb & g & output & r & h & _ & _ & Ho & Hr & _ & _ & _ & _ & _ & _ & Hen)
      %compute_Ok.
    pose proof (fetch_dims _ _ _ _ Hr) as (Hd1 & Hd2 & Hd3 & Hd4).
    apply fetch_Ok in Hr as (H1 & H2 & H3 & (te & e0 & Hte & He0 & Heng) & _).
    exists g, output, (r_forces r), te, e0, (r_atomic_energies r), (r_uncertainties_itag r).
    rewrite Hen. repeat (split; [done|]). done.
  - intros k (gb & g & output & _ & _ & Ho & [Hnone Hk]%fetch_KeyMissing)%compute_KeyMissing.
    split; [done|]. by exists g, output.
Qed.

Lemma response_contract_witness :
  (∃ st', compute ref_externals 3 1 (two_atoms 0) = Ok st' ∧
          eng_vdwl (pair_base (pair st')) = d_of_Z 7) ∧
  ∃ g output,
    model_forward (with_forward forward_without_uncertainties ref_externals) g = Some output ∧
    output !! "uncertainties" = None.
Proof.
  split.
  - destruct (compute ref_externals 3 1 (two_atoms 0)) as [st'|e] eqn:Hc;
      [|vm_compute in Hc; discriminate Hc].
    exists st'. split; [reflexivity|].
    destruct (response_contract ref_externals 3 1 (two_atoms 0)) as [Hok _].
    destruct (Hok st' Hc)
      as (g & output & f & te & e0 & ae & un & Ho & _ & _ & Hte & He0 & -> & _).
    injection Ho as <-. vm_compute in Hte. injection Hte as <-.
    vm_compute in He0. injection He0 as <-. vm_compute. reflexivity.
  - set (E := with_forward forward_without_uncertainties ref_externals).
    destruct (response_contract E 3 1 (two_atoms 0)) as [_ Hmiss].
    destruct (Hmiss "uncertainties") as [_ (g & output & Ho & Hn)];
      [vm_compute; reflexivity|].
    by exists g, output.
Defined.

Lemma fetch_ignores_virial b output output' :
  (∀ k, k ≠ "virial" → output !! k = output' !! k) →
  fetch 0 b output = fetch 0 b output'.
Proof.
  intros Hsame. unfold fetch, dict_at.
  rewrite !(Hsame "forces"), !(Hsame "total_energy"), !(Hsame "atomic_energy"),
    !(Hsame "uncertainties") by discriminate.
  rewrite (bool_decide_eq_false_2 (0 ≠ 0)) by lia. done.
Qed.

(** The virial is read only on request: with [vflag = 0] the outcome of
    [compute] is the same for two models whose answers differ only in the
    ["virial"] entry, present or not, and a completed call leaves the
    [virial] array as [ev_init] set it. *)
Theorem virial_read_only_on_request (E : externals) (eflag : Z) (st : lammps) fwd' :
  (∀ g, same_but_virial (model_forward E g) (fwd' g)) →
  compute (with_forward fwd' E) eflag 0 st = compute E eflag 0 st ∧
  ∀ st', compute E eflag 0 st = Ok st' →
    virial (pair_base (pair st')) = virial (ev_init E eflag 0 st).
Proof.
  intros Hsame. split.
  - unfold compute.
    change (build_graph (with_forward fwd' E) (call_ev_init (with_forward fwd' E) eflag 0 st))
      with (build_graph E (call_ev_init E eflag 0 st)).
    destruct (build_graph E (call_ev_init E eflag 0 st)) as [gb|e]; [simpl|done].
    destruct (assemble gb) as [g|e]; [simpl|done].
    change (model_forward (with_forward fwd' E) g) with (fwd' g).
    specialize (Hsame g). unfold same_but_virial in Hsame.
    destruct (model_forward E g) as [o|], (fwd' g) as [o'|]; simpl; try done.
    by rewrite (fetch_ignores_virial _ o o').
  - intros st' (gb & g & output & r & h & Hgb & _ & _ & Hr & _ & _ & _ & _ & _ & Hv & _)
      %compute_Ok.
    apply build_graph_Ok in Hgb as (nedges & inv & _ & _ & Hst & _).
    rewrite Hst, prepared_base in Hr. simpl in Hr.
    apply fetch_Ok in Hr as (_ & _ & _ & _ & _ & _ & _ & Hvir & _).
    rewrite Hv. by apply Hvir.
Qed.

Lemma virial_read_only_on_request_witness :
  ∃ st', compute (with_forward forward_without_virial ref_externals) 3 0 (two_atoms 0) = Ok st' ∧
         compute ref_externals 3 0 (two_atoms 0) = Ok st' ∧
         virial (pair_base (pair st')) = replicate 6 dzero.
Proof.
  assert (∀ g, same_but_virial (model_forward ref_externals g) (forward_without_virial g))
    as Hsame.
  { intros g k Hk. simpl. by rewrite lookup_delete_ne. }
  destruct (virial_read_only_on_request ref_externals 3 (two_atoms 0) _ Hsame) as [Heq Hvir].
  destruct (compute ref_externals 3 0 (two_atoms 0)) as [st'|e] eqn:Hc;
    [|vm_compute in Hc; discriminate Hc].
  exists st'. split; [exact Heq|]. split; [reflexivity|].
  rewrite (Hvir st' eq_refl). vm_compute. reflexivity.
Defined.

(** ** What [compute] changes and what it leaves alone *)

Lemma scatter_loop_lengths eflag t2i forces ae un n h0 h :
  for_ n (scatter_node eflag t2i forces ae un) h0 = Ok h →
  length (h_f h) = length (h_f h0) ∧ length (h_eatom h) = length (h_eatom h0) ∧
  length (h_uncertainties h) = length (h_uncertainties h0).
Proof.
  intros H. apply (for_invariant (λ _ h,
    length (h_f h) = length (h_f h0) ∧ length (h_eatom h) = length (h_eatom h0) ∧
    length (h_uncertainties h) = length (h_uncertainties h0))) in H; [done|done|].
  clear H. intros k t t' _ (H1 & H2 & H3) Hb. unfold scatter_node in Hb.
  apply bind_Ok in Hb as (i & _ & Hb). apply bind_Ok in Hb as (f0 & _ & Hb).
  apply bind_Ok in Hb as (f1 & _ & Hb). apply bind_Ok in Hb as (f2 & _ & Hb).
  apply bind_Ok in Hb as (f' & [_ ->]%zset_Ok & Hb). apply bind_Ok in Hb as (e' & He & Hb).
  apply bind_Ok in Hb as (u & _ & Hb). apply bind_Ok in Hb as (un' & [_ ->]%zset_Ok & Hb).
  injection Hb as <-. simpl. rewrite !length_insert. split; [done|]. split; [|done].
  case_bool_decide.
  - apply bind_Ok in He as (e & _ & [_ ->]%zset_Ok). by rewrite length_insert.
  - by injection He as <-.
Qed.

Lemma compute_shape E eflag vflag st st' :
  compute E eflag vflag st = Ok st' →
  ∃ nedges r h,
    let st1 := prepared (call_ev_init E eflag vflag st) nedges in
    st' = set_atom_f (h_f h)
            (set_pair (set_base (set_eatom (h_eatom h) (r_pair r))
                         (set_uncertainties (h_uncertainties h) (nmax (pair st1)) (pair st1)))
                      st1) ∧
    vflag_atom (r_pair r) = 0 ∧
    eflag_atom (r_pair r) = eflag_atom (ev_init E eflag vflag st) ∧
    vflag_atom (r_pair r) = vflag_atom (ev_init E eflag vflag st) ∧
    length (h_f h) = length (atom_f (atom st)) ∧
    length (h_eatom h) = length (eatom (ev_init E eflag vflag st)) ∧
    length (h_uncertainties h) = length (uncertainties (pair st1)).
Proof.
  unfold compute. intros H.
  apply bind_Ok in H as (gb & Hgb & H). apply bind_Ok in H as (g & Hg & H).
  apply bind_Ok in H as (output & Ho & H). apply bind_Ok in H as (r & Hr & H).
  unfold scatter in H. apply bind_Ok in H as ([] & Hva%check_neg_Ok & H).
  apply bind_Ok in H as (h & Hh & H). injection H as <-.
  apply build_graph_Ok in Hgb as (nedges & inv & _ & _ & Hst & _).
  rewrite Hst in *. rewrite prepared_base in Hr.
  apply fetch_Ok in Hr as (_ & _ & _ & _ & Hef & Hvf & Hea & _).
  apply scatter_loop_lengths in Hh as (L1 & L2 & L3). simpl in *.
  rewrite prepared_f in L1. rewrite Hea in L2.
  exists nedges, r, h. repeat (split; [done || lia|]). done.
Qed.



Lemma scatter_loop_uncertainties eflag t2i forces ae un n h0 h :
  for_ n (scatter_node eflag t2i forces ae un) h0 = Ok h →
  ∀ idx : nat,
    h_uncertainties h !! idx = h_uncertainties h0 !! idx ∨
    ∃ d u, 0 ≤ d < n ∧ zget "tag2i" t2i d = Ok (Z.of_nat idx) ∧ acc2 un d 0 = Ok u ∧
           h_uncertainties h !! idx = Some (Some (f2d u)).
Proof.
  intros H.
  pose (P := λ (k : Z) (h : host_arrays), ∀ idx : nat,
    h_uncertainties h !! idx = h_uncertainties h0 !! idx ∨
    ∃ d u, 0 ≤ d < k ∧ zget "tag2i" t2i d = Ok (Z.of_nat idx) ∧ acc2 un d 0 = Ok u ∧
           h_uncertainties h !! idx = Some (Some (f2d u))).
  apply (for_invariant P) in H.
  - intros idx. destruct (H idx) as [?|(d & u & ? & ?)]; [by left|right].
    exists d, u. split; [lia|done].
  - intros idx. by left.
  - clear H. intros k t t' Hk Hinv Hb. unfold scatter_node in Hb.
    apply bind_Ok in Hb as (i & Hi & Hb). apply bind_Ok in Hb as (f0 & _ & Hb).
    apply bind_Ok in Hb as (f1 & _ & Hb). apply bind_Ok in Hb as (f2 & _ & Hb).
    apply bind_Ok in Hb as (f' & [Hfi _]%zset_Ok & Hb). apply bind_Ok in Hb as (e' & _ & Hb).
    apply bind_Ok in Hb as (u & Hu & Hb). apply bind_Ok in Hb as (un' & [Hui ->]%zset_Ok & Hb).
    injection Hb as <-. unfold P in *. simpl. intros idx.
    destruct (decide (idx = Z.to_nat i)) as [->|Hne].
    + right. exists k, u. rewrite Z2Nat.id by lia. split; [lia|].
      split; [done|]. split; [done|]. apply list_lookup_insert_eq. lia.
    + rewrite list_lookup_insert_ne by done.
      destruct (Hinv idx) as [?|(d & u' & ? & ?)]; [by left|right].
      exists d, u'. split; [lia|done].
Qed.

(** The per-atom [uncertainties] array grows and never shrinks: after a
    completed call its allocated size [nmax] is the larger of the previous
    one and the host's [atom->nmax], and an array that had [nmax] cells
    still has.  A reallocation discards the old content: every cell of the
    array after the call is then either uninitialised or the uncertainty of
    a node of this call; without reallocation the cells not written keep
    their value. *)
Theorem uncertainties_grow_only (E : externals) (eflag vflag : Z) (st st' : lammps) :
  compute E eflag vflag st = Ok st' →
  nmax (pair st') = Z.max (nmax (pair st)) (atom_nmax (atom st)) ∧
  (length (uncertainties (pair st)) = Z.to_nat (nmax (pair st)) →
   length (uncertainties (pair st')) = Z.to_nat (nmax (pair st'))) ∧
  ∃ g output u,
    model_forward E g = Some output ∧ output !! "uncertainties" = Some u ∧
    ∀ idx : nat,
      (∃ d x, 0 ≤ d < atom_nlocal (atom st) ∧ acc2 u d 0 = Ok x ∧
              uncertainties (pair st') !! idx = Some (Some (f2d x))) ∨
      (if bool_decide (nmax (pair st) < atom_nmax (atom st))
       then uncertainties (pair st') !! idx = None ∨
            uncertainties (pair st') !! idx = Some None
       else uncertainties (pair st') !! idx = uncertainties (pair st) !! idx).
Proof.
  intros Hc.
  assert (∃ nedges, nmax (pair st') = nmax (pair (prepared (call_ev_init E eflag vflag st) nedges)))
    as [nedges0 Hnmax].
  { pose proof Hc as (nedges & r0 & h0 & -> & _)%compute_shape. by exists nedges. }
  pose proof Hc
    as (gb & g & output & r & h & Hgb & _ & Ho & Hr & _ & Hh & _ & _ & Hu & _)%compute_Ok.
  apply fetch_Ok in Hr as (_ & _ & Hun & _).
  apply build_graph_Ok in Hgb as (nedges & inv & _ & Hn & Hst & _).
  rewrite Hst, prepared_neigh in Hh. simpl in Hh, Hn. rewrite Hn in Hh.
  pose proof (scatter_loop_uncertainties _ _ _ _ _ _ _ _ Hh) as Hcells.
  pose proof (scatter_loop_lengths _ _ _ _ _ _ _ _ Hh) as (_ & _ & Hlen).
  simpl in Hcells, Hlen. rewrite <-Hu in Hcells, Hlen.
  assert (∀ m, nmax (pair (prepared (call_ev_init E eflag vflag st) m))
               = Z.max (nmax (pair st)) (atom_nmax (atom st)) ∧
          uncertainties (pair (prepared (call_ev_init E eflag vflag st) m))
               = if bool_decide (nmax (pair st) < atom_nmax (atom st))
                 then replicate (Z.to_nat (atom_nmax (atom st))) None
                 else uncertainties (pair st)) as Hprep.
  { intros m. unfold prepared, grow_uncertainties. simpl.
    repeat case_bool_decide; simpl; split; (lia || done). }
  destruct (Hprep nedges0) as [Hmax _]. destruct (Hprep nedges) as [_ Hu0].
  rewrite Hu0 in Hcells, Hlen. rewrite Hnmax, Hmax.
  split; [done|]. split.
  { intros Hl. rewrite Hlen. case_bool_decide; [rewrite length_replicate|]; lia. }
  exists g, output, (r_uncertainties_itag r). split; [done|]. split; [done|].
  intros idx.
  destruct (Hcells idx) as [Hsame|(d & x & Hd & _ & Hx & Hv)];
    [right|left; by exists d, x].
  rewrite Hsame. case_bool_decide; [|done].
  destruct (decide (idx < Z.to_nat (atom_nmax (atom st)))%nat).
  - right. by apply lookup_replicate_2.
  - left. apply lookup_ge_None_2. rewrite length_replicate. lia.
Qed.

Lemma uncertainties_grow_only_witness :
  ∃ st', compute ref_externals 3 1 (two_atoms 0) = Ok st' ∧
    nmax (pair st') = 4 ∧ length (uncertainties (pair st')) = 4%nat ∧
    uncertainties (pair st') !! 2%nat = Some None.
Proof.
  destruct (compute ref_externals 3 1 (two_atoms 0)) as [st'|e] eqn:Hc;
    [|vm_compute in Hc; discriminate Hc].
  destruct (uncertainties_grow_only ref_externals 3 1 (two_atoms 0) st' Hc)
    as (Hmax & Hlen & _).
  exists st'. split; [reflexivity|]. split; [exact Hmax|].
  split; [rewrite (Hlen eq_refl), Hmax; reflexivity|].
  vm_compute in Hc. injection Hc as <-. reflexivity.
Defined.

(** ** Buffer safety: under the host's invariants no index leaves its array *)

Lemma foldl_add_zsum l acc : foldl Z.add acc l = acc + zsum l.
Proof.
  revert acc. induction l as [|a l IH]; intros acc; simpl; [lia|].
  rewrite IH. unfold zsum. simpl. lia.
Qed.

Lemma zsum_app l1 l2 : zsum (l1 ++ l2) = zsum l1 + zsum l2.
Proof. induction l1 as [|a l1 IH]; simpl; [done|]. unfold zsum in *. simpl. lia. Qed.

Lemma zsum_Permutation l1 l2 : l1 ≡ₚ l2 → zsum l1 = zsum l2.
Proof. induction 1; unfold zsum in *; simpl; lia. Qed.

Lemma zsum_nonneg l : Forall (λ n, 0 ≤ n) l → 0 ≤ zsum l.
Proof. induction 1; unfold zsum in *; simpl; lia. Qed.

Lemma zsum_submseteq l1 l2 :
  Forall (λ n, 0 ≤ n) l2 → l1 ⊆+ l2 → zsum l1 ≤ zsum l2.
Proof.
  intros Hpos (k & Hk)%submseteq_Permutation.
  rewrite (zsum_Permutation _ _ Hk), zsum_app.
  rewrite Hk in Hpos. apply Forall_app in Hpos as [_ Hpos%zsum_nonneg]. lia.
Qed.

Lemma at_lookup {A} (d : A) l (k : nat) a : l !! k = Some a → at_ d l (Z.of_nat k) = a.
Proof. intros H. apply (at_zget d ""). by apply zget_Ok_nat. Qed.

Lemma at_fmap_seq (a : list Z) (n : nat) :
  (n ≤ length a)%nat → (λ k : nat, at_ 0 a (Z.of_nat k)) <$> seq 0 n = take n a.
Proof.
  revert a. induction n as [|n IH]; intros a Hn; [done|].
  destruct (lookup_lt_is_Some_2 a n) as [v Hv]; [lia|].
  rewrite seq_S, fmap_app, IH by lia. simpl.
  rewrite (at_lookup _ _ _ _ Hv). by erewrite take_S_r.
Qed.

(** The entries of a count array at pairwise distinct indices sum to at
    most the sum of the array. *)
Lemma zsum_distinct_indices (a : list Z) (n : nat) (l : list Z) :
  (n ≤ length a)%nat →
  Forall (λ v, 0 ≤ v) (take n a) →
  NoDup l → Forall (λ i, 0 ≤ i < Z.of_nat n) l →
  zsum (at_ 0 a <$> l) ≤ zsum (take n a).
Proof.
  intros Hn Hpos Hnd Hl.
  assert (Z.to_nat <$> l ⊆+ seq 0 n) as Hsub.
  { apply NoDup_submseteq.
    - apply NoDup_fmap_2_strong; [|done].
      intros x y Hx Hy Hxy. rewrite Forall_forall in Hl.
      pose proof (Hl x Hx). pose proof (Hl y Hy). lia.
    - intros k (i & -> & Hi)%list_elem_of_fmap. rewrite Forall_forall in Hl.
      specialize (Hl i Hi). apply elem_of_seq. lia. }
  apply (fmap_submseteq (λ k : nat, at_ 0 a (Z.of_nat k))) in Hsub.
  rewrite at_fmap_seq in Hsub by done.
  rewrite <-list_fmap_compose in Hsub.
  erewrite (list_fmap_ext _ (at_ 0 a)) in Hsub; [by apply zsum_submseteq|].
  intros k i Hi%list_elem_of_lookup_2. rewrite Forall_forall in Hl.
  specialize (Hl i Hi). simpl. f_equal. lia.
Qed.

Lemma Ok_bind {A B} (a : A) (k : A → outcome B) : (Ok a ≫= k) = k a.
Proof. done. Qed.

Lemma zget_total {A} (d : A) w l i :
  0 ≤ i < Z.of_nat (length l) → zget w l i = Ok (at_ d l i).
Proof.
  intros Hi. destruct (lookup_lt_is_Some_2 l (Z.to_nat i)) as [a Ha]; [lia|].
  assert (zget w l i = Ok a) as H by (apply zget_Ok; split; [lia|done]).
  by rewrite (at_zget d _ _ _ _ H).
Qed.

Lemma zset_total {A} w (l : list A) i a :
  0 ≤ i < Z.of_nat (length l) → zset w l i a = Ok (<[Z.to_nat i := a]> l).
Proof. intros Hi. by apply zset_Ok. Qed.

(** A loop whose body succeeds under an invariant succeeds, and the
    invariant holds when it ends. *)
Lemma for_total_inv {S} (P : Z → S → Prop) (body : Z → S → outcome S) n s :
  P 0 s →
  (∀ k t, 0 ≤ k < n → P k t → ∃ t', body k t = Ok t' ∧ P (k + 1) t') →
  ∃ s', for_ n body s = Ok s' ∧ P (Z.max 0 n) s'.
Proof.
  intros H0 Hstep. destruct (for_total P body n s H0 Hstep) as [s' Hs'].
  exists s'. split; [done|]. revert Hs'. apply for_invariant; [done|].
  intros k t t' Hk HP Hb. destruct (Hstep k t Hk HP) as (t'' & Hb' & HP').
  congruence.
Qed.

Lemma store_tag_total E st i d :
  local_ok E st i →
  length (tag2i d) = Z.to_nat (atom_nlocal (atom st)) →
  length (tag2type d) = Z.to_nat (atom_nlocal (atom st)) →
  length (pos d) = Z.to_nat (atom_nlocal (atom st)) →
  ∃ d', store_tag st i d = Ok d' ∧
    length (tag2i d') = Z.to_nat (atom_nlocal (atom st)) ∧
    length (tag2type d') = Z.to_nat (atom_nlocal (atom st)) ∧
    length (pos d') = Z.to_nat (atom_nlocal (atom st)).
Proof.
  intros ([((Hi & Hty) & Hx) Htag] & Hmap & _) H1 H2 H3.
  unfold tag_of in Htag. unfold store_tag.
  rewrite (zget_total 0 "tag") by lia. simpl.
  rewrite (zget_total 0 "type") by lia. simpl.
  rewrite zset_total by lia. simpl.
  rewrite (zget_total 0 "type_mapper") by lia. simpl.
  rewrite zset_total by lia. simpl.
  rewrite (zget_total (V3 dzero dzero dzero) "x") by lia. simpl.
  rewrite zset_total by lia. simpl.
  eexists. split; [done|]. simpl. by rewrite !length_insert.
Qed.

Lemma local_atoms_lookup st (k : Z) :
  0 ≤ k < atom_nlocal (atom st) →
  atom_nlocal (atom st) ≤ Z.of_nat (length (list_ilist (neigh st))) →
  ∃ i, local_atoms st !! Z.to_nat k = Some i ∧ i ∈ local_atoms st ∧
       zget "ilist" (list_ilist (neigh st)) k = Ok i.
Proof.
  intros Hk Hlen.
  destruct (lookup_lt_is_Some_2 (local_atoms st) (Z.to_nat k)) as [i Hi].
  { unfold local_atoms. rewrite length_take. lia. }
  exists i. split; [done|]. split; [by eapply list_elem_of_lookup_2|].
  apply zget_Ok. split; [lia|]. unfold local_atoms in Hi.
  by apply lookup_take_Some in Hi as [? _].
Qed.

Lemma store_tags_total E st : host_ok E st → is_Ok (store_tags st).
Proof.
  intros (_ & Hinum & Hn & _ & _ & _ & _ & Hloc). unfold store_tags. rewrite Hinum.
  pose (P := λ (k : Z) (d : dense),
    length (tag2i d) = Z.to_nat (atom_nlocal (atom st)) ∧
    length (tag2type d) = Z.to_nat (atom_nlocal (atom st)) ∧
    length (pos d) = Z.to_nat (atom_nlocal (atom st))).
  apply (for_total P).
  - unfold P. simpl. by rewrite !length_replicate.
  - intros k d Hk (H1 & H2 & H3).
    destruct (local_atoms_lookup st k) as (i & _ & Hin & ->); [done|lia|]. simpl.
    rewrite Forall_forall in Hloc.
    destruct (store_tag_total E st i d (Hloc i Hin) H1 H2 H3) as (d' & -> & ?).
    by exists d'.
Qed.

Lemma push_edge_total itag jtag s nedges b :
  fits nedges b → edge_counter b < nedges →
  ∃ b', push_edge itag jtag s b = Ok b' ∧ fits nedges b' ∧
        edge_counter b' = edge_counter b + 1.
Proof.
  intros (He & Hs & Hc) Hlt. unfold push_edge. cbv zeta.
  rewrite (zset_total _ (edge_cell_shifts b)), Ok_bind by lia.
  rewrite (zset_total _ (<[_:=_]> (edge_cell_shifts b))), Ok_bind
    by (rewrite !length_insert; lia).
  rewrite (zset_total _ (<[_:=_]> (<[_:=_]> (edge_cell_shifts b)))), Ok_bind
    by (rewrite !length_insert; lia).
  rewrite (zset_total _ (edges b)), Ok_bind by lia.
  rewrite (zset_total _ (<[_:=_]> (edges b))), Ok_bind by (rewrite !length_insert; lia).
  eexists. split; [done|]. split; [|done].
  unfold fits. simpl. rewrite !length_insert. split; [done|]. split; [done|lia].
Qed.

Lemma visit_neighbor_total E st d cell_inv i itag jentry nedges b :
  atom_ok st i → neighbor_ok st (Z.land jentry (NEIGHMASK E)) →
  length (pos d) = Z.to_nat (atom_nlocal (atom st)) →
  fits nedges b → edge_counter b < nedges →
  ∃ b', visit_neighbor E st d cell_inv i itag jentry b = Ok b' ∧ fits nedges b' ∧
        edge_counter b ≤ edge_counter b' ≤ edge_counter b + 1.
Proof.
  intros ((Hi & _) & Hix) [((Hj & Hjty) & Hjx) Hjtag] Hpos Hfit Hlt.
  unfold tag_of in Hjtag. unfold visit_neighbor.
  rewrite (zget_total 0 "tag") by lia. simpl.
  rewrite (zget_total 0 "type") by lia. simpl.
  rewrite (zget_total (V3 dzero dzero dzero) "x") by lia. simpl.
  rewrite (zget_total (V3 fzero fzero fzero) "pos") by lia. simpl.
  rewrite (zget_total (V3 dzero dzero dzero) "x") by lia. simpl.
  destruct (dltb _ _).
  - edestruct push_edge_total as (b' & -> & ? & Hec); [done..|].
    exists b'. split; [done|]. split; [done|lia].
  - exists b. split; [done|]. split; [done|lia].
Qed.

Lemma visit_atom_total E st d cell_inv i nedges b :
  local_ok E st i → 0 ≤ numneigh_of st i →
  i < Z.of_nat (length (list_numneigh (neigh st))) →
  length (pos d) = Z.to_nat (atom_nlocal (atom st)) →
  fits nedges b → edge_counter b + numneigh_of st i ≤ nedges →
  ∃ b', visit_atom E st d cell_inv i b = Ok b' ∧ fits nedges b' ∧
        edge_counter b' ≤ edge_counter b + numneigh_of st i.
Proof.
  intros ([Hat Htag] & _ & _ & Hfn & Hjn & Hnb) Hnn Hin Hpos Hfit Hroom.
  pose proof Hat as ((Hi & Hty) & Hx).
  unfold numneigh_of in *. unfold visit_atom.
  rewrite (zget_total 0 "tag") by lia. simpl.
  rewrite (zget_total 0 "type") by lia. simpl.
  rewrite (zget_total 0 "numneigh") by lia. simpl.
  rewrite (zget_total [] "firstneigh") by lia. simpl.
  set (jnum := at_ 0 (list_numneigh (neigh st)) i) in *.
  set (jlist := at_ [] (list_firstneigh (neigh st)) i) in *.
  pose (P := λ (jj : Z) (b' : edge_buffers),
    fits nedges b' ∧ edge_counter b' ≤ edge_counter b + jj).
  destruct (for_total_inv P
    (λ jj b, jentry ← zget "jlist" jlist jj;
             visit_neighbor E st d cell_inv i (at_ 0 (atom_tag (atom st)) i) jentry b)
    jnum b) as (b' & Hb' & Hfit' & Hc').
  - unfold P. split; [done|lia].
  - intros jj t Hjj [Hft Hct].
    destruct (lookup_lt_is_Some_2 jlist (Z.to_nat jj)) as [jentry Hje]; [lia|].
    rewrite (proj2 (zget_Ok "jlist" jlist jj jentry)) by (split; [lia|done]). simpl.
    destruct (visit_neighbor_total E st d cell_inv i (at_ 0 (atom_tag (atom st)) i)
                jentry nedges t) as (t' & -> & ? & ?); [done| |done|done|lia|].
    + rewrite Forall_forall in Hnb. apply Hnb. unfold neighbors_of.
      apply list_elem_of_fmap. exists jentry. split; [done|].
      apply (list_elem_of_lookup_2 _ (Z.to_nat jj)). fold jnum jlist.
      apply lookup_take_Some. split; [done|lia].
    + exists t'. split; [done|]. unfold P. split; [done|lia].
  - exists b'. split; [done|]. split; [done|lia].
Qed.

Lemma edge_loop_total E st d cell_inv nedges :
  host_ok E st →
  length (pos d) = Z.to_nat (atom_nlocal (atom st)) →
  zsum (take (Z.to_nat (list_inum (neigh st) + list_gnum (neigh st)))
             (list_numneigh (neigh st))) ≤ nedges →
  ∃ b, edge_loop E st d cell_inv nedges = Ok b ∧ fits nedges b ∧
       edge_counter b ≤ nedges.
Proof.
  intros (_ & Hinum & Hn & Hg & Hnt & Hpos & Hnd & Hloc) Hlen Hsum.
  apply NoDup_fmap_1 in Hnd. rewrite Forall_forall in Hloc.
  set (ntotal := list_inum (neigh st) + list_gnum (neigh st)) in *.
  assert (∀ i, i ∈ local_atoms st → 0 ≤ i < ntotal) as Hrange.
  { intros i Hi. destruct (Hloc i Hi) as ([((? & _) & _) _] & _ & ? & _). lia. }
  assert (Forall (λ v, 0 ≤ v) (numneigh_of st <$> local_atoms st)) as Hnn.
  { apply Forall_fmap, Forall_forall. intros i Hi. specialize (Hrange i Hi). simpl.
    destruct (lookup_lt_is_Some_2 (list_numneigh (neigh st)) (Z.to_nat i)) as [v Hv]; [lia|].
    unfold numneigh_of. rewrite <-(Z2Nat.id i) by lia. rewrite (at_lookup _ _ _ _ Hv).
    rewrite Forall_forall in Hpos. apply Hpos.
    apply (list_elem_of_lookup_2 _ (Z.to_nat i)). apply lookup_take_Some. split; [done|lia]. }
  assert (zsum (numneigh_of st <$> local_atoms st) ≤ nedges) as Htot.
  { etrans; [|exact Hsum]. apply zsum_distinct_indices; [lia|done|done|].
    apply Forall_forall. intros i Hi. specialize (Hrange i Hi). lia. }
  pose (P := λ (ii : Z) (b : edge_buffers),
    fits nedges b ∧
    edge_counter b ≤ zsum (numneigh_of st <$> take (Z.to_nat ii) (local_atoms st))).
  unfold edge_loop.
  destruct (for_total_inv P
    (λ ii b, i ← zget "ilist" (list_ilist (neigh st)) ii; visit_atom E st d cell_inv i b)
    (atom_nlocal (atom st))
    {| edge_counter := 0;
       edges := replicate (Z.to_nat (2 * nedges)) None;
       edge_cell_shifts := replicate (Z.to_nat (3 * nedges)) None |})
    as (b & Hb & Hfit & Hc).
  - unfold P, fits. simpl. rewrite !length_replicate. done.
  - intros ii t Hii [Hft Hct].
    destruct (local_atoms_lookup st ii) as (i & Hi & Hin & ->); [done|lia|]. simpl.
    assert (zsum (numneigh_of st <$> take (Z.to_nat (ii + 1)) (local_atoms st))
            = zsum (numneigh_of st <$> take (Z.to_nat ii) (local_atoms st))
              + numneigh_of st i) as HS.
    { replace (Z.to_nat (ii + 1)) with (S (Z.to_nat ii)) by lia.
      erewrite take_S_r by done. rewrite fmap_app, zsum_app. unfold zsum. simpl. lia. }
    assert (zsum (numneigh_of st <$> take (Z.to_nat (ii + 1)) (local_atoms st)) ≤ nedges)
      as Hle.
    { etrans; [|exact Htot]. apply zsum_submseteq; [done|].
      apply fmap_submseteq, sublist_submseteq, sublist_take. }
    assert (0 ≤ numneigh_of st i) as Hpi.
    { rewrite Forall_forall in Hnn. apply Hnn, list_elem_of_fmap. by exists i. }
    specialize (Hrange i Hin).
    destruct (visit_atom_total E st d cell_inv i nedges t) as (t' & -> & ? & ?);
      [by apply Hloc|done|lia|done|done|lia|].
    exists t'. split; [done|]. unfold P. split; [done|lia].
  - exists b. split; [done|]. split; [done|].
    etrans; [exact Hc|]. etrans; [|exact Htot].
    apply zsum_submseteq; [done|]. apply fmap_submseteq, sublist_submseteq, sublist_take.
Qed.

Lemma prepared_type_mapper st n : type_mapper (pair (prepared st n)) = type_mapper (pair st).
Proof. unfold prepared, grow_uncertainties. by repeat case_bool_decide. Qed.

Lemma host_ok_prepared E st n : host_ok E st → host_ok E (prepared st n).
Proof.
  unfold host_ok, local_ok, neighbor_ok, atom_ok, tag_of, neighbors_of, local_atoms.
  by rewrite prepared_atom, prepared_neigh, prepared_newton, prepared_type_mapper.
Qed.

(** Under the host's invariants the graph is built without leaving any
    array, and the edge counter stays within the [nedges] slots that were
    allocated. *)
Lemma build_graph_total E st :
  host_ok E st → is_Some (torch_inverse E (get_cell (domain st))) →
  ∃ gb, build_graph E st = Ok gb ∧
    edge_counter (gb_buffers gb)
      ≤ zsum (take (Z.to_nat (list_inum (neigh st) + list_gnum (neigh st)))
                   (list_numneigh (neigh st))).
Proof.
  intros Hok [inv Hinv]. pose proof Hok as (Hnewton & Hinum & Hn & Hg & Hnt & Hpos & _).
  set (nedges := zsum _).
  destruct (store_tags_total E (prepared st nedges)) as [d Hd];
    [by apply host_ok_prepared|].
  destruct (edge_loop_total E (prepared st nedges) d (transpose inv) nedges)
    as (b & Hb & _ & Hc).
  { by apply host_ok_prepared. }
  { apply store_tags_stored in Hd as [(_ & _ & Hl & _) _]. by rewrite prepared_atom in *. }
  { by rewrite prepared_neigh. }
  exists {| gb_state := prepared st nedges; gb_dense := d;
            gb_cell := get_cell (domain st); gb_cell_inv := transpose inv;
            gb_buffers := b |}.
  split; [|done].
  unfold build_graph. cbv zeta. change (grow_uncertainties st) with (prepared st 1).
  rewrite !prepared_neigh, !prepared_atom, prepared_newton.
  rewrite (bool_decide_eq_false_2 _ Hnewton). cbv iota. rewrite (Ok_bind ()).
  rewrite (bool_decide_eq_true_2 _ Hinum). cbv iota. rewrite (Ok_bind ()).
  unfold accumulate. rewrite (bool_decide_eq_true_2 (0 ≤ _ + _ ≤ _)) by lia. cbv iota.
  rewrite (Ok_bind (foldl _ _ _)), foldl_add_zsum, Z.add_0_l. fold nedges.
  change (if bool_decide (nedges = 0) then set_timer_timeout true (prepared st 1)
          else prepared st 1) with (prepared st nedges).
  rewrite (bool_decide_eq_true_2 (0 ≤ atom_nlocal _)) by lia. cbv iota.
  rewrite (Ok_bind ()).
  rewrite (bool_decide_eq_true_2 (0 ≤ nedges)) by (by apply zsum_nonneg). cbv iota.
  rewrite (Ok_bind ()).
  rewrite Hd, (Ok_bind d). rewrite prepared_domain, Hinv. simpl. by rewrite Hb.
Qed.

Lemma assemble_total E st gb :
  build_graph E st = Ok gb → qualifying E st ≠ [] → is_Ok (assemble gb).
Proof.
  intros Hh%build_graph_holds Hq. pose proof Hh as [Hc _].
  unfold emitted in Hc. rewrite length_fmap in Hc.
  destruct (shorten_total _ _ Hh) as [[[r0 r1] sh] Hs].
  unfold assemble. rewrite bool_decide_eq_false_2.
  - rewrite (Ok_bind ()), Hs. by eexists.
  - rewrite Hc. destruct (qualifying E st); [done|]. simpl. lia.
Qed.

Lemma acc2_total t N c i j :
  shaped [N; c] t → 0 ≤ i < N → 0 ≤ j < c → is_Ok (acc2 t i j).
Proof.
  intros [Hs Hd] Hi Hj. unfold acc2. rewrite Hs.
  change (at_ 0 [N; c] 1) with c.
  rewrite (zget_total fzero); [by eexists|]. rewrite Hd. simpl. nia.
Qed.

Lemma acc3_total t i j :
  shaped [1; 3; 3] t → 0 ≤ i < 3 → 0 ≤ j < 3 → is_Ok (acc3 t 0 i j).
Proof.
  intros [Hs Hd] Hi Hj. unfold acc3. rewrite Hs.
  change (at_ 0 [1; 3; 3] 1) with 3. change (at_ 0 [1; 3; 3] 2) with 3.
  rewrite (zget_total fzero); [by eexists|]. rewrite Hd. simpl. lia.
Qed.

Lemma flatten_virial_total v vir :
  shaped [1; 3; 3] v → 6 ≤ Z.of_nat (length vir) → is_Ok (flatten_virial v vir).
Proof.
  intros Hv Hl. unfold flatten_virial.
  destruct (acc3_total v 0 0 Hv) as [v00 ->]; [lia..|]. rewrite (Ok_bind v00).
  rewrite (zset_total _ vir), (Ok_bind (<[_:=_]> vir)) by lia.
  destruct (acc3_total v 1 1 Hv) as [v11 ->]; [lia..|]. rewrite (Ok_bind v11).
  rewrite zset_total, (Ok_bind (<[_:=_]> _)) by (rewrite !length_insert; lia).
  destruct (acc3_total v 2 2 Hv) as [v22 ->]; [lia..|]. rewrite (Ok_bind v22).
  rewrite zset_total, (Ok_bind (<[_:=_]> _)) by (rewrite !length_insert; lia).
  destruct (acc3_total v 0 1 Hv) as [v01 ->]; [lia..|]. rewrite (Ok_bind v01).
  rewrite zset_total, (Ok_bind (<[_:=_]> _)) by (rewrite !length_insert; lia).
  destruct (acc3_total v 0 2 Hv) as [v02 ->]; [lia..|]. rewrite (Ok_bind v02).
  rewrite zset_total, (Ok_bind (<[_:=_]> _)) by (rewrite !length_insert; lia).
  destruct (acc3_total v 1 2 Hv) as [v12 ->]; [lia..|]. rewrite (Ok_bind v12).
  rewrite zset_total, (Ok_bind (<[_:=_]> _)) by (rewrite !length_insert; lia).
  by eexists.
Qed.

Lemma accessor_total n t shape :
  shaped shape t → length shape = n → accessor n t = Ok t.
Proof. intros [Hs _] Hn. unfold accessor. rewrite Hs. by rewrite bool_decide_eq_true_2. Qed.

Lemma fetch_total N vflag b output :
  response_ok N vflag output → 6 ≤ Z.of_nat (length (virial b)) →
  ∃ r, fetch vflag b output = Ok r ∧
       shaped [N; 3] (r_forces r) ∧ shaped [N; 1] (r_atomic_energies r) ∧
       shaped [N; 1] (r_uncertainties_itag r).
Proof.
  intros ((ft & Hft & Hfs) & (te & Hte & Hted) & (ae & Hae & Haes) & (un & Hun & Huns) & Hv)
    Hvir.
  unfold fetch.
  rewrite (proj2 (dict_at_Ok _ _ _) Hft), (Ok_bind ft).
  rewrite (accessor_total 2 ft [N; 3]), (Ok_bind ft) by done.
  rewrite (proj2 (dict_at_Ok _ _ _) Hte), (Ok_bind te).
  rewrite (zget_total fzero _ (data te)), (Ok_bind (at_ fzero (data te) 0))
    by (destruct (data te); [done|simpl; lia]).
  rewrite (proj2 (dict_at_Ok _ _ _) Hae), (Ok_bind ae).
  rewrite (accessor_total 2 ae [N; 1]), (Ok_bind ae) by done.
  rewrite (proj2 (dict_at_Ok _ _ _) Hun), (Ok_bind un).
  rewrite (accessor_total 2 un [N; 1]), (Ok_bind un) by done.
  case_bool_decide as Hvf.
  - destruct (Hv Hvf) as (vt & Hvt & Hvs).
    rewrite (proj2 (dict_at_Ok _ _ _) Hvt), (Ok_bind vt).
    rewrite (accessor_total 3 vt [1; 3; 3]), (Ok_bind vt) by done.
    destruct (flatten_virial_total vt (virial (set_eng_vdwl (f2d (at_ fzero (data te) 0)) b)))
      as [vir ->]; [done|done|].
    simpl. by eexists.
  - simpl. by eexists.
Qed.

Lemma scatter_node_total eflag_atom t2i forces ae un N k i h :
  shaped [N; 3] forces → shaped [N; 1] ae → shaped [N; 1] un →
  0 ≤ k < N → zget "tag2i" t2i k = Ok i →
  0 ≤ i < Z.of_nat (length (h_f h)) →
  (eflag_atom ≠ 0 → i < Z.of_nat (length (h_eatom h))) →
  i < Z.of_nat (length (h_uncertainties h)) →
  ∃ h', scatter_node eflag_atom t2i forces ae un k h = Ok h' ∧
        length (h_f h') = length (h_f h) ∧
        length (h_eatom h') = length (h_eatom h) ∧
        length (h_uncertainties h') = length (h_uncertainties h).
Proof.
  intros Hf Ha Hu Hk Hi Hif Hie Hiu. unfold scatter_node.
  rewrite Hi, (Ok_bind i).
  destruct (acc2_total forces N 3 k 0 Hf) as [f0 ->]; [lia..|]. rewrite (Ok_bind f0).
  destruct (acc2_total forces N 3 k 1 Hf) as [f1 ->]; [lia..|]. rewrite (Ok_bind f1).
  destruct (acc2_total forces N 3 k 2 Hf) as [f2 ->]; [lia..|]. rewrite (Ok_bind f2).
  rewrite (zset_total _ (h_f h)), (Ok_bind (<[_:=_]> (h_f h))) by lia.
  destruct (acc2_total un N 1 k 0 Hu) as [u Hu0]; [lia..|].
  case_bool_decide as He.
  - destruct (acc2_total ae N 1 k 0 Ha) as [e ->]; [lia..|]. rewrite (Ok_bind e).
    rewrite (zset_total _ (h_eatom h)), (Ok_bind (<[_:=_]> (h_eatom h))) by (specialize (Hie He); lia).
    rewrite Hu0, (Ok_bind u).
    rewrite (zset_total _ (h_uncertainties h)), (Ok_bind (<[_:=_]> (h_uncertainties h))) by lia.
    eexists. split; [done|]. simpl. by rewrite !length_insert.
  - rewrite (Ok_bind (h_eatom h)), Hu0, (Ok_bind u).
    rewrite (zset_total _ (h_uncertainties h)), (Ok_bind (<[_:=_]> (h_uncertainties h))) by lia.
    eexists. split; [done|]. simpl. by rewrite !length_insert.
Qed.

Lemma grow_uncertainties_room st :
  length (uncertainties (pair st)) = Z.to_nat (nmax (pair st)) →
  atom_nmax (atom st)
    ≤ Z.of_nat (length (uncertainties (pair (grow_uncertainties st)))) ∧
  length (uncertainties (pair (grow_uncertainties st)))
    = Z.to_nat (nmax (pair (grow_uncertainties st))).
Proof.
  intros H. unfold grow_uncertainties. case_bool_decide; simpl.
  - rewrite length_replicate. lia.
  - lia.
Qed.

Lemma prepared_uncertainties st n :
  uncertainties (pair (prepared st n)) = uncertainties (pair (grow_uncertainties st)).
Proof. unfold prepared. by case_bool_decide. Qed.

(** [compute] succeeds: with a host state that satisfies the invariants, a
    cell that can be inverted, at least one pair within the cutoff, and a
    model that answers the request with tensors of the expected shapes, no
    error is raised and no access leaves its array. *)
Lemma compute_total E eflag vflag st :
  host_ok E st →
  arrays_ok (ev_init E eflag vflag st) st →
  is_Some (torch_inverse E (get_cell (domain st))) →
  qualifying E st ≠ [] →
  (∀ gb g, build_graph E (call_ev_init E eflag vflag st) = Ok gb → assemble gb = Ok g →
     ∃ output, model_forward E g = Some output ∧
               response_ok (atom_nlocal (atom st)) vflag output) →
  is_Ok (compute E eflag vflag st).
Proof.
  intros Hok (Hnmax & Hflen & Hulen & Hva & Hea & Hvir) Hinv Hq Hmodel.
  set (st0 := call_ev_init E eflag vflag st) in *.
  assert (host_ok E st0) as Hok0 by exact Hok.
  destruct (build_graph_total E st0 Hok0 Hinv) as (gb & Hgb & _).
  destruct (assemble_total E st0 gb Hgb Hq) as [g Hg].
  destruct (Hmodel gb g Hgb Hg) as (output & Hfwd & Hresp).
  pose proof Hgb as (nedges & inv & _ & Hinum & Hst & _)%build_graph_Ok.
  change (list_inum (neigh st) = atom_nlocal (atom st)) in Hinum.
  destruct (fetch_total _ vflag (pair_base (pair (gb_state gb))) output Hresp)
    as (r & Hr & Hfs & Has & Hus).
  { by rewrite Hst, prepared_base. }
  pose proof Hr as (_ & _ & _ & _ & Hef & Hvf & Heat & _)%fetch_Ok.
  rewrite Hst, prepared_base in Hef, Hvf, Heat.
  pose proof Hok as (_ & _ & _ & _ & _ & _ & Hnd & Hloc).
  destruct (build_graph_tags E st0 gb Hgb Hnd) as [_ Htags].
  destruct (grow_uncertainties_room st0 Hulen) as [Hroom _].
  pose (P := λ (k : Z) (h : host_arrays),
    length (h_f h) = length (atom_f (atom st)) ∧
    length (h_eatom h) = length (eatom (ev_init E eflag vflag st)) ∧
    length (h_uncertainties h) = length (uncertainties (pair (grow_uncertainties st0)))).
  destruct (for_total P
    (scatter_node (eflag_atom (r_pair r)) (tag2i (gb_dense gb))
                  (r_forces r) (r_atomic_energies r) (r_uncertainties_itag r))
    (list_inum (neigh (gb_state gb)))
    {| h_f := atom_f (atom (gb_state gb)); h_eatom := eatom (r_pair r);
       h_uncertainties := uncertainties (pair (gb_state gb)) |}) as [h Hh].
  - unfold P. simpl. rewrite Hst, prepared_f, prepared_uncertainties, Heat. done.
  - intros k h Hk (L1 & L2 & L3). rewrite Hst, prepared_neigh in Hk.
    change (neigh st0) with (neigh st) in Hk.
    destruct (Htags k) as (i & Hin & Hi & _);
      [change (atom_nlocal (atom st0)) with (atom_nlocal (atom st)); lia|].
    rewrite Forall_forall in Hnmax, Hloc.
    pose proof (Hnmax i Hin) as Hlt. destruct (Hloc i Hin) as ([((Hi0 & _) & _) _] & _).
    destruct (scatter_node_total (eflag_atom (r_pair r)) (tag2i (gb_dense gb))
                (r_forces r) (r_atomic_energies r) (r_uncertainties_itag r)
                (atom_nlocal (atom st)) k i h) as (h' & Hh' & L1' & L2' & L3');
      [done|done|done| |done| | | |].
    + lia.
    + rewrite L1. lia.
    + intros He. rewrite L2. rewrite Hef in He. specialize (Hea He). lia.
    + rewrite L3. change (atom_nmax (atom st0)) with (atom_nmax (atom st)) in Hroom. lia.
    + exists h'. split; [done|]. unfold P. by rewrite L1', L2', L3'.
  - unfold compute. fold st0. cbv zeta.
    rewrite Hgb, (Ok_bind gb), Hg, (Ok_bind g), Hfwd. simpl.
    rewrite Hr. simpl. unfold scatter.
    assert (vflag_atom (r_pair r) = 0) as Hz by (rewrite Hvf; exact Hva).
    rewrite bool_decide_eq_false_2 by (rewrite Hz; lia). rewrite (Ok_bind ()).
    rewrite Hh. simpl. by eexists.
Qed.

(** X7.  Building the graph is memory safe.  For a host state that
    satisfies [host_ok] (Newton off, one list entry per local atom, counts
    that are not negative, distinct tags in [1, nlocal], known types, and
    neighbor lists that hold atoms of the system) and a cell that
    [torch.inverse] accepts, [compute] gets through its first two loops
    without any error and without any access outside an array; the edge
    counter never passes [nedges], the number of slots of the two edge
    buffers. *)
Theorem graph_construction_is_memory_safe (E : externals) (st : lammps) :
  host_ok E st → is_Some (torch_inverse E (get_cell (domain st))) →
  ∃ gb, build_graph E st = Ok gb ∧
    edge_counter (gb_buffers gb)
      ≤ zsum (take (Z.to_nat (list_inum (neigh st) + list_gnum (neigh st)))
                   (list_numneigh (neigh st))).
Proof. apply build_graph_total. Qed.

Lemma graph_construction_is_memory_safe_witness :
  host_ok ref_externals (two_atoms 0) ∧
  is_Some (torch_inverse ref_externals (get_cell (domain (two_atoms 0)))) ∧
  ∃ gb, build_graph ref_externals (two_atoms 0) = Ok gb ∧ edge_counter (gb_buffers gb) ≤ 4.
Proof.
  assert (host_ok ref_externals (two_atoms 0)) as Hok
    by (apply (bool_decide_unpack _); vm_compute; exact I).
  assert (is_Some (torch_inverse ref_externals (get_cell (domain (two_atoms 0))))) as Hinv
    by (vm_compute; eexists; reflexivity).
  split; [exact Hok|]. split; [exact Hinv|].
  exact (graph_construction_is_memory_safe ref_externals (two_atoms 0) Hok Hinv).
Defined.

(** X8.  When [compute] succeeds.  With a host state that satisfies
    [host_ok], arrays allocated as [arrays_ok] says (in particular
    [uncertainties] holds the [nmax] cells of its last allocation), a cell
    that can be inverted, at least one pair within the cutoff, and a model
    that answers the request with tensors of the shapes [compute] reads
    ([N,3] forces, [N,1] energies and uncertainties, a total energy and,
    if requested, a [1,3,3] virial), [compute] returns normally; the
    [uncertainties] array then again holds [nmax] cells, so that the next
    call starts from the same invariant. *)
Theorem compute_succeeds (E : externals) (eflag vflag : Z) (st : lammps) :
  host_ok E st →
  arrays_ok (ev_init E eflag vflag st) st →
  is_Some (torch_inverse E (get_cell (domain st))) →
  qualifying E st ≠ [] →
  (∀ gb g, build_graph E (call_ev_init E eflag vflag st) = Ok gb → assemble gb = Ok g →
     ∃ output, model_forward E g = Some output ∧
               response_ok (atom_nlocal (atom st)) vflag output) →
  ∃ st', compute E eflag vflag st = Ok st' ∧
         length (uncertainties (pair st')) = Z.to_nat (nmax (pair st')).
Proof.
  intros Hok Harr Hinv Hq Hmodel.
  destruct (compute_total E eflag vflag st Hok Harr Hinv Hq Hmodel) as [st' Hc].
  exists st'. split; [done|].
  destruct Harr as (_ & _ & Hulen & _).
  apply compute_shape in Hc as (nedges & r & h & -> & _ & _ & _ & _ & _ & Hl).
  cbv zeta in Hl. simpl. rewrite Hl, prepared_uncertainties.
  destruct (grow_uncertainties_room (call_ev_init E eflag vflag st) Hulen) as [_ ->].
  unfold prepared. by case_bool_decide.
Qed.

Lemma compute_succeeds_witness :
  ∃ st', compute ref_externals 3 1 (two_atoms 0) = Ok st' ∧
         length (uncertainties (pair st')) = Z.to_nat (nmax (pair st')).
Proof.
  apply compute_succeeds.
  - apply (bool_decide_unpack _). vm_compute. exact I.
  - apply (bool_decide_unpack _). vm_compute. exact I.
  - vm_compute. eexists. reflexivity.
  - vm_compute. discriminate.
  - intros gb g Hb Ha. exists (ref_output g). split; [reflexivity|].
    vm_compute in Hb. injection Hb as <-. vm_compute in Ha. injection Ha as <-.
    unfold response_ok.
    split; [eexists; split; [vm_compute; reflexivity|split; vm_compute; reflexivity]|].
    split; [eexists; split; [vm_compute; reflexivity|vm_compute; discriminate]|].
    split; [eexists; split; [vm_compute; reflexivity|split; vm_compute; reflexivity]|].
    split; [eexists; split; [vm_compute; reflexivity|split; vm_compute; reflexivity]|].
    intros _. eexists; split; [vm_compute; reflexivity|split; vm_compute; reflexivity].
Defined.
